(** * GriSPy: grid search over k-dimensional points

    A shallow embedding of [grispy/core.py] and the properties of its grid
    construction and of its three queries.

    Numbers.  numpy's float64 arrays are idealised as exact rationals [Q]
    (comparisons, sums, products and quotients are exact); int arrays are
    [Z], positions in arrays are [nat].  The conversion from float to int
    in [_digitize] is the cast to 64 bits, with what it gives out of the
    64-bit range; the integer arithmetic after it works on clamped cell
    numbers and cannot wrap around.  The float
    operations that have no rational counterpart ([x ** 0.5],
    [x ** (1.0 / dim)]), the sorting routine behind [np.argsort] and the
    distance function of the external [distances] module are parameters of
    the model, gathered in the class [Numerics].

    Arrays.  A 1-d array is a list, a 2-d array a list of rows.  [k_bins_]
    is kept by axis: the list for axis [k] is the column [k_bins_[:, k]].
    The pair of parallel arrays (distances, indices) that the queries build,
    mask and permute together is one list of pairs per centre. *)

From stdpp Require Import base list gmap sorting.
From Stdlib Require Import QArith Qround Qabs Qminmax Lia Lqa.
Close Scope Q_scope.

(** [map] and [concat] are stdpp's [fmap] and [mjoin] on lists throughout. *)
Abbreviation map := (fmap (M := list)) (only parsing).
Abbreviation concat := (mjoin (M := list)) (only parsing).

(** ** Numeric primitives *)

#[global] Instance Q_inhabited : Inhabited Q := populate 0%Q.

(** The range of numpy's default integer, a signed 64-bit one. *)
Definition int64_min : Z := (-9223372036854775808)%Z.
Definition int64_max : Z := 9223372036854775807%Z.

(** A length that an array can have: [np.zeros] raises on a larger one. *)
Definition addressable (n : nat) : Prop := (Z.of_nat n ≤ int64_max)%Z.

#[global] Instance addressable_dec n : Decision (addressable n).
Proof. unfold addressable. apply _. Defined.

(** The integer next to a number on the side of zero. *)
Definition trunc (x : Q) : Z := Z.quot (Qnum x) (Zpos (Qden x)).

(** [float -> int] conversion of [astype(np.int)], a cast to a signed
    64-bit integer: the fraction is dropped, the value moves toward zero;
    when that integer is out of the 64-bit range the conversion gives the
    most negative integer, as the conversion instruction of the processor
    does. *)
Definition int64_cast (t : Z) : Z :=
  if decide (int64_min ≤ t ≤ int64_max)%Z then t else int64_min.

Definition astype_int (x : Q) : Z := int64_cast (trunc x).

Definition Qltb (x y : Q) : bool := negb (Qle_bool y x).
Definition Qnonzero (x : Q) : bool := negb (Qeq_bool x 0).

(** [np.sign] *)
Definition Qsign (x : Q) : Q :=
  match Qcompare x 0 with Lt => (-1)%Q | Eq => 0%Q | Gt => 1%Q end.

Definition Qsum (l : list Q) : Q := foldr Qplus 0%Q l.
Definition Qprod (l : list Q) : Q := foldr Qmult 1%Q l.

(** [a.min()] and [a.max()] of a non-empty array. *)
Definition Qlist_min (l : list Q) : Q :=
  match l with [] => 0%Q | x :: l' => foldr Qmin x l' end.
Definition Qlist_max (l : list Q) : Q :=
  match l with [] => 0%Q | x :: l' => foldr Qmax x l' end.

(** ** numpy helpers *)

(** [a[idx]] with an integer index array. *)
Definition gather {A} `{Inhabited A} (a : list A) (idx : list nat) : list A :=
  map (λ i, a !!! i) idx.

(** [a[mask]] with a boolean mask of the same length. *)
Fixpoint mask_select {A} (a : list A) (mask : list bool) : list A :=
  match a, mask with
  | x :: a', b :: mask' =>
      if b then x :: mask_select a' mask' else mask_select a' mask'
  | _, _ => []
  end.

(** [a[lo:hi]] *)
Definition slice {A} (lo hi : nat) (a : list A) : list A :=
  take (hi - lo) (drop lo a).

(** [np.arange(lo, hi)] on integers. *)
Definition arangeZ (lo hi : Z) : list Z := seqZ lo (hi - lo).

(** [np.linspace(start, stop, num)]: [arange(num) * step + start], the last
    sample overwritten by [stop]. *)
Definition linspace (start stop : Q) (num : nat) : list Q :=
  let step := ((stop - start) / inject_Z (Z.of_nat (num - 1)))%Q in
  let y := map (λ i : nat, (inject_Z (Z.of_nat i) * step + start)%Q) (seq 0 num) in
  if decide (1 < num) then <[(num - 1)%nat := stop]> y else y.

(** [np.ravel_multi_index(multi, (N,) * len(multi), order="F")] for one
    multi-index; the default mode raises on an index outside [0, N). *)
Fixpoint ravel_multi_index (multi : list Z) (N : Z) : option Z :=
  match multi with
  | [] => Some 0%Z
  | d :: rest =>
      if decide (0 ≤ d < N)%Z
      then r ← ravel_multi_index rest N; Some (d + N * r)%Z
      else None
  end.

(** [np.searchsorted(a, v)] (side left) on a sorted array: the number of
    entries below [v]. *)
Fixpoint searchsorted (a : list Z) (v : Z) : nat :=
  match a with
  | [] => 0
  | x :: a' => if decide (x < v)%Z then S (searchsorted a' v) else 0
  end.

(** [np.diff] *)
Fixpoint diff (a : list Z) : list Z :=
  match a with
  | x :: (y :: _) as a' => (y - x)%Z :: diff a'
  | _ => []
  end.

(** [np.split(ary, indices)]: the pieces between consecutive cut points,
    the first from 0 and the last up to the end. *)
Fixpoint split_from {A} (st : nat) (indices : list nat) (ary : list A)
  : list (list A) :=
  match indices with
  | [] => [slice st (length ary) ary]
  | e :: indices' => slice st e ary :: split_from e indices' ary
  end.
Definition np_split {A} (ary : list A) (indices : list nat) : list (list A) :=
  split_from 0 indices ary.

(** Lexicographic order on rows, and [np.unique(a, axis=0)]: the distinct
    rows in ascending order. *)
Fixpoint row_compare (a b : list Q) : comparison :=
  match a, b with
  | [], [] => Eq
  | [], _ :: _ => Lt
  | _ :: _, [] => Gt
  | x :: a', y :: b' =>
      match Qcompare x y with Eq => row_compare a' b' | c => c end
  end.

Fixpoint unique_insert (r : list Q) (rows : list (list Q)) : list (list Q) :=
  match rows with
  | [] => [r]
  | r' :: rows' =>
      match row_compare r r' with
      | Lt => r :: rows
      | Eq => rows
      | Gt => r' :: unique_insert r rows'
      end
  end.
Definition unique_rows (rows : list (list Q)) : list (list Q) :=
  foldr unique_insert [] rows.

(** [np.meshgrid] applied to the per-axis ranges (default xy indexing), each output flattened,
    stacked and transposed: one row per grid node.  With two or more axes the
    second axis is the outermost loop, then the first, then the others in
    order. *)
Fixpoint cprod (grids : list (list Z)) : list (list Z) :=
  match grids with
  | [] => [[]]
  | g :: grids' => x ← g; r ← cprod grids'; [x :: r]
  end.
Definition meshgrid_rows (grids : list (list Z)) : list (list Z) :=
  match grids with
  | xs :: ys :: rest => y ← ys; x ← xs; r ← cprod rest; [x :: y :: r]
  | _ => cprod grids
  end.

(** ** The numeric environment *)

Class Numerics := {
  (** the resolved [self.metric]: distance from a reference point to one
      point (the library passes [self.dim_] as a third argument) *)
  metric_func : list Q → list Q → Q;
  (** [x ** 0.5] *)
  sqrt : Q → Q;
  (** [x ** (1.0 / dim)] *)
  root : nat → Q → Q;
  (** [np.argsort], whichever algorithm [kind] selects: a permutation of
      the positions that sorts the keys; integer keys are passed as
      rationals *)
  argsort : list Q → list nat;
}.

(** What [np.argsort] promises for one array of keys: a permutation of the
    positions that puts the keys in ascending order. *)
Definition sorts_keys (keys : list Q) (p : list nat) : Prop :=
  p ≡ₚ seq 0 (length keys) ∧ StronglySorted Qle (gather keys p).

(** ** The index *)

Definition epsilon : Q := (1 # 1000000)%Q.

(** [self._digitize(data, bins)] for one value and for an array. *)
Definition bins_first (bins : list Q) : Q := default 0%Q (head bins).
Definition bins_last (bins : list Q) : Q := default 0%Q (last bins).

Definition digitize1 (x : Q) (bins : list Q) : Z :=
  let N := inject_Z (Z.of_nat (length bins) - 1) in
  astype_int (N * (x - bins_first bins) / (bins_last bins - bins_first bins))%Q.

Definition _digitize (data bins : list Q) : list Z :=
  map (λ x, digitize1 x bins) data.

(** The part of the dense regime that finds where each non-empty cell
    starts in the sorted order: [searchsorted] for every cell number, the
    repeated answers masked out, and a trailing end-of-data answer dropped. *)
Definition cell_starts (compact_ind : list Z) (ncells : nat)
    (data_ind : list nat) : option (list nat) :=
  let split_ind :=
    map (searchsorted compact_ind) (map Z.of_nat (seq 0 ncells)) in
  let deleted_cells :=
    map (λ d, bool_decide (d ≠ 0%Z))
        (diff ((-1)%Z :: map Z.of_nat split_ind)) in
  let split_ind := mask_select split_ind deleted_cells in
  split_last ← last split_ind;
  data_last ← last data_ind;
  Some (if decide (data_last < split_last)%nat
        then take (length split_ind - 1) split_ind else split_ind).

Section Build.
Context `{Numerics}.

Variable data : list (list Q).
Variable N_cells : nat.

(** [self.dim_ = self.data.shape[1]] *)
Definition data_dim : nat := length (data !!! 0%nat).

(** [self.data[:, k]] *)
Definition column (k : nat) : list Q := map (λ p : list Q, p !!! k) data.

(** The bin edges of axis [k]. *)
Definition axis_bins (k : nat) : list Q :=
  linspace (Qlist_min (column k) - epsilon) (Qlist_max (column k) + epsilon)
           (N_cells + 1).

Definition build_k_bins : list (list Q) := map axis_bins (seq 0 data_dim).

(** Row [i] of [k_digit]: the cell of point [i], one digit per axis. *)
Definition point_cell (k_bins : list (list Q)) (p : list Q) : list Z :=
  map (λ k, digitize1 (p !!! k) (k_bins !!! k)) (seq 0 data_dim).

Definition build_k_digit (k_bins : list (list Q)) : list (list Z) :=
  map (point_cell k_bins) data.

(** The sparse regime: one dictionary update per point. *)
Definition sparse_insert (grid : gmap (list Z) (list nat))
    (ic : nat * list Z) : gmap (list Z) (list nat) :=
  match grid !! ic.2 with
  | None => <[ic.2 := [ic.1]]> grid
  | Some l => <[ic.2 := l ++ [ic.1]]> grid
  end.

Definition build_grid_sparse (k_digit : list (list Z))
  : gmap (list Z) (list nat) :=
  foldl sparse_insert ∅ (imap (λ i c, (i, c)) k_digit).

(** The dense regime: linearise, sort, binary-search the cell starts, split.
    [ravel_multi_index] raises on a digit outside the grid, and
    [split_ind[-1]] on an empty array. *)
Definition build_grid_dense (k_digit : list (list Z))
  : option (gmap (list Z) (list nat)) :=
  let data_ind := seq 0 (length data) in
  compact_ind ← mapM (λ c, ravel_multi_index c (Z.of_nat N_cells)) k_digit;
  let compact_ind_sort := argsort (map inject_Z compact_ind) in
  let compact_ind := gather compact_ind compact_ind_sort in
  let k_digit := gather k_digit compact_ind_sort in
  split_ind ← cell_starts compact_ind (N_cells ^ data_dim) data_ind;
  let list_ind := np_split (gather data_ind compact_ind_sort) (tail split_ind) in
  let k_digit := gather k_digit split_ind in
  Some (foldl (λ grid ij, <[ij.2 := list_ind !!! ij.1]> grid) ∅
              (imap (λ i j, (i, j)) k_digit)).

(** [self._build_grid()]; its first array, [np.zeros((N_cells + 1, dim))],
    cannot be made with a length that is not addressable. *)
Definition _build_grid : option (gmap (list Z) (list nat) * list (list Q)) :=
  if decide (addressable (N_cells + 1)) then
    let k_bins := build_k_bins in
    let k_digit := build_k_digit k_bins in
    if decide (N_cells ^ data_dim < length data)%nat
    then grid ← build_grid_dense k_digit; Some (grid, k_bins)
    else Some (build_grid_sparse k_digit, k_bins)
  else None.
End Build.

(** ** Periodicity *)

Record PeriodicState := {
  ps_periodic : gmap nat (option (Q * Q));
  ps_flag : bool;
  ps_pd_hi : list (option Q);
  ps_pd_low : list (option Q);
  ps_edges : list (list Q);
  ps_direc : list (list Q);
}.

(** [np.tile(aux, (a, b)).T.ravel()] for a length-3 [aux]: every entry of
    [aux] repeated [b] times in turn, each [a] times in a row. *)
Definition tile_ravel (aux : list Q) (a b : nat) : list Q :=
  j ← seq 0 (3 * b); replicate a (aux !!! (j mod 3)%nat).

(** [self._set_periodicity(periodic)]: the attributes it sets and the flag it
    returns.  The three-entry array of an axis is [low, 0, high], or zeros
    for an axis without periodicity. *)
Definition _set_periodicity (dim : nat) (periodic : gmap nat (option (Q * Q)))
  : PeriodicState :=
  let off := {| ps_periodic := ∅; ps_flag := false; ps_pd_hi := [];
                ps_pd_low := []; ps_edges := []; ps_direc := [] |} in
  if decide (size periodic = 0%nat) then off
  else if existsb (λ kv : nat * option (Q * Q), bool_decide (is_Some kv.2))
                  (map_to_list periodic)
  then
    let aux k := periodic !! k ≫= id in
    let aux3 k :=
      match aux k with
      | Some (lo, hi) => [lo; 0%Q; hi]
      | None => [0%Q; 0%Q; 0%Q]
      end in
    let cols := map (λ k, tile_ravel (aux3 k) (3 ^ (dim - 1 - k)) (3 ^ k))
                    (seq 0 dim) in
    let edges := map (λ t, map (λ col : list Q, col !!! t) cols)
                     (seq 0 (3 ^ dim)) in
    let edges := zip_with (zip_with Qminus) edges (reverse edges) in
    let edges := unique_rows edges in
    let edges := filter (λ r, existsb Qnonzero r) edges in
    {| ps_periodic := list_to_map (map (λ k, (k, aux k)) (seq 0 dim));
       ps_flag := true;
       ps_pd_hi := map (λ k, snd <$> aux k) (seq 0 dim);
       ps_pd_low := map (λ k, fst <$> aux k) (seq 0 dim);
       ps_edges := edges;
       ps_direc := map (map Qsign) edges |}
  else off.

(** ** The built index *)

Record GriSPy := {
  data : list (list Q);
  N_cells : nat;
  periodic : gmap nat (option (Q * Q));
  dim_ : nat;
  grid_ : gmap (list Z) (list nat);
  k_bins_ : list (list Q);
  periodic_flag_ : bool;
  _pd_hi : list (option Q);
  _pd_low : list (option Q);
  _periodic_edges : list (list Q);
  _periodic_direc : list (list Q);
}.

(** [__attrs_post_init__]: dimension, periodicity, then the grid. *)
Definition GriSPy_init `{Numerics} (data : list (list Q)) (N_cells : nat)
    (periodic : gmap nat (option (Q * Q))) : option GriSPy :=
  let dim := data_dim data in
  let ps := _set_periodicity dim periodic in
  gb ← _build_grid data N_cells;
  Some {| data := data; N_cells := N_cells; periodic := ps_periodic ps;
          dim_ := dim; grid_ := gb.1; k_bins_ := gb.2;
          periodic_flag_ := ps_flag ps;
          _pd_hi := ps_pd_hi ps; _pd_low := ps_pd_low ps;
          _periodic_edges := ps_edges ps; _periodic_direc := ps_direc ps |}.

(** [set_periodicity]: the one mutation after construction. *)
Definition set_periodicity (g : GriSPy)
    (periodic : gmap nat (option (Q * Q))) : GriSPy :=
  let ps := _set_periodicity (dim_ g) periodic in
  {| data := data g; N_cells := N_cells g; periodic := ps_periodic ps;
     dim_ := dim_ g; grid_ := grid_ g; k_bins_ := k_bins_ g;
     periodic_flag_ := ps_flag ps;
     _pd_hi := ps_pd_hi ps; _pd_low := ps_pd_low ps;
     _periodic_edges := ps_edges ps; _periodic_direc := ps_direc ps |}.

(** A distance bound is a scalar or one value per centre. *)
Inductive bound := Scalar (r : Q) | PerCentre (rs : list Q).

Definition match_shape {A} (b : bound) (centres : list A) : list Q :=
  match b with
  | Scalar r => replicate (length centres) r
  | PerCentre rs => rs
  end.

(** [a[:m]] with Python's reading of a negative [m]. *)
Definition py_take {A} (m : Z) (a : list A) : list A :=
  if decide (0 ≤ m)%Z then take (Z.to_nat m) a
  else take (length a - Z.to_nat (- m)) a.

Section Queries.
Context `{Numerics}.
Variable g : GriSPy.

(** [self._distance(centre_0, centres)] *)
Definition _distance (centre_0 : list Q) (centres : list (list Q)) : list Q :=
  map (metric_func centre_0) centres.

(** [self._get_neighbor_distance(centres, neighbor_cells)] *)
Definition _get_neighbor_distance (centres : list (list Q))
    (neighbor_cells : list (list (list Z))) : list (list (Q * nat)) :=
  zip_with (λ c cells,
    match cells with
    | [] => []
    | _ =>
        let ind := concat (map (λ cell, default [] (grid_ g !! cell)) cells) in
        zip (_distance c (gather (data g) ind)) ind
    end) centres neighbor_cells.

Definition cell_size : list Q :=
  map (λ bins : list Q, (bins !!! 1%nat - bins !!! 0%nat)%Q) (k_bins_ g).

Definition cell_radii : Q :=
  ((1 # 2) * sqrt (Qsum (map (λ s, s * s) cell_size)))%Q.

Definition out_of_field (c : list Q) (u : Q) : bool :=
  existsb (λ k,
    Qltb (bins_last (k_bins_ g !!! k)) (c !!! k - u)
    || Qltb (c !!! k + u) (bins_first (k_bins_ g !!! k)))
    (seq 0 (dim_ g)).

Definition clamp_cell (x : Z) : Z :=
  let x := if decide (x < 0)%Z then 0%Z else x in
  if decide (Z.of_nat (N_cells g) ≤ x)%Z then (Z.of_nat (N_cells g) - 1)%Z else x.

Definition k_cell_min (c : list Q) (u : Q) (k : nat) : Z :=
  clamp_cell (digitize1 (c !!! k - u) (k_bins_ g !!! k)).
Definition k_cell_max (c : list Q) (u : Q) (k : nat) : Z :=
  clamp_cell (digitize1 (c !!! k + u) (k_bins_ g !!! k)).

(** The centre of a cell in real coordinates. *)
Definition cells_physical (cell : list Z) : list Q :=
  map (λ k, ((k_bins_ g !!! k) !!! Z.to_nat (cell !!! k)
             + (1 # 2) * cell_size !!! k)%Q) (seq 0 (dim_ g)).

(** [self._get_neighbor_cells(centres, distance_upper_bound,
    distance_lower_bound, shell_flag)].  The lower bounds are read only
    under [shell_flag]. *)
Definition _get_neighbor_cells (centres : list (list Q))
    (distance_upper_bound distance_lower_bound : list Q)
    (shell_flag : bool) : list (list (list Z)) :=
  if forallb (λ cu : list Q * Q, out_of_field cu.1 cu.2)
             (zip centres distance_upper_bound)
  then map (λ _, []) centres
  else
    imap (λ i c,
      let u := distance_upper_bound !!! i in
      let k_grids :=
        map (λ k, arangeZ (k_cell_min c u k) (k_cell_max c u k + 1))
            (seq 0 (dim_ g)) in
      let cells := meshgrid_rows k_grids in
      filter (λ cell,
        Qltb (metric_func c (cells_physical cell)) (u + cell_radii)
        && (negb shell_flag
            || Qltb (distance_lower_bound !!! i - cell_radii)
                    (metric_func c (cells_physical cell)))) cells)
      centres.

(** [self._near_boundary(centres, distance_upper_bound)] *)
Definition _near_boundary (centres : list (list Q))
    (distance_upper_bound : list Q) : list bool :=
  zip_with (λ (c : list Q) u,
    existsb (λ k,
      match periodic g !! k ≫= id with
      | None => false
      | Some (lo, hi) =>
          Qltb (Qabs (c !!! k - lo)) u || Qltb (Qabs (c !!! k - hi)) u
      end) (seq 0 (dim_ g))) centres distance_upper_bound.

Definition within (lo hi : option Q) (x : Q) : bool :=
  match lo with None => true | Some l => Qle_bool l x end
  && match hi with None => true | Some h => Qle_bool x h end.

(** [self._mirror(centre, distance_upper_bound)] *)
Definition _mirror (centre : list Q) (distance_upper_bound : Q)
  : list (list Q) :=
  let mirror_centre := map (zip_with Qminus centre) (_periodic_edges g) in
  let mask :=
    zip_with (λ direc mc,
      zip_with (λ d m, (d * distance_upper_bound + m)%Q) direc mc)
      (_periodic_direc g) mirror_centre in
  let mask :=
    map (λ row,
      forallb (λ k, within (_pd_low g !!! k) (_pd_hi g !!! k) (row !!! k))
              (seq 0 (length row))) mask in
  mask_select mirror_centre mask.

(** [self._mirror_universe(centres, distance_upper_bound)] *)
Definition _mirror_universe (centres : list (list Q))
    (distance_upper_bound : list Q) : list (list Q) * list nat :=
  let near_boundary := _near_boundary centres distance_upper_bound in
  if negb (existsb id near_boundary) then ([], [])
  else
    foldl (λ (acc : list (list Q) * list nat) (ic : nat * list Q),
      if negb (near_boundary !!! ic.1) then acc
      else
        let mirror_centre := _mirror ic.2 (distance_upper_bound !!! ic.1) in
        if decide (0 < length mirror_centre)%nat
        then (acc.1 ++ mirror_centre,
              acc.2 ++ replicate (length mirror_centre) ic.1)
        else acc)
      ([], []) (imap (λ i c, (i, c)) centres).

(** The second pass of a query over the mirrored centres, each result
    appended to the bucket of the centre it comes from. *)
Definition merge_terran (centres : list (list Q))
    (distance_upper_bound : list Q)
    (neighbors : list (list (Q * nat))) : list (list (Q * nat)) :=
  if periodic_flag_ g then
    let '(terran_centres, terran_indices) :=
      _mirror_universe centres distance_upper_bound in
    let terran_neighbor_cells :=
      _get_neighbor_cells terran_centres
        (gather distance_upper_bound terran_indices) [] false in
    let terran_neighbors :=
      _get_neighbor_distance terran_centres terran_neighbor_cells in
    foldl (λ nb (it : nat * nat),
             <[it.1 := nb !!! it.1 ++ terran_neighbors !!! it.2]> nb)
          neighbors
          (zip terran_indices (seq 0 (length terran_centres)))
  else neighbors.

Definition sort_by_distance (sorted : bool) (l : list (Q * nat))
  : list (Q * nat) :=
  if sorted then gather l (argsort (map fst l)) else l.

(** [self.bubble_neighbors(centres, distance_upper_bound, sorted, kind)] *)
Definition bubble_neighbors (centres : list (list Q))
    (distance_upper_bound : bound) (sorted : bool)
  : list (list (Q * nat)) :=
  let distance_upper_bound := match_shape distance_upper_bound centres in
  let neighbor_cells :=
    _get_neighbor_cells centres distance_upper_bound [] false in
  let neighbors := _get_neighbor_distance centres neighbor_cells in
  let neighbors := merge_terran centres distance_upper_bound neighbors in
  imap (λ i nb,
    let u := distance_upper_bound !!! i in
    sort_by_distance sorted
      (filter (λ di : Q * nat, Qle_bool di.1 u) nb))
    neighbors.

(** [self.shell_neighbors(centres, distance_lower_bound,
    distance_upper_bound, sorted, kind)] *)
Definition shell_neighbors (centres : list (list Q))
    (distance_lower_bound distance_upper_bound : bound) (sorted : bool)
  : list (list (Q * nat)) :=
  let distance_lower_bound := match_shape distance_lower_bound centres in
  let distance_upper_bound := match_shape distance_upper_bound centres in
  let neighbor_cells :=
    _get_neighbor_cells centres distance_upper_bound
                        distance_lower_bound true in
  let neighbors := _get_neighbor_distance centres neighbor_cells in
  let neighbors := merge_terran centres distance_upper_bound neighbors in
  imap (λ i nb,
    let u := distance_upper_bound !!! i in
    let l := distance_lower_bound !!! i in
    sort_by_distance sorted
      (filter (λ di : Q * nat, Qltb l di.1)
         (filter (λ di : Q * nat, Qle_bool di.1 u) nb)))
    neighbors.

(** *** nearest_neighbors: the expanding-shell search *)

(** The arrays the loop of [nearest_neighbors] updates. *)
Record nn_state := {
  n_found : list bool;
  lower_distance_tmp : list Q;
  upper_distance_tmp : list Q;
  neighbors : list (list (Q * nat));
}.

(** The positions still searched: [centres_lookup_ind[~n_found]]. *)
Definition not_found (found : list bool) : list nat :=
  mask_select (seq 0 (length found)) (map negb found).

(** One pass of the body of the [for] loop, for the pair [(i_tmp, i)]. *)
Definition nn_visit (n : nat) (tmp : list (list (Q * nat)))
    (st : nn_state) (ii : nat * nat) : nn_state :=
  let '(i_tmp, i) := ii in
  if (n_found st !!! i : bool) then st
  else
    let shell := tmp !!! i_tmp in
    let have := length (neighbors st !!! i) in
    let '(n_more, found, lower, upper) :=
      if decide (n ≤ length shell + have)%nat
      then ((Z.of_nat n - Z.of_nat have)%Z,
            <[i := true]> (n_found st),
            lower_distance_tmp st, upper_distance_tmp st)
      else
        let lower :=
          <[i_tmp := upper_distance_tmp st !!! i_tmp]> (lower_distance_tmp st) in
        let upper :=
          <[i_tmp := (upper_distance_tmp st !!! i_tmp
                      + Qlist_min cell_size)%Q]> (upper_distance_tmp st) in
        (Z.of_nat (length shell), n_found st, lower, upper) in
    let sorted_ind := py_take n_more (argsort (map fst shell)) in
    {| n_found := found;
       lower_distance_tmp := lower;
       upper_distance_tmp := upper;
       neighbors :=
         <[i := neighbors st !!! i ++ gather shell sorted_ind]> (neighbors st) |}.

(** One round of the [while] loop. *)
Definition nn_round (centres : list (list Q)) (n : nat) (st : nn_state)
  : nn_state :=
  let sel := not_found (n_found st) in
  let tmp :=
    shell_neighbors (gather centres sel)
      (PerCentre (gather (lower_distance_tmp st) sel))
      (PerCentre (gather (upper_distance_tmp st) sel)) false in
  foldl (nn_visit n tmp) st (imap (λ i_tmp i, (i_tmp, i)) sel).

(** The state before the first round: the home cell gives the density and
    the first radius ([mean_distance_factor] is 1.0). *)
Definition nn_init (centres : list (list Q)) (n : nat) : nn_state :=
  let N_centres := length centres in
  let upper0 := replicate N_centres 0%Q in
  let centre_cell := _get_neighbor_cells centres upper0 [] false in
  let home := _get_neighbor_distance centres centre_cell in
  let cell_volume := Qprod cell_size in
  let neighbors_number :=
    map (λ l : list (Q * nat),
           if decide (length l = 0)%nat then 1%nat else length l) home in
  let mean_distance :=
    map (λ m : nat,
      ((1 # 2) * root (dim_ g)
         (inject_Z (Z.of_nat n)
          / (inject_Z (Z.of_nat m) / cell_volume)))%Q) neighbors_number in
  {| n_found := replicate N_centres false;
     lower_distance_tmp := replicate N_centres 0%Q;
     upper_distance_tmp := mean_distance;
     neighbors := replicate N_centres [] |}.

(** The [while] loop, bounded by [fuel] rounds. *)
Fixpoint nn_loop (fuel : nat) (centres : list (list Q)) (n : nat)
    (st : nn_state) : option (list (list (Q * nat))) :=
  if forallb id (n_found st) then Some (neighbors st)
  else
    match fuel with
    | O => None
    | S fuel' => nn_loop fuel' centres n (nn_round centres n st)
    end.

(** [self.nearest_neighbors(centres, n, kind)]; [None] when the loop is
    still running after [fuel] rounds. *)
Definition nearest_neighbors (fuel : nat) (centres : list (list Q)) (n : nat)
  : option (list (list (Q * nat))) :=
  nn_loop fuel centres n (nn_init centres n).
End Queries.

(** ** A concrete numeric environment on one axis *)

(** Modelled from the spec: the Euclidean distance of the external
    [distances] module, on a single axis, where the root of the squared
    difference is the absolute difference. *)
Definition euclid1 (c p : list Q) : Q := Qabs (c !!! 0%nat - p !!! 0%nat).

(** A rational square root, exact on squares of rationals. *)
Definition Qsqrt (x : Q) : Q :=
  let r := Qred x in
  (inject_Z (Z.sqrt (Qnum r)) / inject_Z (Z.sqrt (Zpos (Qden r))))%Q.

Definition root1 (d : nat) (x : Q) : Q :=
  match d with 1%nat => x | _ => Qsqrt x end.

(** Insertion sort on positions, stable. *)
Fixpoint argsort_insert (keys : list Q) (i : nat) (p : list nat) : list nat :=
  match p with
  | [] => [i]
  | j :: p' =>
      if Qle_bool (keys !!! i) (keys !!! j) then i :: p
      else j :: argsort_insert keys i p'
  end.
Definition stable_argsort (keys : list Q) : list nat :=
  foldr (argsort_insert keys) [] (seq 0 (length keys)).

Definition axis1 : Numerics :=
  {| metric_func := euclid1; sqrt := Qsqrt; root := root1;
     argsort := stable_argsort |}.

#[global] Instance Qle_dec : RelDecision Qle.
Proof.
  intros x y. destruct (Qlt_le_dec y x) as [Hlt|Hle].
  - right. by apply Qlt_not_le.
  - by left.
Defined.

(** The index built for concrete data, for examples: the result of the
    constructor, which succeeds on them. *)
Definition blank_index : GriSPy :=
  {| data := []; N_cells := 0; periodic := ∅; dim_ := 0; grid_ := ∅;
     k_bins_ := []; periodic_flag_ := false; _pd_hi := []; _pd_low := [];
     _periodic_edges := []; _periodic_direc := [] |}.

Definition built (data : list (list Q)) (N_cells : nat)
    (periodic : gmap nat (option (Q * Q))) : GriSPy :=
  default blank_index (GriSPy_init (H := axis1) data N_cells periodic).

(** Three points on a line, more points than cells when [N_cells = 2]. *)
Definition line3 : list (list Q) := [[1%Q]; [0%Q]; [(1 # 2)%Q]].

(** The wrap-around example: axis 0 periodic on 0..10, a point at 9.9 (and
    two more), a centre at 0.1. *)
Definition wrap_points : list (list Q) :=
  [[(99 # 10)%Q]; [5%Q]; [(3 # 10)%Q]].
Definition wrap_domain : gmap nat (option (Q * Q)) :=
  {[ 0%nat := Some (0%Q, 10%Q) ]}.
Definition wrap_centres : list (list Q) := [[(1 # 10)%Q]].

(** Two centres for [line3], the second far outside the data. *)
Definition line3_centres : list (list Q) := [[(1 # 4)%Q]; [3%Q]].

(** Two points, one cell, and two batches of two centres: the first centre
    midway between the points, the second far to the left of both. *)
Definition far_points : list (list Q) := [[0%Q]; [10%Q]].
Definition far_index : GriSPy := built far_points 1 ∅.
Definition near_batch : list (list Q) := [[5%Q]; [(-20)%Q]].
Definition far_batch : list (list Q) := [[5%Q]; [(-30)%Q]].

(** The state of the search over [far_batch] for two neighbours from its
    third round on: the first centre is done, the second is still searched
    with the bounds of its second round; only the bounds stored for the
    first centre change. *)
Definition stuck_lower : Q :=
  upper_distance_tmp (nn_init (H := axis1) far_index far_batch 2) !!! 1%nat.
Definition stuck_upper : Q :=
  (stuck_lower + Qlist_min (cell_size far_index))%Q.
Definition stuck_state (l0 u0 : Q) : nn_state :=
  {| n_found := [true; false];
     lower_distance_tmp := [l0; stuck_lower];
     upper_distance_tmp := [u0; stuck_upper];
     neighbors :=
       [neighbors (nn_round (H := axis1) far_index far_batch 2
                     (nn_init (H := axis1) far_index far_batch 2)) !!! 0%nat;
        []] |}.

(** A single point near the low edge of the same periodic domain, and a
    centre near the high edge. *)
Definition low_point : list (list Q) := [[(2 # 10)%Q]].
Definition high_centres : list (list Q) := [[(99 # 10)%Q]].

(** ** Specification-side definitions *)

(** The bin index as the specification words it: the floor of the scaled
    offset. *)
Definition scaled_offset (x : Q) (bins : list Q) : Q :=
  (inject_Z (Z.of_nat (length bins) - 1) * (x - bins_first bins)
   / (bins_last bins - bins_first bins))%Q.

Definition digitize_floor (x : Q) (bins : list Q) : Z :=
  Qfloor (scaled_offset x bins).

(** What the external validation leaves for the constructor: at least one
    point, at least one axis, every point with a coordinate on every axis. *)
Definition valid_data (data : list (list Q)) : Prop :=
  data ≠ [] ∧ (0 < data_dim data)%nat
  ∧ Forall (λ p : list Q, length p = data_dim data) data.

(** The digits of all points on the grid built for them. *)
Definition grid_digits (data : list (list Q)) (N_cells : nat) : list (list Z) :=
  build_k_digit data (build_k_bins data N_cells).

(** [np.argsort] sorts the linear cell numbers of this data set. *)
Definition argsort_sorts_cells `{Numerics} (data : list (list Q))
    (N_cells : nat) : Prop :=
  ∀ compact,
    mapM (λ c, ravel_multi_index c (Z.of_nat N_cells))
         (grid_digits data N_cells) = Some compact →
    sorts_keys (inject_Z <$> compact) (argsort (inject_Z <$> compact)).

(** What the pruning of cells needs from the distance function on the grid
    of an index: it is at least the offset along every axis, it obeys the
    triangle inequality, it is symmetric, and a point within half a cell
    side of a cell centre on every axis is within the cell radius of it.
    The Euclidean distance over the reals has all four. *)
Definition metric_fits `{Numerics} (g : GriSPy) : Prop :=
  (∀ a b k, (k < dim_ g)%nat →
     (Qabs (a !!! k - b !!! k) <= metric_func a b)%Q)
  ∧ (∀ a b c, (metric_func a c <= metric_func a b + metric_func b c)%Q)
  ∧ (∀ a b, (metric_func a b == metric_func b a)%Q)
  ∧ (∀ p cc,
       (∀ k, (k < dim_ g)%nat →
          (Qabs (p !!! k - cc !!! k) <= (1 # 2) * cell_size g !!! k)%Q) →
       (metric_func p cc <= cell_radii g)%Q).

(** The upper end of the search interval of a centre, counted in cells
    from the first edge, stays below [2^63] on every axis: its digit is
    then not lost in the conversion to a 64-bit integer.  The lower end
    needs no such bound, since a digit turned into the most negative
    integer is raised to cell 0, which only widens the box of cells. *)
Definition reach_fits (g : GriSPy) (c : list Q) (u : Q) : Prop :=
  ∀ k, (k < dim_ g)%nat →
    (scaled_offset (c !!! k + u) (k_bins_ g !!! k)
     < inject_Z (int64_max + 1))%Q.

(** The test of the pruning on the cell of a point [p]: the centre of the
    cell is closer to the query centre than the upper bound plus the cell
    radius. *)
Definition cell_in_reach `{Numerics} (g : GriSPy) (c : list Q) (u : Q)
    (p : list Q) : Prop :=
  (metric_func c (cells_physical g (point_cell (data g) (k_bins_ g) p))
   < u + cell_radii g)%Q.

(** The points of a cell, and what it means for a dictionary to hold the
    grid of an array of cells: every non-empty cell is a key, bound to its
    points in some order, and no other key is present. *)
Definition cell_members (k_digit : list (list Z)) (cell : list Z) : list nat :=
  filter (λ j, k_digit !! j = Some cell) (seq 0 (length k_digit)).

Definition grid_holds (k_digit : list (list Z))
    (grid : gmap (list Z) (list nat)) : Prop :=
  ∀ cell,
    match grid !! cell with
    | Some l => l ≠ [] ∧ l ≡ₚ cell_members k_digit cell
    | None => cell_members k_digit cell = []
    end.

(** Two dictionaries with the same keys that bind each key to the same
    points, up to their order. *)
Definition same_cell_sets (g1 g2 : gmap (list Z) (list nat)) : Prop :=
  ∀ cell, option_Forall2 (≡ₚ) (g1 !! cell) (g2 !! cell).

(** The queries as the specification words them, each for a batch of
    centres with one bound for all. *)



(** A shell from zero is the bubble. *)
Definition shell_from_zero_is_bubble `{Numerics} (g : GriSPy)
    (centres : list (list Q)) (upper : Q) : Prop :=
  shell_neighbors g centres (Scalar 0%Q) (Scalar upper) false
  = bubble_neighbors g centres (Scalar upper) false.

(** A centre out of the field has no neighbours. *)
Definition out_of_field_is_empty `{Numerics} (g : GriSPy)
    (centres : list (list Q)) (r : Q) : Prop :=
  ∀ i c, centres !! i = Some c → out_of_field g c r = true →
    bubble_neighbors g centres (Scalar r) false !! i = Some [].

(** A position of a sorted array where a new value begins. *)
Definition run_start (s : list Z) (x : nat) : Prop :=
  (x < length s)%nat ∧
  (x = 0%nat ∨ ∃ a b, s !! (x - 1)%nat = Some a ∧ s !! x = Some b ∧ (a < b)%Z).

(** ** Periods and digits *)

(** The period of axis [k]: the width of its periodic range, 0 for an
    axis without periodicity. *)
Definition axis_period (periodic : gmap nat (option (Q * Q))) (k : nat) : Q :=
  match periodic !! k ≫= id with
  | Some (lo, hi) => (hi - lo)%Q
  | None => 0%Q
  end.

(** The entry of a row of [_periodic_edges] on axis [k], for the base-3
    digit [d] of the row on that axis: the three-entry array of the axis
    minus its own reverse. *)
Definition edge_entry (periodic : gmap nat (option (Q * Q))) (k d : nat) : Q :=
  let aux3 :=
    match periodic !! k ≫= id with
    | Some (lo, hi) => [lo; 0%Q; hi]
    | None => [0%Q; 0%Q; 0%Q]
    end in
  (aux3 !!! d - aux3 !!! (2 - d)%nat)%Q.

(** The number with the given base-3 digits, most significant first. *)
Definition from_digits (ds : list nat) : nat :=
  foldl (λ acc d, 3 * acc + d)%nat 0%nat ds.

(** ** Invariants of the expanding-shell search *)

(** The counting invariant of the search over [m] centres for [n]
    neighbours: no centre holds more than [n] pairs, a centre marked as
    found holds exactly [n]. *)
Definition nn_counted (m n : nat) (st : nn_state) : Prop :=
  length (n_found st) = m ∧ length (neighbors st) = m
  ∧ ∀ i, (i < m)%nat →
      (length (neighbors st !!! i) ≤ n)%nat
      ∧ (n_found st !!! i = true → length (neighbors st !!! i) = n).

(** The invariant of the search for a single centre [c]: the pairs found
    so far are data points with their distances, in ascending order of
    distance and without a repeated point, and while the search goes on
    none of them lies beyond the lower bound of the next shell. *)
Definition nn_single_ok `{Numerics} (points : list (list Q)) (c : list Q)
    (st : nn_state) : Prop :=
  length (lower_distance_tmp st) = 1%nat
  ∧ length (upper_distance_tmp st) = 1%nat
  ∧ StronglySorted Qle (neighbors st !!! 0%nat).*1
  ∧ NoDup (neighbors st !!! 0%nat).*2
  ∧ (∀ d j, (d, j) ∈ neighbors st !!! 0%nat →
       (j < length points)%nat ∧ d = metric_func c (points !!! j))
  ∧ (n_found st !!! 0%nat = false →
       (∀ d j, (d, j) ∈ neighbors st !!! 0%nat →
          (d <= lower_distance_tmp st !!! 0%nat)%Q)
       ∧ (neighbors st !!! 0%nat = []
          ∨ (lower_distance_tmp st !!! 0%nat
             <= upper_distance_tmp st !!! 0%nat)%Q)).

(** * Properties *)

(** ** Conversion to integers *)

Lemma trunc_nonneg (x : Q) : (0 <= x)%Q → trunc x = Qfloor x.
Proof.
  destruct x as [n d]. unfold trunc, Qfloor, Qle. simpl.
  intros Hn. apply Z.quot_div_nonneg; lia.
Qed.

Lemma trunc_nonpos (x : Q) : (x <= 0)%Q → trunc x = Qceiling x.
Proof.
  destruct x as [n d]. unfold trunc, Qceiling, Qfloor, Qle. simpl.
  intros Hn. rewrite <- (Z.opp_involutive n) at 1.
  rewrite Z.quot_opp_l by lia. f_equal.
  apply Z.quot_div_nonneg; lia.
Qed.

Lemma trunc_mono (x y : Q) : (x <= y)%Q → (trunc x ≤ trunc y)%Z.
Proof.
  intros Hxy. destruct (Qlt_le_dec x 0) as [Hx|Hx], (Qlt_le_dec y 0) as [Hy|Hy].
  - rewrite !trunc_nonpos by lra. by apply Qceiling_resp_le.
  - rewrite trunc_nonpos, trunc_nonneg by lra.
    etrans; [apply (Qceiling_resp_le x 0); lra|].
    etrans; [|apply (Qfloor_resp_le 0 y); lra]. done.
  - lra.
  - rewrite !trunc_nonneg by lra. by apply Qfloor_resp_le.
Qed.

(** A number below [2^63] does not overflow on the positive side. *)
Lemma trunc_below (x : Q) :
  (x < inject_Z (int64_max + 1))%Q → (trunc x ≤ int64_max)%Z.
Proof.
  intros Hx. destruct (Qlt_le_dec x 0) as [Hneg|Hpos].
  - etrans; [apply (trunc_mono x 0); lra|]. by vm_compute.
  - rewrite trunc_nonneg by done.
    assert (Qfloor x < int64_max + 1)%Z; [|lia].
    rewrite Zlt_Qlt. eapply Qle_lt_trans; [apply Qfloor_le|done].
Qed.

Lemma int64_cast_fits (t : Z) :
  (int64_min ≤ t ≤ int64_max)%Z → int64_cast t = t.
Proof. intros Ht. unfold int64_cast. by rewrite decide_True. Qed.

Lemma int64_cast_lower (t : Z) : (int64_min ≤ int64_cast t)%Z.
Proof. unfold int64_cast. case_decide; lia. Qed.

Lemma int64_cast_mono (s t : Z) :
  (s ≤ t)%Z → (t ≤ int64_max)%Z → (int64_cast s ≤ int64_cast t)%Z.
Proof.
  intros Hst Ht. unfold int64_cast. repeat case_decide; lia.
Qed.

Lemma astype_int_nonneg (x : Q) :
  (0 <= x)%Q → (x < inject_Z (int64_max + 1))%Q → astype_int x = Qfloor x.
Proof.
  intros Hx Hb. unfold astype_int. pose proof (trunc_below x Hb) as Hu.
  pose proof (trunc_mono 0 x Hx) as Hl. change (trunc 0) with 0%Z in Hl.
  rewrite int64_cast_fits; [by apply trunc_nonneg|].
  split; [|done]. etrans; [|exact Hl]. by vm_compute.
Qed.

Lemma astype_int_mono (x y : Q) :
  (x <= y)%Q → (y < inject_Z (int64_max + 1))%Q →
  (astype_int x ≤ astype_int y)%Z.
Proof.
  intros Hxy Hy. unfold astype_int.
  apply int64_cast_mono; [by apply trunc_mono|by apply trunc_below].
Qed.

Lemma bins_spread (bins : list Q) :
  (bins_first bins < bins_last bins)%Q → (2 ≤ length bins)%nat.
Proof.
  destruct bins as [|a [|b bins]]; unfold bins_first, bins_last; simpl;
    [lra|lra|lia].
Qed.

Lemma scaled_offset_sign (x : Q) (bins : list Q) :
  (bins_first bins < bins_last bins)%Q →
  ((bins_first bins <= x)%Q → (0 <= scaled_offset x bins)%Q) ∧
  ((x < bins_first bins)%Q → (scaled_offset x bins < 0)%Q).
Proof.
  intros Hb. pose proof (bins_spread _ Hb) as Hlen.
  unfold scaled_offset.
  set (N := inject_Z (Z.of_nat (length bins) - 1)).
  assert (HN : (1 <= N)%Q).
  { unfold N. change 1%Q with (inject_Z 1). rewrite <- Zle_Qle. lia. }
  set (w := (bins_last bins - bins_first bins)%Q).
  assert (Hw : (0 < w)%Q) by (unfold w; lra).
  split; intros Hx.
  - apply Qle_shift_div_l; [done|]. nra.
  - apply Qlt_shift_div_r; [done|]. nra.
Qed.

(** C9, as amended: for edges with [edges[0] < edges[-1]] the bin index is
    the scaled offset [N * (value - edges[0]) / (edges[-1] - edges[0])]
    with its fraction dropped (moved toward zero), without clamping to the
    grid: the floor for a value at or above [edges[0]], the ceiling for a
    value below it; that integer is then cast to 64 bits, which keeps it
    when it is in the 64-bit range and gives the most negative integer
    when it is not. *)
Theorem digitize_truncates (values bins : list Q) :
  (bins_first bins < bins_last bins)%Q →
  _digitize values bins =
    map (λ x, int64_cast (if Qle_bool (bins_first bins) x
                          then Qfloor (scaled_offset x bins)
                          else Qceiling (scaled_offset x bins))) values.
Proof.
  intros Hb. unfold _digitize. apply list_fmap_ext. intros _ x _.
  unfold digitize1. fold (scaled_offset x bins). unfold astype_int. f_equal.
  destruct (scaled_offset_sign x bins Hb) as [Hge Hlt].
  destruct (Qle_bool (bins_first bins) x) eqn:E.
  - apply Qle_bool_iff in E. apply trunc_nonneg; auto.
  - assert (x < bins_first bins)%Q.
    { apply Qnot_le_lt. intros Hle. apply Qle_bool_iff in Hle. congruence. }
    apply trunc_nonpos. apply Qlt_le_weak; auto.
Qed.

Lemma digitize_truncates_witness :
  (bins_first [0%Q; 1%Q; 2%Q] < bins_last [0%Q; 1%Q; 2%Q])%Q
  ∧ _digitize [(-1 # 4)%Q; (9 # 4)%Q; inject_Z (10 ^ 30)] [0%Q; 1%Q; 2%Q]
    = map (λ x, int64_cast
                  (if Qle_bool (bins_first [0%Q; 1%Q; 2%Q]) x
                   then Qfloor (scaled_offset x [0%Q; 1%Q; 2%Q])
                   else Qceiling (scaled_offset x [0%Q; 1%Q; 2%Q])))
          [(-1 # 4)%Q; (9 # 4)%Q; inject_Z (10 ^ 30)].
Proof.
  split; [reflexivity|].
  apply (digitize_truncates [(-1 # 4)%Q; (9 # 4)%Q; inject_Z (10 ^ 30)]
                            [0%Q; 1%Q; 2%Q]).
  reflexivity.
Defined.

(** The three cases at work on the edges [0, 1, 2]: -1/4 goes to bin 0
    (not to -1), 9/4 to bin 2 (beyond the last cell, not clamped), and
    [10^30], whose scaled offset is out of the 64-bit range, to the most
    negative integer. *)
Example digitize_three_cases :
  _digitize [(-1 # 4)%Q; (9 # 4)%Q; inject_Z (10 ^ 30)] [0%Q; 1%Q; 2%Q]
  = [0%Z; 2%Z; int64_min].
Proof. vm_compute. reflexivity. Qed.

(** C9, as stated, fails below the first edge: for edges [0, 1, 2] the
    value -1/4 has scaled offset -1/4, whose floor is -1, and is assigned
    bin 0. *)
Lemma digitize_floor_counterexample :
  _digitize [(-1 # 4)%Q] [0%Q; 1%Q; 2%Q]
  ≠ map (λ x, digitize_floor x [0%Q; 1%Q; 2%Q]) [(-1 # 4)%Q].
Proof. vm_compute. discriminate. Qed.

(** ** Arrays: gathering, masks, sorted search, splitting *)

Section ArrayFacts.
Context {A : Type} `{!Inhabited A}.
Implicit Types (a : list A) (p : list nat).

Lemma gather_length a p : length (gather a p) = length p.
Proof. unfold gather. by rewrite length_fmap. Qed.

Lemma gather_lookup a p i :
  gather a p !! i = (λ j, a !!! j) <$> p !! i.
Proof. unfold gather. by rewrite list_lookup_fmap. Qed.

Lemma gather_lookup_Some a p i j x :
  p !! i = Some j → a !! j = Some x → gather a p !! i = Some x.
Proof.
  intros Hp Ha. rewrite gather_lookup, Hp. simpl.
  by rewrite (list_lookup_total_correct _ _ _ Ha).
Qed.

Lemma gather_app a p q : gather a (p ++ q) = gather a p ++ gather a q.
Proof. unfold gather. by rewrite fmap_app. Qed.

Lemma mask_select_elem a (m : list bool) x :
  x ∈ mask_select a m ↔ ∃ i, a !! i = Some x ∧ m !! i = Some true.
Proof.
  revert m. induction a as [|y a IH]; intros [|b m]; simpl.
  - split; [by intros ?%elem_of_nil|]. by intros (i & ? & _).
  - split; [by intros ?%elem_of_nil|]. by intros (i & ? & _).
  - split; [by intros ?%elem_of_nil|]. by intros (i & _ & ?).
  - destruct b.
    + rewrite elem_of_cons, IH. split.
      * intros [->|(i & ? & ?)]; [by exists 0%nat|by exists (S i)].
      * intros ([|i] & Hi & Hm); simpl in *; [left; congruence|right; eauto].
    + rewrite IH. split.
      * intros (i & ? & ?). by exists (S i).
      * intros ([|i] & Hi & Hm); simpl in *; [congruence|eauto].
Qed.

Lemma slice_lookup_Some (lo hi : nat) a i x :
  slice lo hi a !! i = Some x ↔ a !! (lo + i)%nat = Some x ∧ (lo + i < hi)%nat.
Proof.
  unfold slice. rewrite lookup_take_Some, lookup_drop. split.
  - intros [? ?]. split; [done|lia].
  - intros [? ?]. split; [done|lia].
Qed.

Lemma slice_elem (lo hi : nat) a x :
  x ∈ slice lo hi a ↔ ∃ t, (lo ≤ t < hi)%nat ∧ a !! t = Some x.
Proof.
  rewrite list_elem_of_lookup. split.
  - intros (i & (? & ?)%slice_lookup_Some). exists (lo + i)%nat. split; [lia|done].
  - intros (t & ? & ?). exists (t - lo)%nat. apply slice_lookup_Some.
    replace (lo + (t - lo))%nat with t by lia. split; [done|lia].
Qed.

Lemma slice_nonempty (lo hi : nat) a :
  (lo < hi)%nat → (lo < length a)%nat → slice lo hi a ≠ [].
Proof.
  intros ? Hlen Hnil.
  destruct (lookup_lt_is_Some_2 a lo Hlen) as [x Hx].
  assert (x ∈ slice lo hi a) as Hin by (apply slice_elem; exists lo; split; [lia|done]).
  rewrite Hnil in Hin. by apply elem_of_nil in Hin.
Qed.

Lemma split_from_length (st : nat) (idx : list nat) a :
  length (split_from st idx a) = S (length idx).
Proof. revert st. induction idx; intros; simpl; [done|by rewrite IHidx]. Qed.

Lemma split_from_lookup (st : nat) (idx : list nat) a j :
  (j ≤ length idx)%nat →
  split_from st idx a !! j =
    Some (slice ((st :: idx) !!! j) ((idx ++ [length a]) !!! j) a).
Proof.
  revert st j. induction idx as [|e idx IH]; intros st [|j] Hj; simpl in *;
    try done; try lia.
  rewrite IH by lia. done.
Qed.
End ArrayFacts.

Lemma filter_all {A} (P : A → Prop) `{!∀ x, Decision (P x)} (l : list A) :
  Forall P l → filter P l = l.
Proof.
  induction 1 as [|x l Hx Hl IH]; [done|].
  by rewrite filter_cons_True, IH.
Qed.

Lemma filter_none {A} (P : A → Prop) `{!∀ x, Decision (P x)} (l : list A) :
  Forall (λ x, ¬ P x) l → filter P l = [].
Proof.
  induction 1 as [|x l Hx Hl IH]; [done|].
  by rewrite filter_cons_False, IH.
Qed.

Lemma gather_seq (n : nat) (p : list nat) :
  Forall (λ i, i < n)%nat p → gather (seq 0 n) p = p.
Proof.
  intros Hp. unfold gather. rewrite <- (list_fmap_id p) at 2.
  apply Forall_fmap_ext_1. eapply Forall_impl; [exact Hp|].
  intros i Hi. simpl. by rewrite lookup_total_seq_lt.
Qed.

Lemma gather_fmap {A B} `{!Inhabited A, !Inhabited B} (f : A → B)
    (a : list A) (p : list nat) :
  Forall (λ i, i < length a)%nat p → gather (f <$> a) p = f <$> gather a p.
Proof.
  intros Hp. unfold gather. rewrite <- list_fmap_compose.
  apply Forall_fmap_ext_1. eapply Forall_impl; [exact Hp|].
  intros i Hi. simpl. by rewrite (list_lookup_total_fmap f).
Qed.

Lemma diff_length (l : list Z) : length (diff l) = (length l - 1)%nat.
Proof.
  induction l as [|x [|y l] IH]; simpl in *; try done. rewrite IH. lia.
Qed.

Lemma diff_lookup (l : list Z) i x y :
  l !! i = Some x → l !! S i = Some y → diff l !! i = Some (y - x)%Z.
Proof.
  revert i. induction l as [|a [|b l] IH]; intros [|i] Hx Hy; simpl in *;
    try done.
  - congruence.
  - by apply IH.
Qed.

Lemma StronglySorted_lookup {A} (R : relation A) (l : list A) i j x y :
  StronglySorted R l → (i < j)%nat → l !! i = Some x → l !! j = Some y → R x y.
Proof.
  intros Hs. revert i j. induction Hs as [|a l Hs IH Hall]; intros i j Hij Hx Hy.
  - done.
  - destruct i as [|i], j as [|j]; simpl in *; try lia.
    + injection Hx as ->. rewrite Forall_forall in Hall. apply Hall.
      by eapply list_elem_of_lookup_2.
    + eapply IH; [|done..]. lia.
Qed.

Lemma StronglySorted_lookup_le {A} (R : relation A) `{!Reflexive R}
    (l : list A) i j x y :
  StronglySorted R l → (i ≤ j)%nat → l !! i = Some x → l !! j = Some y → R x y.
Proof.
  intros Hs Hij Hx Hy. destruct (decide (i = j)) as [->|].
  - assert (x = y) as -> by congruence. done.
  - eapply StronglySorted_lookup; [done| |done..]. lia.
Qed.

Lemma increasing_lookup_le (P : list nat) i j x y :
  StronglySorted lt P → (i ≤ j)%nat → P !! i = Some x → P !! j = Some y →
  (x ≤ y)%nat.
Proof.
  intros HP Hij Hx Hy. destruct (decide (i = j)) as [->|].
  - assert (x = y) by congruence. lia.
  - pose proof (StronglySorted_lookup lt P i j x y HP ltac:(lia) Hx Hy). lia.
Qed.

(** *** searchsorted *)

Lemma searchsorted_le (a : list Z) v : (searchsorted a v ≤ length a)%nat.
Proof. induction a; simpl; [lia|]. case_decide; simpl; lia. Qed.

Lemma searchsorted_below (a : list Z) v i x :
  (i < searchsorted a v)%nat → a !! i = Some x → (x < v)%Z.
Proof.
  revert i. induction a as [|y a IH]; intros i Hi Hx; simpl in *; [lia|].
  case_decide; [|lia]. destruct i as [|i]; simpl in *; [congruence|].
  apply (IH i); [lia|done].
Qed.

Lemma searchsorted_at (a : list Z) v x :
  a !! searchsorted a v = Some x → (v ≤ x)%Z.
Proof.
  induction a as [|y a IH]; simpl; [done|].
  case_decide; simpl; [done|]. intros [= ->]. lia.
Qed.

Lemma searchsorted_above (a : list Z) v i x :
  StronglySorted Z.le a → a !! i = Some x → (x < v)%Z →
  (i < searchsorted a v)%nat.
Proof.
  intros Hs. revert i. induction Hs as [|y a Hs IH Hall]; intros i Hx Hv; [done|].
  simpl. destruct i as [|i]; simpl in *.
  - injection Hx as ->. rewrite decide_True by done. lia.
  - rewrite Forall_forall in Hall.
    assert (y ≤ x)%Z.
    { apply Hall. by eapply list_elem_of_lookup_2. }
    rewrite decide_True by lia. apply (IH i) in Hx; [lia|done].
Qed.

Lemma searchsorted_mono (a : list Z) v w :
  (v ≤ w)%Z → (searchsorted a v ≤ searchsorted a w)%nat.
Proof.
  intros Hvw. induction a as [|y a IH]; simpl; [done|].
  repeat case_decide; simpl; lia.
Qed.

(** *** The cell starts of the dense regime *)

Lemma diff_cons (a b : Z) (l : list Z) :
  diff (a :: b :: l) = (b - a)%Z :: diff (b :: l).
Proof. done. Qed.

Lemma kept_changes (l : list nat) (a : Z) :
  StronglySorted le l → Forall (λ x, a ≤ Z.of_nat x)%Z l →
  StronglySorted lt
    (mask_select l
       ((λ d, bool_decide (d ≠ 0%Z)) <$> diff (a :: (Z.of_nat <$> l))))
  ∧ Forall (λ x, a < Z.of_nat x)%Z
      (mask_select l
         ((λ d, bool_decide (d ≠ 0%Z)) <$> diff (a :: (Z.of_nat <$> l)))).
Proof.
  intros Hs. revert a. induction Hs as [|x l Hs IH Hall]; intros a Ha.
  - split; constructor.
  - apply Forall_cons in Ha as [Hax Ha].
    destruct (IH (Z.of_nat x)) as [IH1 IH2].
    { eapply Forall_impl; [exact Hall|]. simpl. lia. }
    rewrite fmap_cons, diff_cons, fmap_cons. cbn [mask_select].
    case_bool_decide.
    + split.
      * constructor; [done|]. eapply Forall_impl; [exact IH2|]. simpl. lia.
      * constructor; [lia|]. eapply Forall_impl; [exact IH2|]. simpl. lia.
    + split; [done|]. eapply Forall_impl; [exact IH2|]. simpl. lia.
Qed.

Lemma drop_last_filter (l : list nat) (n x : nat) :
  StronglySorted lt l → Forall (λ y, y ≤ n)%nat l → last l = Some x →
  (if decide (n - 1 < x)%nat then take (length l - 1) l else l)
  = filter (λ y, y < n)%nat l ∨ n = 0%nat.
Proof.
  intros Hs Hle Hlast. destruct (decide (n = 0%nat)) as [|Hn]; [by right|left].
  apply last_Some in Hlast as [l' ->].
  apply StronglySorted_app in Hs as (Hlt & Hs1 & _).
  apply Forall_app in Hle as [Hle1 Hle2]. apply Forall_cons in Hle2 as [Hle2 _].
  simpl in Hle2.
  assert (filter (λ y, y < n)%nat l' = l') as Hl'.
  { apply filter_all. apply Forall_forall. intros y Hy.
    specialize (Hlt y x Hy ltac:(by left)). lia. }
  rewrite filter_app, Hl', length_app. simpl.
  replace (length l' + 1 - 1)%nat with (length l') by lia.
  rewrite take_app_length.
  rewrite filter_cons, filter_nil. repeat case_decide; try lia.
  - by rewrite app_nil_r.
  - done.
Qed.

Lemma StronglySorted_seq (j n : nat) : StronglySorted lt (seq j n).
Proof.
  revert j. induction n as [|n IH]; intros j; simpl; constructor; [done|].
  apply Forall_seq. intros; lia.
Qed.

Lemma StronglySorted_filter {A} (R : relation A) (P : A → Prop)
    `{!∀ x, Decision (P x)} (l : list A) :
  StronglySorted R l → StronglySorted R (filter P l).
Proof.
  induction 1 as [|x l Hs IH Hall]; [constructor|].
  rewrite filter_cons. case_decide; [|done].
  constructor; [done|]. rewrite Forall_forall in *.
  intros y [_ ?]%list_elem_of_filter. auto.
Qed.

Lemma searchsorted_zero (s : list Z) :
  Forall (λ v, 0 ≤ v)%Z s → searchsorted s 0 = 0%nat.
Proof. destruct 1; simpl; [done|]. by rewrite decide_False by lia. Qed.

Lemma split_mask_lookup (s : list Z) (M i : nat) :
  (i < M)%nat →
  ((λ d, bool_decide (d ≠ 0%Z)) <$>
     diff ((-1)%Z :: (Z.of_nat <$>
       (searchsorted s <$> (Z.of_nat <$> seq 0 M))))) !! i
  = Some (bool_decide
      (Z.of_nat (searchsorted s (Z.of_nat i))
       - match i with
         | O => -1
         | S i' => Z.of_nat (searchsorted s (Z.of_nat i'))
         end ≠ 0)%Z).
Proof.
  intros Hi. rewrite list_lookup_fmap.
  erewrite diff_lookup; [done| |].
  - destruct i as [|i]; simpl; [done|].
    rewrite !list_lookup_fmap, lookup_seq_lt by lia. done.
  - simpl. rewrite !list_lookup_fmap, lookup_seq_lt by lia. done.
Qed.

Lemma cell_starts_spec (s : list Z) (M : nat) :
  StronglySorted Z.le s → Forall (λ v, 0 ≤ v < Z.of_nat M)%Z s → s ≠ [] →
  ∃ P, cell_starts s M (seq 0 (length s)) = Some P
       ∧ StronglySorted lt P ∧ ∀ x, x ∈ P ↔ run_start s x.
Proof.
  intros Hs Hr Hne. unfold cell_starts.
  set (c := λ v : nat, searchsorted s (Z.of_nat v)).
  set (split0 := searchsorted s <$> (Z.of_nat <$> seq 0 M)).
  set (split1 := mask_select split0 _).
  assert (Hn : (0 < length s)%nat) by (destruct s; simpl; [done|lia]).
  assert (HM : (0 < M)%nat).
  { destruct s as [|v s]; [done|]. apply Forall_cons in Hr as [? _]. lia. }
  assert (Hc0 : c 0%nat = 0%nat).
  { apply searchsorted_zero. eapply Forall_impl; [exact Hr|]. simpl. lia. }
  assert (Hsplit0 : StronglySorted le split0).
  { unfold split0. rewrite <- list_fmap_compose.
    eapply (StronglySorted_fmap _ lt); [|apply StronglySorted_seq].
    intros x y Hxy. simpl. apply searchsorted_mono. lia. }
  destruct (kept_changes split0 (-1)%Z Hsplit0) as [Hsorted1 _].
  { apply Forall_forall. intros; lia. }
  fold split1 in Hsorted1.
  assert (Hmem1 : ∀ x, x ∈ split1 ↔
            ∃ v, (v < M)%nat ∧ x = c v ∧ (v = 0%nat ∨ c (v - 1)%nat ≠ c v)).
  { intros x. unfold split1. rewrite mask_select_elem. unfold split0. split.
    - intros (i & Hi & Hm).
      rewrite !list_lookup_fmap in Hi.
      destruct (seq 0 M !! i) as [v|] eqn:Hv; [|done].
      apply lookup_seq in Hv as [-> Hlt]. simpl in Hi. injection Hi as <-.
      rewrite split_mask_lookup in Hm by done. injection Hm as Hm.
      apply bool_decide_eq_true in Hm.
      exists i. split; [done|]. split; [done|].
      destruct i as [|i]; [by left|right]. simpl.
      rewrite Nat.sub_0_r. unfold c. lia.
    - intros (v & Hv & -> & Hd). exists v. split.
      + rewrite !list_lookup_fmap, lookup_seq_lt by done. done.
      + rewrite split_mask_lookup by done. f_equal.
        apply bool_decide_eq_true. destruct v as [|v]; [lia|].
        destruct Hd as [|Hd]; [done|]. simpl in Hd.
        rewrite Nat.sub_0_r in Hd. unfold c in Hd. lia. }
  assert (H0 : 0%nat ∈ split1).
  { apply Hmem1. exists 0%nat. rewrite Hc0. auto. }
  destruct (last split1) as [x|] eqn:Hlast; simpl.
  2:{ apply last_None in Hlast. rewrite Hlast in H0. by apply elem_of_nil in H0. }
  assert (last (seq 0 (length s)) = Some (length s - 1)%nat) as ->.
  { rewrite last_lookup, length_seq. apply lookup_seq. lia. }
  simpl. eexists. split; [done|].
  assert (Hle : Forall (λ y, y ≤ length s)%nat split1).
  { apply Forall_forall. intros y (v & _ & -> & _)%Hmem1.
    apply searchsorted_le. }
  destruct (drop_last_filter split1 (length s) x Hsorted1 Hle Hlast) as [->|?];
    [|lia].
  split; [by apply StronglySorted_filter|].
  intros y. rewrite list_elem_of_filter, Hmem1. unfold run_start. split.
  - intros (Hy & v & Hv & -> & Hd). split; [done|].
    destruct (decide (c v = 0%nat)) as [|Hcv]; [by left|right].
    destruct (lookup_lt_is_Some_2 s (c v - 1)%nat) as [a Ha]; [lia|].
    destruct (lookup_lt_is_Some_2 s (c v)) as [b Hb]; [lia|].
    exists a, b. split; [done|]. split; [done|].
    assert (a < Z.of_nat v)%Z.
    { apply (searchsorted_below s (Z.of_nat v) (c v - 1)); [|exact Ha].
      unfold c in *. lia. }
    assert (Z.of_nat v ≤ b)%Z by (by apply (searchsorted_at s)).
    lia.
  - intros (Hy & Hrun). split; [done|].
    destruct Hrun as [->|(a & b & Ha & Hb & Hab)].
    { exists 0%nat. rewrite Hc0. auto. }
    destruct (decide (y = 0%nat)) as [->|Hy0].
    { exists 0%nat. rewrite Hc0. auto. }
    pose proof (Forall_lookup_1 _ _ _ _ Hr Ha) as Hra.
    pose proof (Forall_lookup_1 _ _ _ _ Hr Hb) as Hrb. simpl in *.
    assert (Hcv : c (Z.to_nat (a + 1)) = y).
    { unfold c. rewrite Z2Nat.id by lia.
      pose proof (searchsorted_above s (a + 1) (y - 1) a Hs Ha ltac:(lia)).
      destruct (decide (y < searchsorted s (a + 1))%nat) as [Hgt|]; [|lia].
      pose proof (searchsorted_below s (a + 1) y b Hgt Hb). lia. }
    exists (Z.to_nat (a + 1)). split; [lia|]. split; [done|]. right.
    rewrite Hcv. replace (Z.to_nat (a + 1) - 1)%nat with (Z.to_nat a) by lia.
    unfold c. rewrite Z2Nat.id by lia.
    destruct (decide (y - 1 < searchsorted s a)%nat) as [Hgt|]; [|lia].
    pose proof (searchsorted_below s a (y - 1) a Hgt Ha). lia.
Qed.

Lemma run_position (s : list Z) (t : nat) (x v : Z) :
  StronglySorted Z.le s → s !! t = Some x →
  (searchsorted s v ≤ t < searchsorted s (v + 1))%nat ↔ x = v.
Proof.
  intros Hs Ht. split.
  - intros [Hlo Hhi].
    pose proof (searchsorted_below s (v + 1) t x Hhi Ht).
    destruct (decide (x < v)%Z) as [Hlt|]; [|lia].
    pose proof (searchsorted_above s v t x Hs Ht Hlt). lia.
  - intros ->. split.
    + destruct (decide (t < searchsorted s v)%nat) as [Hlt|]; [|lia].
      pose proof (searchsorted_below s v t v Hlt Ht). lia.
    + apply (searchsorted_above s (v + 1) t v Hs Ht). lia.
Qed.

Lemma run_start_searchsorted (s : list Z) (x : nat) (v : Z) :
  StronglySorted Z.le s → run_start s x → s !! x = Some v →
  searchsorted s v = x.
Proof.
  intros Hs [Hx Hrun] Hv.
  assert (searchsorted s v ≤ x)%nat.
  { destruct (decide (x < searchsorted s v)%nat) as [Hlt|]; [|lia].
    pose proof (searchsorted_below s v x v Hlt Hv). lia. }
  destruct Hrun as [->|(a & b & Ha & Hb & Hab)]; [lia|].
  destruct (decide (x = 0%nat)) as [->|]; [lia|].
  assert (b = v) as -> by congruence.
  pose proof (searchsorted_above s v (x - 1) a Hs Ha Hab). lia.
Qed.

Lemma searchsorted_run_start (s : list Z) (v : Z) :
  Forall (λ v, 0 ≤ v)%Z s →
  (searchsorted s v < length s)%nat → run_start s (searchsorted s v).
Proof.
  intros Hr Hlt. split; [done|].
  destruct (decide (searchsorted s v = 0%nat)) as [|Hne]; [by left|right].
  destruct (lookup_lt_is_Some_2 s (searchsorted s v - 1)%nat) as [a Ha]; [lia|].
  destruct (lookup_lt_is_Some_2 s (searchsorted s v)) as [b Hb]; [lia|].
  exists a, b. split; [done|]. split; [done|].
  pose proof (searchsorted_below s v (searchsorted s v - 1) a ltac:(lia) Ha).
  pose proof (searchsorted_at s v b Hb). lia.
Qed.

(** Consecutive cell starts bracket exactly one run of the sorted array. *)
Lemma next_cell_start (s : list Z) (P : list nat) (j pj : nat) (v : Z) :
  StronglySorted Z.le s → Forall (λ v, 0 ≤ v)%Z s →
  StronglySorted lt P → (∀ x, x ∈ P ↔ run_start s x) →
  P !! j = Some pj → s !! pj = Some v →
  (P ++ [length s]) !! S j = Some (searchsorted s (v + 1)).
Proof.
  intros Hs Hr HP Hmem Hj Hv.
  assert (Hrun : run_start s pj) by (apply Hmem; by eapply list_elem_of_lookup_2).
  pose proof (run_start_searchsorted s pj v Hs Hrun Hv) as Hc.
  set (e := searchsorted s (v + 1)).
  assert (He : (pj < e)%nat).
  { unfold e. apply (searchsorted_above s (v + 1) pj v Hs Hv). lia. }
  assert (Hele : (e ≤ length s)%nat) by apply searchsorted_le.
  assert (Hin : (e < length s)%nat → ∃ k, P !! k = Some e).
  { intros Hlt. apply list_elem_of_lookup, Hmem.
    by apply searchsorted_run_start. }
  destruct (P !! S j) as [q|] eqn:Hq.
  - rewrite lookup_app_l by (by eapply lookup_lt_Some). rewrite Hq. f_equal.
    pose proof (StronglySorted_lookup lt P j (S j) pj q HP ltac:(lia) Hj Hq).
    assert (Hqrun : run_start s q) by (apply Hmem; by eapply list_elem_of_lookup_2).
    destruct (Nat.lt_trichotomy q e) as [Hlt|[->|Hgt]]; [|done|].
    + exfalso. destruct Hqrun as [Hqn [->|(a & b & Ha & Hb & Hab)]]; [lia|].
      assert (a = v).
      { apply (run_position s (q - 1) a v Hs Ha). fold e. lia. }
      assert (b = v).
      { apply (run_position s q b v Hs Hb). fold e. lia. }
      lia.
    + exfalso. destruct Hin as [k Hk].
      { destruct Hqrun. lia. }
      destruct (decide (k ≤ j)%nat).
      * pose proof (increasing_lookup_le P k j e pj HP ltac:(lia) Hk Hj). lia.
      * pose proof (increasing_lookup_le P (S j) k q e HP ltac:(lia) Hq Hk).
        lia.
  - apply lookup_ge_None in Hq.
    pose proof (lookup_lt_Some _ _ _ Hj).
    rewrite lookup_app_r by lia.
    replace (S j - length P)%nat with 0%nat by lia. simpl. f_equal.
    destruct (decide (e < length s)%nat) as [Hlt|]; [|lia].
    destruct (Hin Hlt) as [k Hk].
    pose proof (lookup_lt_Some _ _ _ Hk).
    pose proof (increasing_lookup_le P k j e pj HP ltac:(lia) Hk Hj). lia.
Qed.

(** *** Linear cell numbers *)

Lemma ravel_is_Some (c : list Z) (N : Z) :
  Forall (λ d, 0 ≤ d < N)%Z c → is_Some (ravel_multi_index c N).
Proof.
  induction 1 as [|d c Hd Hc [r IH]]; simpl; [by eexists|].
  rewrite decide_True by done. rewrite IH. simpl. by eexists.
Qed.

Lemma ravel_digits (c : list Z) (N : Z) v :
  ravel_multi_index c N = Some v → Forall (λ d, 0 ≤ d < N)%Z c.
Proof.
  revert v. induction c as [|d c IH]; intros v; simpl; [constructor|].
  case_decide; [|done]. destruct (ravel_multi_index c N) as [r|] eqn:Hr; [|done].
  intros _. constructor; [done|]. by eapply IH.
Qed.

Lemma ravel_range (c : list Z) (N : Z) v :
  ravel_multi_index c N = Some v → (0 ≤ v < N ^ Z.of_nat (length c))%Z.
Proof.
  revert v. induction c as [|d c IH]; intros v; simpl length.
  - intros [= <-]. simpl. lia.
  - simpl. case_decide; [|done].
    destruct (ravel_multi_index c N) as [r|] eqn:Hr; [|done].
    simpl. intros [= <-]. specialize (IH r eq_refl).
    rewrite Nat2Z.inj_succ, Z.pow_succ_r by lia. nia.
Qed.

Lemma ravel_inj (c1 c2 : list Z) (N : Z) v :
  ravel_multi_index c1 N = Some v → ravel_multi_index c2 N = Some v →
  length c1 = length c2 → c1 = c2.
Proof.
  revert c2 v. induction c1 as [|d1 c1 IH]; intros [|d2 c2] v; simpl;
    try done.
  repeat case_decide; try done.
  destruct (ravel_multi_index c1 N) as [r1|] eqn:Hr1; [|done].
  destruct (ravel_multi_index c2 N) as [r2|] eqn:Hr2; [|done].
  simpl. intros [= <-] [= Heq] [= Hlen].
  assert (r1 = r2) as -> by nia.
  assert (d1 = d2) as -> by lia.
  f_equal. by eapply IH.
Qed.

(** *** Filling the dictionary *)

Lemma foldl_insert_lookup (keys : list (list Z)) (chunks : list (list nat)) :
  NoDup keys →
  let grid :=
    foldl (λ (grid : gmap (list Z) (list nat)) (ij : nat * list Z),
             <[ij.2 := chunks !!! ij.1]> grid) ∅
          (imap (λ i j, (i, j)) keys) in
  (∀ j cell, keys !! j = Some cell → grid !! cell = Some (chunks !!! j))
  ∧ (∀ cell, cell ∉ keys → grid !! cell = None).
Proof.
  induction keys as [|key keys IH] using rev_ind; intros Hnd grid.
  - split; [done|]. intros. apply lookup_empty.
  - apply NoDup_app in Hnd as (Hnd & Hdisj & _).
    destruct (IH Hnd) as [IH1 IH2]. unfold grid.
    rewrite imap_app, foldl_app. simpl. rewrite Nat.add_0_r. split.
    + intros j cell Hj.
      destruct (decide (j < length keys)%nat) as [Hlt|Hge].
      * rewrite lookup_app_l in Hj by done.
        rewrite lookup_insert_ne; [by apply IH1|].
        intros <-. eapply Hdisj; [by eapply list_elem_of_lookup_2|by left].
      * rewrite lookup_app_r in Hj by lia.
        destruct (j - length keys)%nat as [|?] eqn:Hjk; simpl in Hj; [|done].
        injection Hj as ->. assert (j = length keys) as -> by lia.
        by rewrite lookup_insert_eq.
    + intros cell Hcell. rewrite not_elem_of_app in Hcell.
      destruct Hcell as [Hc1 Hc2].
      rewrite lookup_insert_ne; [by apply IH2|].
      intros <-. apply Hc2. by left.
Qed.

Lemma StronglySorted_fmap_inv {A B} (f : A → B) (R1 : relation A)
    (R2 : relation B) (l : list A) :
  (∀ x y, R2 (f x) (f y) → R1 x y) →
  StronglySorted R2 (f <$> l) → StronglySorted R1 l.
Proof.
  intros Hf. induction l as [|x l IH]; [constructor|].
  rewrite fmap_cons. intros [Hall Hs]%StronglySorted_cons.
  constructor; [by apply IH|]. rewrite Forall_fmap in Hall.
  eapply Forall_impl; [exact Hall|]. simpl. auto.
Qed.

(** *** The sparse regime *)

Lemma filter_ext_elem {A} (P1 P2 : A → Prop)
    `{!∀ x, Decision (P1 x), !∀ x, Decision (P2 x)} (l : list A) :
  (∀ x, x ∈ l → P1 x ↔ P2 x) → filter P1 l = filter P2 l.
Proof.
  induction l as [|x l IH]; intros Hext; [done|].
  rewrite !filter_cons.
  rewrite IH by (intros y Hy; apply Hext; by right).
  apply decide_ext, Hext. by left.
Qed.

Lemma cell_members_snoc (k_digit : list (list Z)) (c cell : list Z) :
  cell_members (k_digit ++ [c]) cell =
    cell_members k_digit cell
    ++ (if decide (c = cell) then [length k_digit] else []).
Proof.
  unfold cell_members. rewrite length_app. simpl.
  rewrite seq_app, filter_app. simpl. f_equal.
  - apply filter_ext_elem. intros j [_ Hj]%elem_of_seq.
    by rewrite lookup_app_l by lia.
  - rewrite filter_cons, filter_nil.
    rewrite lookup_app_r, Nat.sub_diag by lia. simpl.
    apply decide_ext. split; congruence.
Qed.

Lemma cell_members_elem (k_digit : list (list Z)) (cell : list Z) (i : nat) :
  i ∈ cell_members k_digit cell ↔ k_digit !! i = Some cell.
Proof.
  unfold cell_members. rewrite list_elem_of_filter, elem_of_seq. split.
  - by intros [? _].
  - intros Hi. split; [done|]. apply lookup_lt_Some in Hi. lia.
Qed.

Lemma cell_members_NoDup (k_digit : list (list Z)) (cell : list Z) :
  NoDup (cell_members k_digit cell).
Proof. apply NoDup_filter, NoDup_seq. Qed.

Lemma build_grid_sparse_lookup (k_digit : list (list Z)) (cell : list Z) :
  build_grid_sparse k_digit !! cell =
    if decide (cell_members k_digit cell = []) then None
    else Some (cell_members k_digit cell).
Proof.
  unfold build_grid_sparse.
  induction k_digit as [|c k_digit IH] using rev_ind.
  - simpl. by rewrite lookup_empty.
  - rewrite imap_app, foldl_app. simpl. rewrite Nat.add_0_r.
    rewrite cell_members_snoc. unfold sparse_insert at 1. simpl.
    set (grid := foldl sparse_insert ∅ (imap (λ i c, (i, c)) k_digit)) in *.
    destruct (decide (c = cell)) as [->|Hne].
    + rewrite IH. case_decide as Hm.
      * by rewrite lookup_insert_eq, Hm.
      * rewrite lookup_insert_eq. rewrite decide_False; [done|].
        intros [? _]%app_eq_nil. done.
    + rewrite app_nil_r.
      destruct (grid !! c); by rewrite lookup_insert_ne.
Qed.

Lemma build_grid_sparse_holds (k_digit : list (list Z)) :
  grid_holds k_digit (build_grid_sparse k_digit).
Proof.
  intros cell. rewrite build_grid_sparse_lookup. case_decide; [done|].
  split; [done|reflexivity].
Qed.

(** *** The dense regime *)

Lemma increasing_head_zero (P : list nat) :
  StronglySorted lt P → 0%nat ∈ P → P = 0%nat :: tail P.
Proof.
  intros HP H0. destruct P as [|x P]; [by apply elem_of_nil in H0|].
  apply StronglySorted_cons in HP as [Hall _]. simpl. f_equal.
  apply elem_of_cons in H0 as [|H0]; [done|].
  rewrite Forall_forall in Hall. specialize (Hall _ H0). lia.
Qed.

Lemma build_grid_dense_holds `{Numerics} (data : list (list Q)) (N_cells : nat)
    (k_digit : list (list Z)) :
  length k_digit = length data → k_digit ≠ [] →
  Forall (λ c, length c = data_dim data
               ∧ Forall (λ d, 0 ≤ d < Z.of_nat N_cells)%Z c) k_digit →
  (∀ compact,
     mapM (λ c, ravel_multi_index c (Z.of_nat N_cells)) k_digit = Some compact →
     sorts_keys (inject_Z <$> compact) (argsort (inject_Z <$> compact))) →
  ∃ grid, build_grid_dense data N_cells k_digit = Some grid
          ∧ grid_holds k_digit grid.
Proof.
  intros Hlen Hne Hdig Hsort. unfold build_grid_dense.
  destruct (mapM _ k_digit) as [compact|] eqn:Hm.
  2:{ apply mapM_None_1, Exists_exists in Hm as (c & Hc & Hnone).
      rewrite Forall_forall in Hdig. destruct (Hdig c Hc) as [_ Hd].
      apply ravel_is_Some in Hd as [? Hd]. congruence. }
  destruct (Hsort compact eq_refl) as [Hperm Hsorted].
  apply mapM_Some_1 in Hm. pose proof (Forall2_length _ _ _ Hm) as Hlenc.
  simpl. set (p := argsort (inject_Z <$> compact)) in *.
  rewrite length_fmap in Hperm.
  set (n := length compact) in *.
  assert (Hn : (0 < n)%nat).
  { rewrite <- Hlenc. destruct k_digit; simpl; [done|lia]. }
  assert (Hp_lt : Forall (λ i, i < n)%nat p).
  { apply Forall_forall. intros i Hi. rewrite Hperm in Hi.
    apply elem_of_seq in Hi. lia. }
  assert (Hp_len : length p = n) by (by rewrite Hperm, length_seq).
  assert (Hp_nd : NoDup p) by (rewrite Hperm; apply NoDup_seq).
  (* every point has a cell and a linear cell number *)
  assert (Hpoint : ∀ i, (i < n)%nat → ∃ c v,
            k_digit !! i = Some c ∧ compact !! i = Some v
            ∧ ravel_multi_index c (Z.of_nat N_cells) = Some v
            ∧ length c = data_dim data).
  { intros i Hi.
    destruct (lookup_lt_is_Some_2 k_digit i) as [c Hc]; [lia|].
    destruct (lookup_lt_is_Some_2 compact i) as [v Hv]; [done|].
    exists c, v. split_and!; [done|done| |].
    - by eapply (Forall2_lookup_lr _ _ _ _ _ _ Hm).
    - by eapply (Forall_lookup_1 _ _ _ _ Hdig Hc). }
  set (s := gather compact p).
  assert (Hs_lookup : ∀ t i, p !! t = Some i → s !! t = compact !! i).
  { intros t i Ht. unfold s. rewrite gather_lookup, Ht. simpl.
    pose proof (Forall_lookup_1 _ _ _ _ Hp_lt Ht) as Hi. simpl in Hi.
    by rewrite (list_lookup_lookup_total_lt compact i). }
  assert (Hs : StronglySorted Z.le s).
  { rewrite gather_fmap in Hsorted by done.
    eapply StronglySorted_fmap_inv; [|exact Hsorted].
    intros x y. by rewrite <- Zle_Qle. }
  assert (Hr : Forall (λ v, 0 ≤ v < Z.of_nat (N_cells ^ data_dim data))%Z s).
  { apply Forall_lookup. intros t v Ht.
    destruct (lookup_lt_is_Some_2 p t) as [i Hi].
    { apply lookup_lt_Some in Ht. unfold s in Ht.
      by rewrite gather_length in Ht. }
    rewrite (Hs_lookup t i Hi) in Ht.
    destruct (Hpoint i) as (c & v' & Hc & Hv & Hrav & Hdim).
    { by apply (Forall_lookup_1 _ _ _ _ Hp_lt Hi). }
    assert (v' = v) as -> by congruence.
    apply ravel_range in Hrav. rewrite Hdim in Hrav.
    by rewrite Nat2Z.inj_pow. }
  assert (Hs_len : length s = n) by (unfold s; by rewrite gather_length).
  assert (Hs_ne : s ≠ []) by (intros Hnil; rewrite Hnil in Hs_len; simpl in *; lia).
  destruct (cell_starts_spec s _ Hs Hr Hs_ne) as (P & HP & HPs & HPmem).
  rewrite Hs_len, <- Hlenc, Hlen in HP.
  rewrite HP. simpl. eexists. split; [done|].
  rewrite gather_seq by (by rewrite <- Hlen, Hlenc).
  set (keys := gather (gather k_digit p) P).
  set (chunks := np_split p (tail P)).
  assert (Hr0 : Forall (λ v, 0 ≤ v)%Z s).
  { eapply Forall_impl; [exact Hr|]. simpl. lia. }
  (* what each cell start stands for *)
  assert (Hstart : ∀ j pj, P !! j = Some pj → ∃ i c v,
            p !! pj = Some i ∧ k_digit !! i = Some c
            ∧ ravel_multi_index c (Z.of_nat N_cells) = Some v
            ∧ s !! pj = Some v ∧ searchsorted s v = pj
            ∧ keys !! j = Some c
            ∧ chunks !!! j
              = slice (searchsorted s v) (searchsorted s (v + 1)) p).
  { intros j pj Hj.
    assert (Hrun : run_start s pj).
    { apply HPmem. by eapply list_elem_of_lookup_2. }
    destruct (lookup_lt_is_Some_2 p pj) as [i Hi].
    { destruct Hrun. lia. }
    destruct (Hpoint i) as (c & v & Hc & Hv & Hrav & Hdim).
    { by apply (Forall_lookup_1 _ _ _ _ Hp_lt Hi). }
    assert (Hsv : s !! pj = Some v) by (by rewrite (Hs_lookup pj i Hi)).
    pose proof (run_start_searchsorted s pj v Hs Hrun Hsv) as Hcv.
    exists i, c, v. split_and!; try done.
    - unfold keys. rewrite gather_lookup, Hj. simpl. f_equal.
      apply list_lookup_total_correct.
      by apply (gather_lookup_Some k_digit p pj i c).
    - assert (P = 0%nat :: tail P) as HP0.
      { apply increasing_head_zero; [done|]. apply HPmem.
        split; [lia|by left]. }
      unfold chunks, np_split.
      pose proof (next_cell_start s P j pj v Hs Hr0 HPs HPmem Hj Hsv) as Hnext.
      apply list_lookup_total_correct.
      rewrite split_from_lookup.
      2:{ apply lookup_lt_Some in Hj. destruct P; simpl in *; lia. }
      f_equal. rewrite <- HP0. f_equal.
      + rewrite Hcv. by apply list_lookup_total_correct.
      + rewrite HP0 in Hnext. simpl in Hnext.
        rewrite Hp_len, <- Hs_len. by apply list_lookup_total_correct. }
  (* the points of a chunk *)
  assert (Hchunk : ∀ v i,
            i ∈ slice (searchsorted s v) (searchsorted s (v + 1)) p
            ↔ compact !! i = Some v).
  { intros v i. rewrite slice_elem. split.
    - intros (t & Ht & Hi). rewrite <- (Hs_lookup t i Hi).
      destruct (lookup_lt_is_Some_2 s t) as [x Hx].
      { apply lookup_lt_Some in Hi. lia. }
      rewrite Hx. f_equal. by apply (run_position s t x v Hs Hx).
    - intros Hv.
      assert (i ∈ p) as [t Ht]%list_elem_of_lookup.
      { rewrite Hperm. apply elem_of_seq. apply lookup_lt_Some in Hv. lia. }
      exists t. split; [|done].
      apply (run_position s t v v Hs); [|done].
      by rewrite (Hs_lookup t i Ht). }
  assert (Hkeys : NoDup keys).
  { apply NoDup_alt. intros j1 j2 c Hj1 Hj2.
    unfold keys in Hj1, Hj2. rewrite gather_lookup in Hj1, Hj2.
    destruct (P !! j1) as [p1|] eqn:Hp1; [|done].
    destruct (P !! j2) as [p2|] eqn:Hp2; [|done].
    destruct (Hstart j1 p1 Hp1) as (i1 & c1 & v1 & _ & _ & Hr1 & _ & Hc1 & Hk1 & _).
    destruct (Hstart j2 p2 Hp2) as (i2 & c2 & v2 & _ & _ & Hr2 & _ & Hc2 & Hk2 & _).
    unfold keys in Hk1, Hk2. rewrite gather_lookup, ?Hp1, ?Hp2 in Hk1, Hk2.
    assert (c1 = c2) as -> by congruence.
    assert (v1 = v2) as -> by congruence.
    assert (p1 = p2) as -> by congruence.
    destruct (Nat.lt_trichotomy j1 j2) as [Hlt|[->|Hlt]]; [|done|].
    - pose proof (StronglySorted_lookup lt P j1 j2 p2 p2 HPs Hlt Hp1 Hp2). lia.
    - pose proof (StronglySorted_lookup lt P j2 j1 p2 p2 HPs Hlt Hp2 Hp1). lia. }
  destruct (foldl_insert_lookup keys chunks Hkeys) as [G1 G2].
  intros cell. destruct (decide (cell ∈ keys)) as [Hin|Hout].
  - apply list_elem_of_lookup in Hin as [j Hj]. rewrite (G1 j cell Hj).
    assert (∃ pj, P !! j = Some pj) as [pj Hpj].
    { unfold keys in Hj. rewrite gather_lookup in Hj.
      destruct (P !! j); [by eexists|done]. }
    destruct (Hstart j pj Hpj)
      as (i & c & v & Hi & Hc & Hrav & Hsv & Hcv & Hk & ->).
    assert (c = cell) as -> by congruence.
    split.
    + intros Hnil. assert (i ∈ @nil nat) as Hbad; [|by apply elem_of_nil in Hbad].
      rewrite <- Hnil. apply Hchunk. by rewrite <- (Hs_lookup pj i Hi).
    + apply NoDup_Permutation.
      * unfold slice. eapply (sublist_NoDup _ p); [exact Hp_nd|].
        etrans; [apply sublist_take|apply sublist_drop].
      * apply cell_members_NoDup.
      * intros i'. rewrite Hchunk, cell_members_elem. split.
        -- intros Hv'. destruct (Hpoint i') as (c' & v' & Hc' & Hv'' & Hrav' & Hdim').
           { by apply lookup_lt_Some in Hv'. }
           assert (v' = v) as -> by congruence.
           rewrite Hc'. f_equal. eapply ravel_inj; [done..|].
           rewrite Hdim'. symmetry.
           by apply (Forall_lookup_1 _ _ _ _ Hdig Hc).
        -- intros Hc'. destruct (Hpoint i') as (c' & v' & Hc'' & Hv' & Hrav' & _).
           { apply lookup_lt_Some in Hc'. lia. }
           assert (c' = cell) as -> by congruence. congruence.
  - rewrite (G2 cell Hout). apply filter_none, Forall_forall.
    intros i [_ Hi]%elem_of_seq Hc. apply Hout.
    destruct (Hpoint i) as (c & v & Hc' & Hv & Hrav & Hdim); [lia|].
    assert (c = cell) as -> by congruence.
    assert (i ∈ p) as [t Ht]%list_elem_of_lookup.
    { rewrite Hperm. apply elem_of_seq. lia. }
    assert (Hst : s !! t = Some v) by (by rewrite (Hs_lookup t i Ht)).
    pose proof (proj2 (run_position s t v v Hs Hst) eq_refl) as [Hlo Hhi].
    assert (Hrun : run_start s (searchsorted s v)).
    { apply searchsorted_run_start; [done|]. apply lookup_lt_Some in Hst. lia. }
    apply HPmem, list_elem_of_lookup in Hrun as [j Hj].
    destruct (Hstart j _ Hj)
      as (i0 & c0 & v0 & Hi0 & Hc0 & Hrav0 & Hsv0 & Hcv0 & Hk0 & _).
    assert (v0 = v).
    { apply (run_position s (searchsorted s v) v0 v Hs Hsv0). lia. }
    subst v0. assert (c0 = cell) as ->.
    { eapply ravel_inj; [done..|]. rewrite Hdim.
      apply (Forall_lookup_1 _ _ _ _ Hdig Hc0). }
    by eapply list_elem_of_lookup_2.
Qed.

(** ** Bin edges and digits *)

Lemma Qlist_min_le (l : list Q) (x : Q) : x ∈ l → (Qlist_min l <= x)%Q.
Proof.
  destruct l as [|y l]; [by intros ?%elem_of_nil|]. simpl.
  revert y. induction l as [|z l IH]; intros y; simpl.
  - intros ->%list_elem_of_singleton. lra.
  - intros Hin. apply elem_of_cons in Hin as [Hxy|Hin].
    + eapply Qle_trans; [apply Q.le_min_r|]. apply (IH y). rewrite Hxy. by left.
    + apply elem_of_cons in Hin as [Hxz|Hin].
      * rewrite Hxz. apply Q.le_min_l.
      * eapply Qle_trans; [apply Q.le_min_r|]. apply (IH y). by right.
Qed.

Lemma Qlist_max_ge (l : list Q) (x : Q) : x ∈ l → (x <= Qlist_max l)%Q.
Proof.
  destruct l as [|y l]; [by intros ?%elem_of_nil|]. simpl.
  revert y. induction l as [|z l IH]; intros y; simpl.
  - intros ->%list_elem_of_singleton. lra.
  - intros Hin. apply elem_of_cons in Hin as [Hxy|Hin].
    + eapply Qle_trans; [apply (IH y); rewrite Hxy; by left|apply Q.le_max_r].
    + apply elem_of_cons in Hin as [Hxz|Hin].
      * rewrite Hxz. apply Q.le_max_l.
      * eapply Qle_trans; [apply (IH y); by right|apply Q.le_max_r].
Qed.

Section AxisBins.
Variables (a b : Q) (N : nat).
Hypothesis Hab : (a < b)%Q.
Hypothesis HN : (1 ≤ N)%nat.

Let bins := linspace a b (N + 1).
Let step : Q := ((b - a) / inject_Z (Z.of_nat N))%Q.

Lemma inject_N_pos : (0 < inject_Z (Z.of_nat N))%Q.
Proof. change 0%Q with (inject_Z 0). rewrite <- Zlt_Qlt. lia. Qed.

Lemma step_pos : (0 < step)%Q.
Proof.
  unfold step. apply Qlt_shift_div_l; [apply inject_N_pos|]. lra.
Qed.

Lemma linspace_length : length bins = (N + 1)%nat.
Proof.
  unfold bins, linspace. case_decide; [|lia].
  by rewrite length_insert, length_fmap, length_seq.
Qed.

Lemma linspace_lookup (i : nat) :
  (i < N)%nat → (bins !!! i == a + inject_Z (Z.of_nat i) * step)%Q.
Proof.
  intros Hi. unfold bins, linspace. case_decide; [|lia].
  rewrite list_lookup_total_insert_ne by lia.
  rewrite (list_lookup_total_fmap (A := nat) (B := Q) _ (seq 0 (N + 1)) i)
    by (rewrite length_seq; lia).
  rewrite lookup_total_seq_lt by lia. simpl.
  unfold step. replace (N + 1 - 1)%nat with N by lia. lra.
Qed.

Lemma linspace_last : bins !!! N = b.
Proof.
  unfold bins, linspace. case_decide; [|lia].
  replace (N + 1 - 1)%nat with N by lia.
  apply list_lookup_total_insert_eq.
  rewrite length_fmap, length_seq. lia.
Qed.

Lemma linspace_first : (bins_first bins == a)%Q.
Proof.
  unfold bins_first. rewrite head_lookup.
  pose proof (linspace_lookup 0 ltac:(lia)) as H0.
  rewrite list_lookup_total_alt in H0.
  change (inject_Z (Z.of_nat 0)) with 0%Q in H0.
  destruct (bins !! 0%nat) eqn:E; simpl in *; [lra|].
  apply lookup_ge_None in E. rewrite linspace_length in E. lia.
Qed.

Lemma linspace_bins_last : bins_last bins = b.
Proof.
  unfold bins_last. rewrite last_lookup, linspace_length.
  replace (Init.Nat.pred (N + 1)) with N by lia.
  pose proof linspace_last as HN'. rewrite list_lookup_total_alt in HN'.
  destruct (bins !! N) eqn:E; simpl in *; [done|].
  apply lookup_ge_None in E. rewrite linspace_length in E. lia.
Qed.

Lemma linspace_cell_size : (bins !!! 1%nat - bins !!! 0%nat == step)%Q.
Proof.
  rewrite (linspace_lookup 0) by lia.
  change (inject_Z (Z.of_nat 0)) with 0%Q.
  destruct (decide (N = 1%nat)) as [HN1|HN1].
  - pose proof linspace_last as Hl. rewrite HN1 in Hl. rewrite Hl.
    unfold step. rewrite HN1. change (inject_Z (Z.of_nat 1)) with 1%Q.
    field.
  - rewrite (linspace_lookup 1) by lia.
    change (inject_Z (Z.of_nat 1)) with 1%Q. lra.
Qed.

(** The scaled offset of a value is its offset counted in cells. *)
Lemma scaled_offset_cells (x : Q) :
  (scaled_offset x bins == (x - a) / step)%Q.
Proof.
  unfold scaled_offset. rewrite linspace_length, linspace_bins_last.
  rewrite linspace_first.
  replace (Z.of_nat (N + 1) - 1)%Z with (Z.of_nat N) by lia.
  unfold step. pose proof inject_N_pos. field. split; lra.
Qed.

Lemma scaled_offset_mono (x y : Q) :
  (x <= y)%Q → (scaled_offset x bins <= scaled_offset y bins)%Q.
Proof.
  intros Hxy. rewrite !scaled_offset_cells. pose proof step_pos.
  apply Qle_shift_div_l; [done|].
  assert ((x - a) / step * step == x - a)%Q as -> by (field; lra). lra.
Qed.

(** Digits grow with the value, as long as the larger value does not
    overflow the conversion. *)
Lemma digitize1_mono (x y : Q) :
  (x <= y)%Q → (scaled_offset y bins < inject_Z (int64_max + 1))%Q →
  (digitize1 x bins ≤ digitize1 y bins)%Z.
Proof.
  intros Hxy Hy. unfold digitize1. apply astype_int_mono.
  - by apply scaled_offset_mono.
  - done.
Qed.

(** A value below the last edge is less than [N] cells from the first,
    which a grid with an addressable array of edges can count. *)
Lemma scaled_offset_inside (x : Q) :
  (x < b)%Q → (scaled_offset x bins < inject_Z (Z.of_nat N))%Q.
Proof.
  intros Hx. rewrite scaled_offset_cells. pose proof step_pos as Hstep.
  pose proof inject_N_pos.
  apply Qlt_shift_div_r; [done|].
  assert (Hb : (inject_Z (Z.of_nat N) * step == b - a)%Q).
  { unfold step. field. lra. }
  lra.
Qed.

Lemma scaled_offset_fits (x : Q) :
  addressable (N + 1) → (x < b)%Q →
  (scaled_offset x bins < inject_Z (int64_max + 1))%Q.
Proof.
  intros Hadd Hx. eapply Qlt_le_trans; [by apply scaled_offset_inside|].
  rewrite <- Zle_Qle. unfold addressable in Hadd. lia.
Qed.

(** A value of the padded range lies in the cell of its digit. *)
Lemma digitize1_bracket (x : Q) :
  addressable (N + 1) → (a <= x)%Q → (x < b)%Q →
  (0 ≤ digitize1 x bins)%Z
  ∧ (a + inject_Z (digitize1 x bins) * step <= x)%Q
  ∧ (x < a + (inject_Z (digitize1 x bins) + 1) * step)%Q.
Proof.
  intros Hadd Hx Hxb. unfold digitize1. fold (scaled_offset x bins).
  pose proof step_pos as Hstep.
  assert (Hq : (0 <= scaled_offset x bins)%Q).
  { rewrite scaled_offset_cells. apply Qle_shift_div_l; [done|]. lra. }
  rewrite astype_int_nonneg by (done || by apply scaled_offset_fits).
  pose proof (Qfloor_le (scaled_offset x bins)) as Hlo.
  pose proof (Qlt_floor (scaled_offset x bins)) as Hhi.
  rewrite inject_Z_plus in Hhi. change (inject_Z 1) with 1%Q in Hhi.
  split.
  { pose proof (Qfloor_resp_le (inject_Z 0) _ Hq) as H0.
    by rewrite Qfloor_Z in H0. }
  set (d := inject_Z (Qfloor (scaled_offset x bins))) in *.
  rewrite scaled_offset_cells in Hlo, Hhi.
  assert (Heq : ((x - a) / step * step == x - a)%Q) by (field; lra).
  split.
  - assert (d * step <= (x - a) / step * step)%Q by nra. lra.
  - assert ((x - a) / step * step < (d + 1) * step)%Q by nra. lra.
Qed.

(** A value strictly inside the padded range has a digit on the grid. *)
Lemma digitize1_range (x : Q) :
  addressable (N + 1) → (a <= x)%Q → (x < b)%Q →
  (0 ≤ digitize1 x bins < Z.of_nat N)%Z.
Proof.
  intros Hadd Hlo Hhi.
  destruct (digitize1_bracket x Hadd Hlo Hhi) as (H0 & Hd & _).
  split; [done|]. rewrite Zlt_Qlt.
  pose proof step_pos. pose proof inject_N_pos.
  assert (Hb : (a + inject_Z (Z.of_nat N) * step == b)%Q).
  { unfold step. field. lra. }
  nra.
Qed.
End AxisBins.

(** ** The grid of a valid data set *)

Lemma epsilon_pos : (0 < epsilon)%Q.
Proof. reflexivity. Qed.

Section BuiltGrid.
Context `{Numerics}.
Variables (data : list (list Q)) (N_cells : nat).
Hypothesis Hvalid : valid_data data.
Hypothesis HN : (1 ≤ N_cells)%nat.
Hypothesis HNmax : addressable (N_cells + 1).

Let dim := data_dim data.
Let lo (k : nat) : Q := (Qlist_min (column data k) - epsilon)%Q.
Let hi (k : nat) : Q := (Qlist_max (column data k) + epsilon)%Q.

Lemma k_bins_lookup (k : nat) :
  (k < dim)%nat → build_k_bins data N_cells !!! k = linspace (lo k) (hi k) (N_cells + 1).
Proof.
  intros Hk. unfold build_k_bins.
  rewrite (list_lookup_total_fmap (A := nat) _ (seq 0 (data_dim data)) k)
    by (rewrite length_seq; done).
  by rewrite lookup_total_seq_lt.
Qed.

Lemma column_elem (p : list Q) (k : nat) : p ∈ data → p !!! k ∈ column data k.
Proof. intros Hp. unfold column. apply list_elem_of_fmap. eauto. Qed.

Lemma axis_spread (k : nat) : (lo k < hi k)%Q.
Proof.
  destruct Hvalid as (Hne & _ & _). unfold lo, hi.
  destruct data as [|p data'] eqn:Hd; [done|].
  assert (p ∈ p :: data') as Hp by (by left). rewrite <- Hd in *.
  pose proof (Qlist_min_le _ _ (column_elem p k Hp)).
  pose proof (Qlist_max_ge _ _ (column_elem p k Hp)).
  pose proof epsilon_pos. lra.
Qed.

Lemma point_inside (p : list Q) (k : nat) :
  p ∈ data → (lo k + epsilon <= p !!! k)%Q ∧ (p !!! k <= hi k - epsilon)%Q.
Proof.
  intros Hp. unfold lo, hi.
  pose proof (Qlist_min_le _ _ (column_elem p k Hp)).
  pose proof (Qlist_max_ge _ _ (column_elem p k Hp)). split; lra.
Qed.

Lemma point_cell_lookup (p : list Q) (k : nat) :
  (k < dim)%nat →
  point_cell data (build_k_bins data N_cells) p !! k
  = Some (digitize1 (p !!! k) (linspace (lo k) (hi k) (N_cells + 1))).
Proof.
  intros Hk. unfold point_cell.
  rewrite list_lookup_fmap, lookup_seq_lt by done. simpl.
  by rewrite k_bins_lookup.
Qed.

Lemma point_cell_length (p : list Q) :
  length (point_cell data (build_k_bins data N_cells) p) = dim.
Proof. unfold point_cell. by rewrite length_fmap, length_seq. Qed.

Lemma grid_digits_lookup (i : nat) (p : list Q) :
  data !! i = Some p →
  grid_digits data N_cells !! i
  = Some (point_cell data (build_k_bins data N_cells) p).
Proof.
  intros Hp. unfold grid_digits, build_k_digit.
  by rewrite list_lookup_fmap, Hp.
Qed.

Lemma grid_digits_length : length (grid_digits data N_cells) = length data.
Proof. unfold grid_digits, build_k_digit. by rewrite length_fmap. Qed.

Lemma grid_digits_valid :
  Forall (λ c, length c = data_dim data
               ∧ Forall (λ d, 0 ≤ d < Z.of_nat N_cells)%Z c)
         (grid_digits data N_cells).
Proof.
  unfold grid_digits, build_k_digit. apply Forall_fmap, Forall_forall.
  intros p Hp. simpl. split; [apply point_cell_length|].
  apply Forall_lookup. intros k d Hd.
  assert (k < dim)%nat as Hk.
  { apply lookup_lt_Some in Hd. by rewrite point_cell_length in Hd. }
  rewrite point_cell_lookup in Hd by done. injection Hd as <-.
  destruct (point_inside p k Hp). pose proof epsilon_pos.
  apply digitize1_range; [apply axis_spread|done|done|lra|lra].
Qed.

Lemma build_grid_holds :
  argsort_sorts_cells data N_cells →
  ∃ grid, _build_grid data N_cells = Some (grid, build_k_bins data N_cells)
          ∧ grid_holds (grid_digits data N_cells) grid.
Proof.
  intros Hsort. unfold _build_grid. rewrite decide_True by done.
  fold (grid_digits data N_cells).
  case_decide.
  - destruct (build_grid_dense_holds data N_cells (grid_digits data N_cells))
      as (grid & -> & Hg).
    + apply grid_digits_length.
    + destruct Hvalid as (Hne & _).
      intros Hnil. apply Hne. apply length_zero_iff_nil.
      by rewrite <- grid_digits_length, Hnil.
    + apply grid_digits_valid.
    + apply Hsort.
    + simpl. eauto.
  - eexists. split; [done|]. apply build_grid_sparse_holds.
Qed.
End BuiltGrid.

Lemma grid_holds_sound (k_digit : list (list Z))
    (grid : gmap (list Z) (list nat)) cell l i :
  grid_holds k_digit grid → grid !! cell = Some l → i ∈ l →
  k_digit !! i = Some cell.
Proof.
  intros Hg Hl Hi. specialize (Hg cell). rewrite Hl in Hg.
  destruct Hg as [_ Hperm]. rewrite Hperm in Hi.
  by apply cell_members_elem.
Qed.

Lemma grid_holds_complete (k_digit : list (list Z))
    (grid : gmap (list Z) (list nat)) cell i :
  grid_holds k_digit grid → k_digit !! i = Some cell →
  ∃ l, grid !! cell = Some l ∧ i ∈ l.
Proof.
  intros Hg Hi. specialize (Hg cell).
  apply cell_members_elem in Hi.
  destruct (grid !! cell) as [l|].
  - destruct Hg as [_ Hperm]. exists l. split; [done|]. by rewrite Hperm.
  - rewrite Hg in Hi. by apply elem_of_nil in Hi.
Qed.

Lemma grid_holds_NoDup (k_digit : list (list Z))
    (grid : gmap (list Z) (list nat)) cell l :
  grid_holds k_digit grid → grid !! cell = Some l → NoDup l.
Proof.
  intros Hg Hl. specialize (Hg cell). rewrite Hl in Hg.
  destruct Hg as [_ Hperm]. rewrite Hperm. apply cell_members_NoDup.
Qed.

(** C6: for a valid data set and a number of cells whose array of edges
    can be made the constructor succeeds, and in the grid it builds every
    point index 0..n-1 is listed under some cell key, every listed index is
    a point index and occurs once in its list, and no index is listed under
    two keys. *)
Theorem grid_cells_partition `{Numerics} (data : list (list Q)) (N_cells : nat)
    (periodic : gmap nat (option (Q * Q))) :
  valid_data data → (1 ≤ N_cells)%nat → addressable (N_cells + 1) →
  argsort_sorts_cells data N_cells →
  ∃ g, GriSPy_init data N_cells periodic = Some g
    ∧ (∀ i, (i < length data)%nat → ∃ cell l, grid_ g !! cell = Some l ∧ i ∈ l)
    ∧ (∀ cell l, grid_ g !! cell = Some l →
         NoDup l ∧ ∀ i, i ∈ l → (i < length data)%nat)
    ∧ (∀ cell1 cell2 l1 l2 i,
         grid_ g !! cell1 = Some l1 → grid_ g !! cell2 = Some l2 →
         i ∈ l1 → i ∈ l2 → cell1 = cell2).
Proof.
  intros Hvalid HN HNmax Hsort.
  destruct (build_grid_holds data N_cells Hvalid HN HNmax Hsort)
    as (grid & Hb & Hg).
  unfold GriSPy_init. rewrite Hb. simpl. eexists. split; [done|]. simpl.
  split_and!.
  - intros i Hi.
    destruct (lookup_lt_is_Some_2 (grid_digits data N_cells) i) as [cell Hc].
    { by rewrite grid_digits_length. }
    destruct (grid_holds_complete _ _ _ _ Hg Hc) as (l & ? & ?). eauto.
  - intros cell l Hl. split; [by eapply grid_holds_NoDup|].
    intros i Hi. pose proof (grid_holds_sound _ _ _ _ _ Hg Hl Hi) as Hc.
    apply lookup_lt_Some in Hc. by rewrite grid_digits_length in Hc.
  - intros cell1 cell2 l1 l2 i Hl1 Hl2 Hi1 Hi2.
    pose proof (grid_holds_sound _ _ _ _ _ Hg Hl1 Hi1).
    pose proof (grid_holds_sound _ _ _ _ _ Hg Hl2 Hi2). congruence.
Qed.

(** C7: for a valid data set and a number of cells whose array of edges
    can be made the dense strategy succeeds and binds the same cell keys to
    the same sets of point indices as the sparse strategy; only the order
    inside a cell may differ. *)
Theorem dense_sparse_same_cells `{Numerics} (data : list (list Q))
    (N_cells : nat) :
  valid_data data → (1 ≤ N_cells)%nat → addressable (N_cells + 1) →
  argsort_sorts_cells data N_cells →
  ∃ dense, build_grid_dense data N_cells (grid_digits data N_cells) = Some dense
    ∧ same_cell_sets dense (build_grid_sparse (grid_digits data N_cells)).
Proof.
  intros Hvalid HN HNmax Hsort.
  destruct (build_grid_dense_holds data N_cells (grid_digits data N_cells))
    as (dense & Hd & Hg).
  - apply grid_digits_length.
  - destruct Hvalid as (Hne & _). intros Hnil. apply Hne, length_zero_iff_nil.
    by rewrite <- (grid_digits_length data N_cells), Hnil.
  - by apply grid_digits_valid.
  - apply Hsort.
  - exists dense. split; [done|]. intros cell.
    pose proof (build_grid_sparse_holds (grid_digits data N_cells) cell) as Hs.
    specialize (Hg cell).
    destruct (dense !! cell) as [l1|], (build_grid_sparse _ !! cell) as [l2|].
    + constructor. destruct Hg as [_ ->], Hs as [_ ->]. done.
    + destruct Hg as [Hne Hp]. rewrite Hs in Hp.
      apply Permutation_nil_r in Hp. done.
    + destruct Hs as [Hne Hp]. rewrite Hg in Hp.
      apply Permutation_nil_r in Hp. done.
    + constructor.
Qed.

Lemma line3_valid : valid_data line3.
Proof. split_and!; [done|vm_compute; lia|by repeat constructor]. Defined.

Lemma line3_argsort : argsort_sorts_cells (H := axis1) line3 2.
Proof.
  intros compact Hc. vm_compute in Hc. injection Hc as <-. split.
  - by apply (bool_decide_unpack _).
  - by apply (bool_decide_unpack _).
Defined.

Lemma grid_cells_partition_witness :
  valid_data line3 ∧ (1 ≤ 2)%nat ∧ addressable (2 + 1)
  ∧ argsort_sorts_cells (H := axis1) line3 2
  ∧ ∃ g, GriSPy_init (H := axis1) line3 2 ∅ = Some g
    ∧ (∀ i, (i < length line3)%nat → ∃ cell l, grid_ g !! cell = Some l ∧ i ∈ l)
    ∧ (∀ cell l, grid_ g !! cell = Some l →
         NoDup l ∧ ∀ i, i ∈ l → (i < length line3)%nat)
    ∧ (∀ cell1 cell2 l1 l2 i,
         grid_ g !! cell1 = Some l1 → grid_ g !! cell2 = Some l2 →
         i ∈ l1 → i ∈ l2 → cell1 = cell2).
Proof.
  split_and!; [exact line3_valid|lia|by vm_compute|exact line3_argsort|].
  apply (grid_cells_partition (H := axis1) line3 2 ∅);
    [exact line3_valid|lia|by vm_compute|exact line3_argsort].
Defined.

Lemma dense_sparse_same_cells_witness :
  valid_data line3 ∧ (1 ≤ 2)%nat ∧ addressable (2 + 1)
  ∧ argsort_sorts_cells (H := axis1) line3 2
  ∧ ∃ dense,
      build_grid_dense (H := axis1) line3 2 (grid_digits line3 2) = Some dense
      ∧ same_cell_sets dense (build_grid_sparse (grid_digits line3 2)).
Proof.
  split_and!; [exact line3_valid|lia|by vm_compute|exact line3_argsort|].
  apply (dense_sparse_same_cells (H := axis1) line3 2);
    [exact line3_valid|lia|by vm_compute|exact line3_argsort].
Defined.

(** ** Candidate cells *)

Lemma arangeZ_elem (lo hi x : Z) : x ∈ arangeZ lo hi ↔ (lo ≤ x < hi)%Z.
Proof. unfold arangeZ. rewrite elem_of_seqZ. lia. Qed.

Lemma cprod_elem (cell : list Z) (grids : list (list Z)) :
  cell ∈ cprod grids ↔ Forall2 (λ x g, x ∈ g) cell grids.
Proof.
  revert cell. induction grids as [|g grids IH]; intros cell; simpl.
  - rewrite list_elem_of_singleton. split; [by intros ->|by inv 1].
  - rewrite list_elem_of_bind. split.
    + intros (x & (r & ->%list_elem_of_singleton & Hr)%list_elem_of_bind & Hx).
      constructor; [done|]. by apply IH.
    + inv 1 as [|x g' r grids' Hx Hr]. exists x. split; [|done].
      apply list_elem_of_bind. exists r. split; [by left|]. by apply IH.
Qed.

Lemma meshgrid_rows_elem (cell : list Z) (grids : list (list Z)) :
  cell ∈ meshgrid_rows grids ↔ Forall2 (λ x g, x ∈ g) cell grids.
Proof.
  destruct grids as [|xs [|ys rest]]; try apply cprod_elem.
  unfold meshgrid_rows. rewrite list_elem_of_bind. split.
  - intros (y & (x & (r & ->%list_elem_of_singleton & Hr)%list_elem_of_bind
                   & Hx)%list_elem_of_bind & Hy).
    repeat (constructor; [done|]). by apply cprod_elem.
  - inv 1 as [|x g' r' grids' Hx Hr']. inv Hr' as [|y g'' r grids'' Hy Hr].
    exists y. split; [|done]. apply list_elem_of_bind. exists x. split; [|done].
    apply list_elem_of_bind. exists r. split; [by left|]. by apply cprod_elem.
Qed.

Lemma box_elem (cell : list Z) (dim : nat) (lo hi : nat → Z) :
  length cell = dim →
  (∀ k, (k < dim)%nat → (lo k ≤ cell !!! k ≤ hi k)%Z) →
  cell ∈ meshgrid_rows ((λ k, arangeZ (lo k) (hi k + 1)) <$> seq 0 dim).
Proof.
  intros Hlen Hbox. apply meshgrid_rows_elem, Forall2_same_length_lookup.
  split; [by rewrite length_fmap, length_seq|].
  intros k x gk Hx Hg. rewrite list_lookup_fmap in Hg.
  destruct (seq 0 dim !! k) as [k'|] eqn:Hk; [|done].
  apply lookup_seq in Hk as [-> Hk]. simpl in Hg. injection Hg as <-.
  apply arangeZ_elem. specialize (Hbox k Hk).
  rewrite (list_lookup_total_correct _ _ _ Hx) in Hbox. lia.
Qed.

Lemma NoDup_bind_key {A B} (l : list A) (f : A → list B) (key : B → A) :
  (∀ x y, y ∈ f x → key y = x) → (∀ x, x ∈ l → NoDup (f x)) → NoDup l →
  NoDup (l ≫= f).
Proof.
  intros Hkey Hf Hl. apply NoDup_bind; [|done..].
  intros x1 x2 y _ _ H1 H2. by rewrite <- (Hkey x1 y H1), <- (Hkey x2 y H2).
Qed.

Lemma cprod_NoDup (grids : list (list Z)) :
  Forall NoDup grids → NoDup (cprod grids).
Proof.
  induction 1 as [|g grids Hg Hgrids IH]; simpl; [apply NoDup_singleton|].
  apply (NoDup_bind_key _ _ (λ row, row !!! 0%nat)); [| |done].
  - intros x row (r & ->%list_elem_of_singleton & _)%list_elem_of_bind. done.
  - intros x _. apply (NoDup_bind_key _ _ tail); [| |done].
    + by intros r row ->%list_elem_of_singleton.
    + intros. apply NoDup_singleton.
Qed.

Lemma meshgrid_rows_NoDup (grids : list (list Z)) :
  Forall NoDup grids → NoDup (meshgrid_rows grids).
Proof.
  destruct grids as [|xs [|ys rest]]; try apply cprod_NoDup.
  intros (Hxs & (Hys & Hrest)%Forall_cons)%Forall_cons. unfold meshgrid_rows.
  apply (NoDup_bind_key _ _ (λ row, row !!! 1%nat)); [| |done].
  - intros y row (x & (r & ->%list_elem_of_singleton & _)%list_elem_of_bind
                    & _)%list_elem_of_bind. done.
  - intros y _. apply (NoDup_bind_key _ _ (λ row, row !!! 0%nat)); [| |done].
    + intros x row (r & ->%list_elem_of_singleton & _)%list_elem_of_bind. done.
    + intros x _. apply (NoDup_bind_key _ _ (λ row, tail (tail row))).
      * by intros r row ->%list_elem_of_singleton.
      * intros. apply NoDup_singleton.
      * by apply cprod_NoDup.
Qed.

Lemma join_fmap_bind {A B} (f : A → list B) (l : list A) :
  mjoin (f <$> l) = l ≫= f.
Proof. induction l as [|x l IH]; csimpl; [done|]. by rewrite IH. Qed.

Lemma Qltb_lt (x y : Q) : Qltb x y = true ↔ (x < y)%Q.
Proof.
  unfold Qltb. rewrite negb_true_iff. split.
  - intros Hb. apply Qnot_le_lt. intros Hle.
    apply Qle_bool_iff in Hle. congruence.
  - intros Hlt. destruct (Qle_bool y x) eqn:E; [|done].
    apply Qle_bool_iff in E. lra.
Qed.

Lemma zip_fmap_self {A B} (f : A → B) (l : list A) :
  zip (f <$> l) l = (λ x, (f x, x)) <$> l.
Proof. induction l; simpl; [done|]. by f_equal. Qed.

Section Candidates.
Context `{Numerics}.
Variable g : GriSPy.

(** The candidates of one centre, whatever the form of its cell list. *)
Lemma neighbor_distance_lookup centres cells i c cs :
  centres !! i = Some c → cells !! i = Some cs →
  _get_neighbor_distance g centres cells !! i
  = Some ((λ j, (metric_func c (data g !!! j), j)) <$>
            concat ((λ cell, default [] (grid_ g !! cell)) <$> cs)).
Proof.
  intros Hc Hcs. unfold _get_neighbor_distance.
  rewrite lookup_zip_with, Hc, Hcs. simpl. f_equal.
  destruct cs as [|cell cs]; [done|].
  unfold _distance, gather. rewrite <- list_fmap_compose.
  apply zip_fmap_self.
Qed.

Lemma neighbor_distance_length centres cells :
  length cells = length centres →
  length (_get_neighbor_distance g centres cells) = length centres.
Proof.
  intros Hlen. unfold _get_neighbor_distance.
  rewrite length_zip_with. lia.
Qed.

Lemma neighbor_cells_length centres upper lower flag :
  length (_get_neighbor_cells g centres upper lower flag) = length centres.
Proof.
  unfold _get_neighbor_cells. case_match.
  - by rewrite length_fmap.
  - by rewrite length_imap.
Qed.

(** No cell is listed twice for a centre. *)
Lemma neighbor_cells_NoDup centres upper lower flag i cs :
  _get_neighbor_cells g centres upper lower flag !! i = Some cs → NoDup cs.
Proof.
  unfold _get_neighbor_cells. case_match.
  - rewrite list_lookup_fmap. destruct (centres !! i); [|done].
    intros [= <-]. apply NoDup_nil_2.
  - rewrite list_lookup_imap. destruct (centres !! i); [|done].
    intros [= <-]. apply NoDup_filter, meshgrid_rows_NoDup.
    apply Forall_fmap, Forall_forall. intros k _. apply NoDup_seqZ.
Qed.

(** An element of the candidates is a point of some candidate cell. *)
Lemma candidate_elem (c : list Q) (cs : list (list Z)) (d : Q) (j : nat) :
  (d, j) ∈ (λ j, (metric_func c (data g !!! j), j)) <$>
             concat ((λ cell, default [] (grid_ g !! cell)) <$> cs)
  ↔ d = metric_func c (data g !!! j)
    ∧ ∃ cell l, cell ∈ cs ∧ grid_ g !! cell = Some l ∧ j ∈ l.
Proof.
  rewrite list_elem_of_fmap. split.
  - intros (j' & [= -> ->] & Hj). split; [done|].
    apply list_elem_of_join in Hj as (l & Hj & Hl).
    apply list_elem_of_fmap in Hl as (cell & -> & Hcell).
    destruct (grid_ g !! cell) as [l|] eqn:Hg; simpl in Hj.
    + eauto.
    + by apply elem_of_nil in Hj.
  - intros (-> & cell & l & Hcell & Hg & Hj). exists j. split; [done|].
    apply list_elem_of_join. exists l. split; [done|].
    apply list_elem_of_fmap. exists cell. by rewrite Hg.
Qed.
End Candidates.

(** ** Queries on a built index *)

Lemma forallb_lookup {A} (f : A → bool) (l : list A) i x :
  forallb f l = true → l !! i = Some x → f x = true.
Proof.
  intros Hall Hx. rewrite forallb_forall in Hall. apply Hall.
  apply list_elem_of_In. by eapply list_elem_of_lookup_2.
Qed.

Lemma existsb_seq_true (f : nat → bool) (n : nat) :
  existsb f (seq 0 n) = true ↔ ∃ k, (k < n)%nat ∧ f k = true.
Proof.
  rewrite existsb_exists. split.
  - intros (k & Hk & Hf). exists k. split; [|done].
    apply list_elem_of_In, elem_of_seq in Hk. lia.
  - intros (k & Hk & Hf). exists k. split; [|done].
    apply list_elem_of_In, elem_of_seq. lia.
Qed.

Section BuiltIndex.
Context `{Numerics}.
Variables (points : list (list Q)) (cells_per_axis : nat).
Variable pspec : gmap nat (option (Q * Q)).
Variable g : GriSPy.
Hypothesis Hvalid : valid_data points.
Hypothesis HN : (1 ≤ cells_per_axis)%nat.
Hypothesis Hsort : argsort_sorts_cells points cells_per_axis.
Hypothesis Hinit : GriSPy_init points cells_per_axis pspec = Some g.

Let lo (k : nat) : Q := (Qlist_min (column points k) - epsilon)%Q.
Let hi (k : nat) : Q := (Qlist_max (column points k) + epsilon)%Q.
Let bins (k : nat) : list Q := linspace (lo k) (hi k) (cells_per_axis + 1).
Let step (k : nat) : Q :=
  ((hi k - lo k) / inject_Z (Z.of_nat cells_per_axis))%Q.

(** An index that was built has an addressable array of edges. *)
Lemma built_addressable : addressable (cells_per_axis + 1).
Proof.
  unfold GriSPy_init, _build_grid in Hinit.
  by destruct (decide (addressable (cells_per_axis + 1))).
Qed.

Lemma built_fields :
  data g = points ∧ N_cells g = cells_per_axis
  ∧ dim_ g = data_dim points
  ∧ k_bins_ g = build_k_bins points cells_per_axis
  ∧ grid_holds (grid_digits points cells_per_axis) (grid_ g)
  ∧ periodic_flag_ g
    = ps_flag (_set_periodicity (data_dim points) pspec).
Proof.
  destruct (build_grid_holds points cells_per_axis Hvalid HN
              built_addressable Hsort) as (grid & Hb & Hg).
  unfold GriSPy_init in Hinit. rewrite Hb in Hinit. simpl in Hinit.
  injection Hinit as <-. simpl. done.
Qed.

Lemma built_bins (k : nat) :
  (k < dim_ g)%nat → k_bins_ g !!! k = bins k.
Proof.
  destruct built_fields as (_ & _ & Hdim & Hbins & _).
  rewrite Hdim, Hbins. intros Hk. by apply k_bins_lookup.
Qed.

Lemma built_cell_size (k : nat) :
  (k < dim_ g)%nat → (cell_size g !!! k == step k)%Q.
Proof.
  intros Hk. unfold cell_size.
  destruct built_fields as (_ & _ & Hdim & Hbins & _).
  rewrite (list_lookup_total_fmap (A := list Q) _ (k_bins_ g) k).
  2:{ rewrite Hbins. unfold build_k_bins.
      rewrite length_fmap, length_seq. by rewrite <- Hdim. }
  rewrite built_bins by done.
  apply (linspace_cell_size (lo k) (hi k) cells_per_axis HN).
Qed.

(** A data point, axis by axis: strictly inside the padded range, with a
    digit on the grid, within half a cell of the centre of its cell. *)
Lemma built_point (j : nat) (p : list Q) (k : nat) :
  points !! j = Some p → (k < dim_ g)%nat →
  ∃ d : Z,
    point_cell points (k_bins_ g) p !! k = Some d
    ∧ d = digitize1 (p !!! k) (bins k)
    ∧ (0 ≤ d < Z.of_nat cells_per_axis)%Z
    ∧ (lo k < p !!! k)%Q ∧ (p !!! k < hi k)%Q
    ∧ (Qabs (p !!! k - (bins k !!! Z.to_nat d + (1 # 2) * step k))
       <= (1 # 2) * step k)%Q.
Proof.
  intros Hp Hk.
  destruct built_fields as (_ & _ & Hdim & Hbins & _).
  assert (Hin : p ∈ points) by (by eapply list_elem_of_lookup_2).
  destruct (point_inside points p k Hin) as [Hlo Hhi].
  pose proof epsilon_pos as Heps.
  assert (Hsp : (lo k < hi k)%Q) by apply (axis_spread points Hvalid k).
  change (lo k + epsilon <= p !!! k)%Q in Hlo.
  change (p !!! k <= hi k - epsilon)%Q in Hhi.
  exists (digitize1 (p !!! k) (bins k)).
  assert (Hrange : (0 ≤ digitize1 (p !!! k) (bins k)
                    < Z.of_nat cells_per_axis)%Z).
  { apply digitize1_range; [done|done|apply built_addressable|lra|lra]. }
  split.
  { rewrite Hbins, point_cell_lookup by (by rewrite <- Hdim). done. }
  split; [done|]. split; [exact Hrange|].
  assert (Hlo' : (lo k <= p !!! k)%Q) by lra.
  assert (Hhi' : (p !!! k < hi k)%Q) by lra.
  split; [lra|]. split; [lra|].
  destruct (digitize1_bracket (lo k) (hi k) cells_per_axis Hsp HN
              (p !!! k) built_addressable Hlo' Hhi') as (_ & Hb1 & Hb2).
  fold (bins k) (step k) in Hb1, Hb2.
  set (d := digitize1 (p !!! k) (bins k)) in *.
  pose proof (linspace_lookup (lo k) (hi k) cells_per_axis HN
                (Z.to_nat d) ltac:(lia)) as Hd.
  fold (bins k) (step k) in Hd. rewrite Z2Nat.id in Hd by lia.
  apply Qabs_Qle_condition. split; lra.
Qed.

Lemma point_cell_at (p : list Q) (k : nat) (d : Z) :
  point_cell points (k_bins_ g) p !! k = Some d →
  point_cell points (k_bins_ g) p !!! k = d.
Proof. apply list_lookup_total_correct. Qed.

Section OneCentre.
Variables (c : list Q) (u : Q).
Hypothesis Hcoord :
  ∀ a b k, (k < dim_ g)%nat →
    (Qabs (a !!! k - b !!! k) <= metric_func a b)%Q.

(** A centre out of the field is farther than its bound from every
    data point. *)
Lemma out_of_field_far (j : nat) (p : list Q) :
  points !! j = Some p → out_of_field g c u = true →
  (u < metric_func c p)%Q.
Proof.
  intros Hp Hout. unfold out_of_field in Hout.
  apply existsb_seq_true in Hout as (k & Hk & Hout).
  destruct (built_point j p k Hp Hk) as (d & _ & _ & _ & Hlo & Hhi & _).
  rewrite built_bins in Hout by done.
  pose proof (axis_spread points Hvalid k) as Hsp.
  pose proof (linspace_first (lo k) (hi k) cells_per_axis HN) as Hf.
  pose proof (linspace_bins_last (lo k) (hi k) cells_per_axis HN) as Hl.
  fold (bins k) in Hf, Hl.
  pose proof (Hcoord c p k Hk) as Hck.
  apply Qabs_Qle_condition in Hck.
  apply orb_true_iff in Hout as [Hout|Hout]; apply Qltb_lt in Hout.
  - rewrite Hl in Hout. lra.
  - rewrite Hf in Hout. lra.
Qed.
End OneCentre.

Lemma cells_physical_lookup (cell : list Z) (k : nat) :
  (k < dim_ g)%nat →
  cells_physical g cell !!! k
  = ((k_bins_ g !!! k) !!! Z.to_nat (cell !!! k)
     + (1 # 2) * cell_size g !!! k)%Q.
Proof.
  intros Hk. unfold cells_physical.
  rewrite (list_lookup_total_fmap (A := nat) _ (seq 0 (dim_ g)) k)
    by (by rewrite length_seq).
  by rewrite lookup_total_seq_lt.
Qed.

Lemma clamp_cell_id (d : Z) :
  (0 ≤ d < Z.of_nat cells_per_axis)%Z → clamp_cell g d = d.
Proof.
  destruct built_fields as (_ & HNg & _). intros Hd. unfold clamp_cell.
  rewrite HNg. repeat case_decide; lia.
Qed.

Lemma clamp_cell_mono (x y : Z) :
  (x ≤ y)%Z → (clamp_cell g x ≤ clamp_cell g y)%Z.
Proof.
  destruct built_fields as (_ & HNg & _). intros Hxy. unfold clamp_cell.
  rewrite HNg. repeat case_decide; lia.
Qed.

(** The centre of the cell of a data point is within the cell radius of
    the point. *)
Lemma point_near_cell_centre (j : nat) (p : list Q) :
  metric_fits g → points !! j = Some p →
  (metric_func p (cells_physical g (point_cell points (k_bins_ g) p))
   <= cell_radii g)%Q.
Proof.
  intros (Hcoord & Htri & Hsym & Hbox) Hp.
  apply Hbox. intros k Hk.
  destruct (built_point j p k Hp Hk) as (d & Hd & _ & Hr & _ & _ & Habs).
  rewrite cells_physical_lookup, built_bins by done.
  rewrite (point_cell_at p k d Hd).
  pose proof (built_cell_size k Hk) as Hsize.
  apply Qabs_Qle_condition in Habs. apply Qabs_Qle_condition.
  split; lra.
Qed.

(** The cell of a point strictly inside the upper bound passes the
    pruning test. *)
Lemma cell_in_reach_inside (c : list Q) (u : Q) (j : nat) (p : list Q) :
  metric_fits g → points !! j = Some p →
  (metric_func c p < u)%Q → cell_in_reach g c u p.
Proof.
  intros Hfits Hp Hnear.
  pose proof (point_near_cell_centre j p Hfits Hp) as Hcc.
  destruct Hfits as (Hcoord & Htri & Hsym & Hbox).
  destruct built_fields as (Hdata & _).
  unfold cell_in_reach. rewrite Hdata.
  pose proof (Htri c p (cells_physical g (point_cell points (k_bins_ g) p))).
  lra.
Qed.

(** The box of cells of a centre holds the cell of every point within the
    upper bound, as long as the upper end of the search interval does not
    overflow; the pruning keeps that cell when it passes the test (and,
    for a shell, when the point is beyond the lower bound). *)
Lemma point_in_neighbor_cells centres upper lower (flag : bool) i c u j p :
  metric_fits g →
  centres !! i = Some c → upper !! i = Some u → points !! j = Some p →
  (metric_func c p <= u)%Q → reach_fits g c u → cell_in_reach g c u p →
  (flag = true → (lower !!! i < metric_func c p)%Q) →
  ∃ cs, _get_neighbor_cells g centres upper lower flag !! i = Some cs
        ∧ point_cell points (k_bins_ g) p ∈ cs.
Proof.
  intros Hfits Hc Hu Hp Hnear Hreach Hcell Hfar.
  pose proof (point_near_cell_centre j p Hfits Hp) as Hcc.
  destruct Hfits as (Hcoord & Htri & Hsym & Hbox).
  destruct built_fields as (Hdata & _ & Hdim & Hbins & _).
  unfold cell_in_reach in Hcell. rewrite Hdata in Hcell.
  unfold _get_neighbor_cells.
  destruct (forallb _ (zip centres upper)) eqn:Hall.
  { assert (zip centres upper !! i = Some (c, u)) as Hz.
    { by rewrite lookup_zip_with, Hc, Hu. }
    pose proof (forallb_lookup _ _ _ _ Hall Hz) as Hout. simpl in Hout.
    pose proof (out_of_field_far c u Hcoord j p Hp Hout). lra. }
  rewrite list_lookup_imap, Hc. simpl. eexists. split; [done|].
  rewrite (list_lookup_total_correct _ _ _ Hu).
  set (cell := point_cell points (k_bins_ g) p) in *.
  apply list_elem_of_filter. split.
  - apply andb_True. split.
    + by apply Is_true_true, Qltb_lt.
    + apply orb_True. destruct flag; [right|by left].
      apply Is_true_true, Qltb_lt. specialize (Hfar eq_refl).
      pose proof (Htri c (cells_physical g cell) p).
      pose proof (Hsym (cells_physical g cell) p). lra.
  - apply box_elem.
    { unfold cell. rewrite Hbins, Hdim. apply point_cell_length. }
    intros k Hk.
    destruct (built_point j p k Hp Hk) as (d & Hd & Hdd & Hr & Hlo & Hhi & _).
    unfold cell. rewrite (point_cell_at p k d Hd).
    unfold k_cell_min, k_cell_max. rewrite built_bins by done.
    pose proof (Hcoord c p k Hk) as Hck.
    apply Qabs_Qle_condition in Hck.
    pose proof (axis_spread points Hvalid k) as Hsp.
    pose proof (Hreach k Hk) as Hfit. rewrite built_bins in Hfit by done.
    split.
    + rewrite <- (clamp_cell_id d Hr). subst d. apply clamp_cell_mono.
      apply (digitize1_mono (lo k) (hi k) cells_per_axis Hsp HN); [lra|].
      apply (scaled_offset_fits (lo k) (hi k) cells_per_axis Hsp HN);
        [apply built_addressable|done].
    + rewrite <- (clamp_cell_id d Hr). subst d. apply clamp_cell_mono.
      apply (digitize1_mono (lo k) (hi k) cells_per_axis Hsp HN); [lra|done].
Qed.

(** *** Without periodic axes *)

Lemma neighbor_cells_lookup centres upper lower flag i (c : list Q) :
  centres !! i = Some c →
  ∃ cs, _get_neighbor_cells g centres upper lower flag !! i = Some cs.
Proof.
  intros Hc. apply lookup_lt_is_Some_2.
  rewrite neighbor_cells_length. by eapply lookup_lt_Some.
Qed.

Lemma bubble_neighbors_lookup centres b i c :
  periodic_flag_ g = false → centres !! i = Some c →
  ∃ cs,
    _get_neighbor_cells g centres (match_shape b centres) [] false !! i
    = Some cs
    ∧ bubble_neighbors g centres b false !! i
      = Some (filter (λ di : Q * nat,
                        Qle_bool di.1 (match_shape b centres !!! i))
                ((λ j, (metric_func c (data g !!! j), j)) <$>
                   concat ((λ cell, default [] (grid_ g !! cell)) <$> cs))).
Proof.
  intros Hflag Hc.
  destruct (neighbor_cells_lookup centres (match_shape b centres) [] false
              i c Hc) as [cs Hcs].
  exists cs. split; [done|]. unfold bubble_neighbors, merge_terran.
  rewrite Hflag, list_lookup_imap.
  by rewrite (neighbor_distance_lookup g centres _ i c cs Hc Hcs).
Qed.

Lemma shell_neighbors_lookup centres bl bu i c :
  periodic_flag_ g = false → centres !! i = Some c →
  ∃ cs,
    _get_neighbor_cells g centres (match_shape bu centres)
      (match_shape bl centres) true !! i = Some cs
    ∧ shell_neighbors g centres bl bu false !! i
      = Some (filter (λ di : Q * nat,
                        Qltb (match_shape bl centres !!! i) di.1)
                (filter (λ di : Q * nat,
                           Qle_bool di.1 (match_shape bu centres !!! i))
                   ((λ j, (metric_func c (data g !!! j), j)) <$>
                      concat ((λ cell, default [] (grid_ g !! cell))
                                <$> cs)))).
Proof.
  intros Hflag Hc.
  destruct (neighbor_cells_lookup centres (match_shape bu centres)
              (match_shape bl centres) true i c Hc) as [cs Hcs].
  exists cs. split; [done|]. unfold shell_neighbors, merge_terran.
  rewrite Hflag, list_lookup_imap.
  by rewrite (neighbor_distance_lookup g centres _ i c cs Hc Hcs).
Qed.

(** Every candidate is a data point with its distance to the centre. *)
Lemma candidate_sound (c : list Q) (cs : list (list Z)) (d : Q) (j : nat) :
  (d, j) ∈ (λ j, (metric_func c (data g !!! j), j)) <$>
             concat ((λ cell, default [] (grid_ g !! cell)) <$> cs) →
  (j < length points)%nat ∧ d = metric_func c (points !!! j).
Proof.
  destruct built_fields as (Hdata & _ & _ & _ & Hg & _).
  intros (-> & cell & l & _ & Hl & Hj)%candidate_elem.
  rewrite Hdata. split; [|done].
  pose proof (grid_holds_sound _ _ _ _ _ Hg Hl Hj) as Hd.
  apply lookup_lt_Some in Hd. by rewrite grid_digits_length in Hd.
Qed.

(** A point whose cell is a candidate cell is a candidate. *)
Lemma candidate_complete (c : list Q) (cs : list (list Z)) (j : nat) p :
  points !! j = Some p → point_cell points (k_bins_ g) p ∈ cs →
  (metric_func c p, j) ∈
    (λ j, (metric_func c (data g !!! j), j)) <$>
      concat ((λ cell, default [] (grid_ g !! cell)) <$> cs).
Proof.
  destruct built_fields as (Hdata & _ & _ & Hbins & Hg & _).
  intros Hp Hcell. apply candidate_elem. split.
  { by rewrite Hdata, (list_lookup_total_correct _ _ _ Hp). }
  pose proof (grid_digits_lookup points cells_per_axis j p Hp) as Hd.
  rewrite <- Hbins in Hd.
  destruct (grid_holds_complete _ _ _ _ Hg Hd) as (l & Hl & Hj).
  eauto.
Qed.

(** No point is a candidate twice. *)
Lemma candidate_NoDup (c : list Q) (cs : list (list Z))
    (P : Q * nat → Prop) `{!∀ x, Decision (P x)} :
  NoDup cs →
  NoDup (filter P ((λ j, (metric_func c (data g !!! j), j)) <$>
                     concat ((λ cell, default [] (grid_ g !! cell)) <$> cs))).*2.
Proof.
  destruct built_fields as (_ & _ & _ & _ & Hg & _). intros Hcs.
  set (ind := concat _).
  assert (NoDup ind) as Hind.
  { unfold ind. rewrite join_fmap_bind. apply NoDup_bind; [| |done].
    - intros c1 c2 j _ _ H1 H2.
      destruct (grid_ g !! c1) as [l1|] eqn:E1; simpl in H1;
        [|by apply elem_of_nil in H1].
      destruct (grid_ g !! c2) as [l2|] eqn:E2; simpl in H2;
        [|by apply elem_of_nil in H2].
      pose proof (grid_holds_sound _ _ _ _ _ Hg E1 H1).
      pose proof (grid_holds_sound _ _ _ _ _ Hg E2 H2). congruence.
    - intros cell _. destruct (grid_ g !! cell) as [l|] eqn:E; simpl.
      + by eapply grid_holds_NoDup.
      + apply NoDup_nil_2. }
  eapply (sublist_NoDup _ ind); [done|].
  etrans; [apply fmap_sublist, sublist_filter|].
  rewrite <- list_fmap_compose. replace (snd ∘ _) with (@id nat) by done.
  by rewrite list_fmap_id.
Qed.

(** What [bubble_neighbors] returns for one centre of an index without
    periodic axes: only points within the radius, and, when the upper end
    of the search interval does not overflow, every point within the
    radius whose cell passes the pruning test, so every point strictly
    inside the radius. *)
Lemma bubble_neighbors_spec centres b i c r :
  periodic_flag_ g = false → metric_fits g →
  centres !! i = Some c → match_shape b centres !! i = Some r →
  ∃ res, bubble_neighbors g centres b false !! i = Some res
    ∧ NoDup res.*2
    ∧ (∀ d j, (d, j) ∈ res →
         (j < length points)%nat ∧ d = metric_func c (points !!! j)
         ∧ (d <= r)%Q)
    ∧ (reach_fits g c r →
       ∀ j, (j < length points)%nat →
         (metric_func c (points !!! j) <= r)%Q →
         cell_in_reach g c r (points !!! j) →
         (metric_func c (points !!! j), j) ∈ res)
    ∧ (reach_fits g c r →
       ∀ j, (j < length points)%nat →
         (metric_func c (points !!! j) < r)%Q →
         (metric_func c (points !!! j), j) ∈ res).
Proof.
  intros Hflag Hfits Hc Hr.
  destruct (bubble_neighbors_lookup centres b i c Hflag Hc)
    as (cs & Hcs & ->).
  rewrite (list_lookup_total_correct _ _ _ Hr).
  eexists. split; [done|].
  split; [by eapply candidate_NoDup, neighbor_cells_NoDup|].
  assert (Hcomplete : reach_fits g c r →
    ∀ j, (j < length points)%nat →
      (metric_func c (points !!! j) <= r)%Q →
      cell_in_reach g c r (points !!! j) →
      (metric_func c (points !!! j), j)
      ∈ filter (λ di : Q * nat, Qle_bool di.1 r)
          ((λ j, (metric_func c (data g !!! j), j)) <$>
             concat ((λ cell, default [] (grid_ g !! cell)) <$> cs))).
  { intros Hreach j Hj Hnear Hcell.
    destruct (lookup_lt_is_Some_2 points j Hj) as [p Hp].
    rewrite (list_lookup_total_correct _ _ _ Hp) in *.
    destruct (point_in_neighbor_cells centres (match_shape b centres) []
                false i c r j p Hfits Hc Hr Hp Hnear Hreach Hcell
                ltac:(done)) as (cs' & Hcs' & Hin).
    assert (cs' = cs) as -> by congruence.
    apply list_elem_of_filter. split.
    + simpl. by apply Is_true_true, Qle_bool_iff.
    + by apply candidate_complete. }
  split_and!.
  - intros d j [Hd Hin]%list_elem_of_filter. simpl in Hd.
    destruct (candidate_sound c cs d j Hin) as [Hj ->].
    split_and!; [done|done|]. by apply Qle_bool_iff, Is_true_true.
  - exact Hcomplete.
  - intros Hreach j Hj Hnear. apply Hcomplete; [done|done|lra|].
    destruct (lookup_lt_is_Some_2 points j Hj) as [p Hp].
    rewrite (list_lookup_total_correct _ _ _ Hp) in *.
    by eapply cell_in_reach_inside.
Qed.


(** A centre out of the field gets no neighbour from an index without
    periodic axes, alone or in a batch. *)
Lemma bubble_neighbors_out_of_field centres b i c r :
  periodic_flag_ g = false →
  (∀ a b k, (k < dim_ g)%nat →
     (Qabs (a !!! k - b !!! k) <= metric_func a b)%Q) →
  centres !! i = Some c → match_shape b centres !! i = Some r →
  out_of_field g c r = true →
  bubble_neighbors g centres b false !! i = Some [].
Proof.
  intros Hflag Hcoord Hc Hr Hout.
  destruct (bubble_neighbors_lookup centres b i c Hflag Hc)
    as (cs & Hcs & ->).
  rewrite (list_lookup_total_correct _ _ _ Hr). f_equal.
  apply filter_none, Forall_forall. intros [d j] Hin Hd. simpl in Hd.
  destruct (candidate_sound c cs d j Hin) as [Hj ->].
  destruct (lookup_lt_is_Some_2 points j Hj) as [p Hp].
  rewrite (list_lookup_total_correct _ _ _ Hp) in Hd.
  pose proof (out_of_field_far c r Hcoord j p Hp Hout).
  apply Is_true_true, Qle_bool_iff in Hd. lra.
Qed.
End BuiltIndex.

(** ** The distance on one axis *)

Lemma Qabs_bounds (x : Q) : (- Qabs x <= x)%Q ∧ (x <= Qabs x)%Q.
Proof. apply Qabs_Qle_condition. apply Qle_refl. Qed.

Lemma euclid1_nonneg (a b : list Q) : (0 <= euclid1 a b)%Q.
Proof. apply Qabs_nonneg. Qed.

Lemma axis1_metric_fits (g : GriSPy) :
  dim_ g = 1%nat →
  ((1 # 2) * cell_size g !!! 0%nat <= cell_radii (H := axis1) g)%Q →
  metric_fits (H := axis1) g.
Proof.
  intros Hdim Hrad. unfold metric_fits. simpl. rewrite Hdim. split_and!.
  - intros a b k Hk. assert (k = 0%nat) as -> by lia. apply Qle_refl.
  - intros a b c. unfold euclid1.
    destruct (Qabs_bounds (a !!! 0%nat - b !!! 0%nat)).
    destruct (Qabs_bounds (b !!! 0%nat - c !!! 0%nat)).
    apply Qabs_Qle_condition. clear Hrad. split; lra.
  - intros a b. unfold euclid1. by rewrite Qabs_Qminus.
  - intros p cc Hk. unfold euclid1.
    specialize (Hk 0%nat ltac:(lia)). eapply Qle_trans; [exact Hk|exact Hrad].
Qed.

(** ** The queries without periodic axes *)



(** C10, as amended: on an index built over a valid data set without
    periodic axes, with a distance that is at least the offset along every
    axis, a centre whose radius-expanded box lies beyond the grid on some
    axis gets an empty result, alone or in a batch with other centres. *)
Theorem out_of_field_empty `{Numerics} (points : list (list Q))
    (N_cells : nat) (pspec : gmap nat (option (Q * Q))) (g : GriSPy)
    (centres : list (list Q)) (r : Q) :
  valid_data points → (1 ≤ N_cells)%nat → argsort_sorts_cells points N_cells →
  GriSPy_init points N_cells pspec = Some g →
  periodic_flag_ g = false →
  (∀ a b k, (k < dim_ g)%nat →
     (Qabs (a !!! k - b !!! k) <= metric_func a b)%Q) →
  out_of_field_is_empty g centres r.
Proof.
  intros Hvalid HN Hs Hg Hf Hcoord i c Hc Hout.
  apply (bubble_neighbors_out_of_field points N_cells pspec g Hvalid HN Hs Hg
           centres (Scalar r) i c r); try done.
  simpl. rewrite lookup_replicate_2; [done|]. by eapply lookup_lt_Some.
Qed.


Lemma line3_built (N : nat) :
  N = 1%nat ∨ N = 2%nat →
  GriSPy_init (H := axis1) line3 N ∅ = Some (built line3 N ∅)
  ∧ periodic_flag_ (built line3 N ∅) = false
  ∧ metric_fits (H := axis1) (built line3 N ∅).
Proof.
  intros [-> | ->].
  - split_and!; [by vm_compute|done|].
    apply axis1_metric_fits; [done|]. by apply Qle_bool_iff.
  - split_and!; [by vm_compute|done|].
    apply axis1_metric_fits; [done|]. by apply Qle_bool_iff.
Defined.

(** On the three points of [line3] no search interval of the examples
    comes near the 64-bit range. *)
Lemma line3_reach (N : nat) (u : Q) :
  N = 1%nat ∨ N = 2%nat →
  (scaled_offset ((1 # 4) + u) (k_bins_ (built line3 N ∅) !!! 0%nat)
   < inject_Z (int64_max + 1))%Q →
  reach_fits (built line3 N ∅) [(1 # 4)%Q] u.
Proof.
  intros HN Hu k Hk. assert (k = 0%nat) as ->; [|exact Hu].
  destruct HN as [-> | ->]; vm_compute in Hk; lia.
Defined.



Lemma out_of_field_empty_witness :
  out_of_field (built line3 2 ∅) [3%Q] (1 # 3)%Q = true
  ∧ out_of_field_is_empty (H := axis1) (built line3 2 ∅) line3_centres
      (1 # 3)%Q.
Proof.
  split; [by vm_compute|].
  destruct (line3_built 2 ltac:(by right)) as (Hb2 & Hf2 & Hm2).
  apply (out_of_field_empty (H := axis1) line3 2 ∅ (built line3 2 ∅)
           line3_centres (1 # 3)%Q);
    [exact line3_valid|lia|exact line3_argsort|exact Hb2|exact Hf2
    |exact (proj1 Hm2)].
Defined.

(** ** Periodic axes *)

(** C8: with axis 0 periodic on 0..10, the point at 9.9 (index 0) is a
    neighbour of the centre at 0.1 within radius 0.5: the first pass finds
    only the point at 0.3, the centre is mirrored to 10.1, and the pass over
    the mirrored centre adds the point at 9.9.  The same query on the index
    built without periodicity returns the point at 0.3 alone. *)
Theorem periodic_wrap_around :
  GriSPy_init (H := axis1) wrap_points 20 wrap_domain
    = Some (built wrap_points 20 wrap_domain)
  ∧ GriSPy_init (H := axis1) wrap_points 20 ∅ = Some (built wrap_points 20 ∅)
  ∧ _mirror_universe (built wrap_points 20 wrap_domain) wrap_centres
      [(1 # 2)%Q] = ([[(101 # 10)%Q]], [0%nat])
  ∧ map (map snd)
      (bubble_neighbors (H := axis1) (built wrap_points 20 wrap_domain)
         wrap_centres (Scalar (1 # 2)%Q) false) = [[2%nat; 0%nat]]
  ∧ map (map snd)
      (bubble_neighbors (H := axis1) (built wrap_points 20 ∅)
         wrap_centres (Scalar (1 # 2)%Q) false) = [[2%nat]].
Proof. split_and!; by vm_compute. Qed.



(** C10, as stated, fails on an index with a periodic axis: the grid of the
    single point at 0.2 ends just above 0.2, the centre at 9.9 with radius
    0.5 is out of the field, and it still gets the point, through its
    mirror at -0.1. *)
Lemma out_of_field_counterexample :
  GriSPy_init (H := axis1) low_point 20 wrap_domain
    = Some (built low_point 20 wrap_domain)
  ∧ ¬ out_of_field_is_empty (H := axis1) (built low_point 20 wrap_domain)
        high_centres (1 # 2)%Q.
Proof.
  split; [by vm_compute|]. intros Hex.
  specialize (Hex 0%nat [(99 # 10)%Q] eq_refl).
  vm_compute in Hex. specialize (Hex eq_refl). discriminate.
Qed.

(** ** A shell from zero *)

Lemma replicate_zero_lookup_total (n i : nat) : replicate n 0%Q !!! i = 0%Q.
Proof.
  destruct (decide (i < n)%nat).
  - by apply lookup_total_replicate_2.
  - rewrite list_lookup_total_alt.
    by rewrite (proj1 (lookup_replicate_None n 0%Q i)) by lia.
Qed.

Lemma neighbor_cells_from_zero `{Numerics} (g : GriSPy)
    (centres : list (list Q)) (upper : list Q) (n : nat) :
  (∀ a b, (0 <= metric_func a b)%Q) → (0 < cell_radii g)%Q →
  _get_neighbor_cells g centres upper (replicate n 0%Q) true
  = _get_neighbor_cells g centres upper [] false.
Proof.
  intros Hpos Hrad. unfold _get_neighbor_cells. case_match; [done|].
  apply imap_ext. intros i c _. simpl.
  apply list_filter_iff. intros cell.
  rewrite replicate_zero_lookup_total. simpl.
  rewrite !andb_True. split.
  - intros [? _]. done.
  - intros [? _]. split; [done|].
    apply Is_true_true, Qltb_lt.
    pose proof (Hpos c (cells_physical g cell)). lra.
Qed.

(** C5, as amended: with a distance that is never negative and a grid of
    positive cell radius, [shell_neighbors] with lower bound 0 returns, for
    every centre, the pairs of [bubble_neighbors] with the same upper bound
    whose distance is not zero, in the same order. *)
Theorem shell_from_zero_drops_coincident `{Numerics} (g : GriSPy)
    (centres : list (list Q)) (b : bound) :
  (∀ a b, (0 <= metric_func a b)%Q) → (0 < cell_radii g)%Q →
  shell_neighbors g centres (Scalar 0%Q) b false
  = map (filter (λ di : Q * nat, Qltb 0 di.1))
        (bubble_neighbors g centres b false).
Proof.
  intros Hpos Hrad. unfold shell_neighbors, bubble_neighbors. simpl.
  rewrite (neighbor_cells_from_zero g centres _ _ Hpos Hrad).
  apply list_eq. intros i.
  rewrite list_lookup_fmap, !list_lookup_imap.
  destruct (merge_terran g centres _ _ !! i) as [nb|]; [|done]. simpl.
  by rewrite replicate_zero_lookup_total.
Qed.

Lemma shell_from_zero_drops_coincident_witness :
  shell_neighbors (H := axis1) (built line3 2 ∅) line3_centres
    (Scalar 0%Q) (Scalar (1 # 3)%Q) false
  = map (filter (λ di : Q * nat, Qltb 0 di.1))
        (bubble_neighbors (H := axis1) (built line3 2 ∅) line3_centres
           (Scalar (1 # 3)%Q) false).
Proof.
  apply (shell_from_zero_drops_coincident (H := axis1) (built line3 2 ∅)
           line3_centres (Scalar (1 # 3)%Q)).
  - exact euclid1_nonneg.
  - reflexivity.
Defined.

(** C5, as stated, fails for a centre on a data point: around the centre 0
    of the single point 0, the bubble of radius 1 holds the point and the
    shell from 0 to 1 is empty. *)
Lemma shell_from_zero_counterexample :
  GriSPy_init (H := axis1) [[0%Q]] 20 ∅ = Some (built [[0%Q]] 20 ∅)
  ∧ ¬ shell_from_zero_is_bubble (H := axis1) (built [[0%Q]] 20 ∅)
        [[0%Q]] 1%Q.
Proof.
  split; [by vm_compute|]. unfold shell_from_zero_is_bubble.
  vm_compute. discriminate.
Qed.

(** ** The expanding-shell search *)

Lemma nn_loop_done `{Numerics} (g : GriSPy) fuel centres n st :
  forallb id (n_found st) = true →
  nn_loop g fuel centres n st = Some (neighbors st).
Proof. intros Hall. destruct fuel; simpl; by rewrite Hall. Qed.

Lemma nn_loop_step `{Numerics} (g : GriSPy) fuel centres n st :
  forallb id (n_found st) = false →
  nn_loop g (S fuel) centres n st
  = nn_loop g fuel centres n (nn_round g centres n st).
Proof. intros Hall. simpl. by rewrite Hall. Qed.

(** C2 fails on the code: for the points 0 and 10 in one cell and the
    centres 5 and -20, two neighbours each, the loop ends in its third round
    and returns the point 0 twice for the second centre, at distance 20, and
    never the point 10 at distance 30.  The second centre is at position 0
    of the second round, and the bounds updated there are those of the
    first centre; the third round searches the same shell again. *)
Theorem nearest_neighbors_repeats_point (fuel : nat) :
  GriSPy_init (H := axis1) far_points 1 ∅ = Some far_index
  ∧ nearest_neighbors (H := axis1) far_index (3 + fuel) near_batch 2
    = Some [[(5%Q, 0%nat); (5%Q, 1%nat)]; [(20%Q, 0%nat); (20%Q, 0%nat)]]
  ∧ (euclid1 [(-20)%Q] (far_points !!! 1%nat) == 30)%Q.
Proof.
  split; [by vm_compute|]. split; [|by vm_compute].
  unfold nearest_neighbors. change (3 + fuel)%nat with (S (S (S fuel))).
  rewrite nn_loop_step by (by vm_compute).
  rewrite nn_loop_step by (by vm_compute).
  rewrite nn_loop_step by (by vm_compute).
  rewrite nn_loop_done by (by vm_compute).
  by vm_compute.
Qed.

Lemma stuck_round (l0 u0 : Q) :
  nn_round (H := axis1) far_index far_batch 2 (stuck_state l0 u0)
  = stuck_state u0 (u0 + Qlist_min (cell_size far_index))%Q.
Proof.
  unfold nn_round, stuck_state.
  cbn [n_found lower_distance_tmp upper_distance_tmp neighbors].
  change (not_found [true; false]) with [1%nat].
  change (gather far_batch [1%nat]) with [[(-30)%Q]].
  change (gather [l0; stuck_lower] [1%nat]) with [stuck_lower].
  change (gather [u0; stuck_upper] [1%nat]) with [stuck_upper].
  assert (shell_neighbors (H := axis1) far_index [[(-30)%Q]]
            (PerCentre [stuck_lower]) (PerCentre [stuck_upper]) false
          = [[]]) as -> by (by vm_compute).
  reflexivity.
Qed.

Lemma stuck_loop (fuel : nat) (l0 u0 : Q) :
  nn_loop (H := axis1) far_index fuel far_batch 2 (stuck_state l0 u0) = None.
Proof.
  revert l0 u0. induction fuel as [|fuel IH]; intros l0 u0; [done|].
  rewrite nn_loop_step by done. rewrite stuck_round. apply IH.
Qed.

(** C3 fails on the code: for the points 0 and 10 in one cell and the
    centres 5 and -30, two neighbours each, the loop never ends.  The first
    centre is done after the first round; from the second round on the
    second centre is at position 0 of the searched centres, the bounds
    updated there are those of the first centre, and its own upper radius
    stays where it is, with an empty shell. *)
Theorem nearest_neighbors_never_ends :
  GriSPy_init (H := axis1) far_points 1 ∅ = Some far_index
  ∧ (∀ fuel,
       nearest_neighbors (H := axis1) far_index fuel far_batch 2 = None)
  ∧ (∀ l0 u0,
       upper_distance_tmp
         (nn_round (H := axis1) far_index far_batch 2 (stuck_state l0 u0))
         !! 1%nat
       = upper_distance_tmp (stuck_state l0 u0) !! 1%nat).
Proof.
  split; [by vm_compute|]. split.
  - intros fuel. unfold nearest_neighbors.
    destruct fuel as [|[|fuel]]; [by vm_compute|by vm_compute|].
    rewrite nn_loop_step by (by vm_compute).
    rewrite nn_loop_step by (by vm_compute).
    assert (∃ l0 u0,
      nn_round (H := axis1) far_index far_batch 2
        (nn_round (H := axis1) far_index far_batch 2
           (nn_init (H := axis1) far_index far_batch 2))
      = stuck_state l0 u0) as (l0 & u0 & ->).
    { eexists _, _. vm_compute. reflexivity. }
    apply stuck_loop.
  - intros l0 u0. by rewrite stuck_round.
Qed.

(** ** Boundary cases *)

(** A radius beyond the 64-bit range of the digits.  For the three points
    of [line3] and the centre 1/4 the radius 1 returns all three points
    from the index of two cells; with the radius [10^20] the digit of
    centre plus radius is the most negative integer, the upper cell of the
    box is clamped to 0, and only the point of cell 0 is left.  The index
    of one cell returns all three points for both radii. *)
Example radius_overflow_loses_points :
  map (map snd)
    (bubble_neighbors (H := axis1) (built line3 2 ∅) [[(1 # 4)%Q]]
       (Scalar 1%Q) false) = [[1%nat; 0%nat; 2%nat]]
  ∧ k_cell_max (built line3 2 ∅) [(1 # 4)%Q] (inject_Z (10 ^ 20)) 0 = 0%Z
  ∧ map (map snd)
      (bubble_neighbors (H := axis1) (built line3 2 ∅) [[(1 # 4)%Q]]
         (Scalar (inject_Z (10 ^ 20))) false) = [[1%nat]]
  ∧ map (map snd)
      (bubble_neighbors (H := axis1) (built line3 1 ∅) [[(1 # 4)%Q]]
         (Scalar (inject_Z (10 ^ 20))) false) = [[0%nat; 1%nat; 2%nat]]
  ∧ map (map snd)
      (shell_neighbors (H := axis1) (built line3 2 ∅) [[(1 # 4)%Q]]
         (Scalar (1 # 10)%Q) (Scalar (inject_Z (10 ^ 20))) false)
    = [[1%nat]].
Proof. split_and!; by vm_compute. Qed.

(** A tie in the pruning test, in exact arithmetic.  The point 1/2 of
    [line3] is the lower corner of the second of two cells; for the centre
    1/4 and radius 1/4 the centre of that cell is exactly radius plus cell
    radius away.  Over the rationals the strict test fails, the cell is
    dropped, and the point, at distance exactly 1/4, comes from the
    one-cell index only.  With floating-point numbers the two sides of
    such a tie are rounded separately and the comparison can go either
    way, which is why the theorems on the points at exactly the bound ask
    for a cell that passes the test. *)
Example pruning_drops_corner_point :
  map (map snd)
    (bubble_neighbors (H := axis1) (built line3 1 ∅) [[(1 # 4)%Q]]
       (Scalar (1 # 4)%Q) false) = [[1%nat; 2%nat]]
  ∧ map (map snd)
      (bubble_neighbors (H := axis1) (built line3 2 ∅) [[(1 # 4)%Q]]
         (Scalar (1 # 4)%Q) false) = [[1%nat]]
  ∧ (euclid1 [(1 # 4)%Q] (line3 !!! 2%nat) == 1 # 4)%Q
  ∧ (euclid1 [(1 # 4)%Q]
       (cells_physical (built line3 2 ∅) [1%Z])
     == (1 # 4) + cell_radii (H := axis1) (built line3 2 ∅))%Q.
Proof. split_and!; by vm_compute. Qed.

(** The first shell of the nearest-neighbour search has the exclusive lower
    bound 0: a data point on the centre is never returned.  For the points 0
    and 1 and the centre 0 the nearest neighbour returned is the point 1. *)
Example nearest_neighbors_skips_coincident :
  map (map snd) <$>
    nearest_neighbors (H := axis1) (built [[0%Q]; [1%Q]] 20 ∅) 30 [[0%Q]] 1
  = Some [[1%nat]].
Proof. by vm_compute. Qed.

(** * Further properties of the grid and of the queries *)

(** ** The grid: edges, keys and cells *)

(** What the constructor stores, whatever the data. *)
Lemma init_fields `{Numerics} (points : list (list Q)) (N : nat)
    (pspec : gmap nat (option (Q * Q))) (g : GriSPy) :
  GriSPy_init points N pspec = Some g →
  data g = points ∧ N_cells g = N ∧ dim_ g = data_dim points
  ∧ k_bins_ g = build_k_bins points N
  ∧ _build_grid points N = Some (grid_ g, k_bins_ g).
Proof.
  unfold GriSPy_init. intros Hinit.
  destruct (_build_grid points N) as [[grid bins]|] eqn:Hb; [|done].
  simpl in Hinit. injection Hinit as <-. simpl. split_and!; try done.
  unfold _build_grid in Hb. case_decide; [|done]. case_decide.
  - destruct (build_grid_dense _ _ _); [|done]. simpl in Hb. congruence.
  - congruence.
Qed.

(** The constructor succeeds only with an addressable array of edges. *)
Lemma init_addressable `{Numerics} (points : list (list Q)) (N : nat)
    (pspec : gmap nat (option (Q * Q))) (g : GriSPy) :
  GriSPy_init points N pspec = Some g → addressable (N + 1).
Proof.
  unfold GriSPy_init, _build_grid. intros Hinit.
  by destruct (decide (addressable (N + 1))).
Qed.

(** Every edge, the last one included, is the first edge plus a whole
    number of steps. *)
Lemma linspace_edge (a b : Q) (N : nat) (HN : (1 ≤ N)%nat) (i : nat) :
  (i ≤ N)%nat →
  (linspace a b (N + 1) !!! i
   == a + inject_Z (Z.of_nat i) * ((b - a) / inject_Z (Z.of_nat N)))%Q.
Proof.
  intros Hi. destruct (decide (i = N)) as [->|Hne].
  - rewrite (linspace_last a b N HN).
    pose proof (inject_N_pos N HN). field. lra.
  - apply (linspace_lookup a b N HN). lia.
Qed.

(** X1: [_digitize] is monotone up to the 64-bit range.  For bin edges
    whose first entry is below the last, a larger value never gets a
    smaller bin index, whether the values are inside or outside the range
    of the edges, as long as the scaled offset of the larger value is
    below [2^63]; beyond that the cast gives the most negative integer. *)
Theorem digitize_monotone (bins : list Q) (x y : Q) :
  (bins_first bins < bins_last bins)%Q → (x <= y)%Q →
  (scaled_offset y bins < inject_Z (int64_max + 1))%Q →
  (digitize1 x bins ≤ digitize1 y bins)%Z.
Proof.
  intros Hfl Hxy Hfit. unfold digitize1.
  apply astype_int_mono; [|exact Hfit].
  assert (HN : (0 <= inject_Z (Z.of_nat (length bins) - 1))%Q).
  { change 0%Q with (inject_Z 0). rewrite <- Zle_Qle.
    destruct bins; [vm_compute in Hfl; discriminate|]. simpl length. lia. }
  set (n := inject_Z (Z.of_nat (length bins) - 1)) in *.
  set (w := (bins_last bins - bins_first bins)%Q).
  assert (Hw : (0 < w)%Q) by (unfold w; lra).
  apply Qle_shift_div_l; [done|].
  assert (Heq : (n * (x - bins_first bins) / w * w
                 == n * (x - bins_first bins))%Q) by (field; lra).
  rewrite Heq. nra.
Qed.

Lemma digitize_monotone_witness :
  (bins_first [0; 1; 2] < bins_last [0; 1; 2])%Q ∧ (- (1 # 4) <= 3 # 2)%Q
  ∧ (scaled_offset (3 # 2) [0; 1; 2] < inject_Z (int64_max + 1))%Q
  ∧ (digitize1 (- (1 # 4)) [0; 1; 2]%Q ≤ digitize1 (3 # 2) [0; 1; 2]%Q)%Z.
Proof.
  split; [reflexivity|]. split; [by vm_compute|]. split; [by vm_compute|].
  apply (digitize_monotone [0; 1; 2]%Q (- (1 # 4))%Q (3 # 2)%Q);
    [reflexivity|by vm_compute|by vm_compute].
Defined.

(** X2: the bin edges the constructor stores for a valid data set.  There
    is one array of edges per axis, each of [N_cells + 1] edges; the first
    edge is the smallest coordinate minus epsilon, the last the largest
    plus epsilon, and consecutive edges increase by the same positive
    step. *)
Theorem grid_edges_evenly_spaced `{Numerics} (points : list (list Q))
    (N : nat) (pspec : gmap nat (option (Q * Q))) (g : GriSPy) :
  valid_data points → (1 ≤ N)%nat →
  GriSPy_init points N pspec = Some g →
  length (k_bins_ g) = dim_ g
  ∧ ∀ k, (k < dim_ g)%nat →
      let lo := (Qlist_min (column points k) - epsilon)%Q in
      let hi := (Qlist_max (column points k) + epsilon)%Q in
      length (k_bins_ g !!! k) = (N + 1)%nat
      ∧ ((k_bins_ g !!! k) !!! 0%nat == lo)%Q
      ∧ (k_bins_ g !!! k) !!! N = hi
      ∧ ∀ i, (i < N)%nat →
          ((k_bins_ g !!! k) !!! i < (k_bins_ g !!! k) !!! S i)%Q
          ∧ ((k_bins_ g !!! k) !!! S i - (k_bins_ g !!! k) !!! i
             == (hi - lo) / inject_Z (Z.of_nat N))%Q.
Proof.
  intros Hvalid HN Hinit.
  destruct (init_fields points N pspec g Hinit) as (_ & _ & Hdim & Hbins & _).
  split.
  { rewrite Hbins, Hdim. unfold build_k_bins.
    by rewrite length_fmap, length_seq. }
  intros k Hk lo hi.
  rewrite Hbins, k_bins_lookup by (by rewrite <- Hdim).
  fold lo hi.
  assert (Hsp : (lo < hi)%Q) by apply (axis_spread points Hvalid k).
  pose proof (step_pos lo hi N Hsp HN) as Hstep.
  split; [apply (linspace_length lo hi N HN)|].
  split.
  { rewrite (linspace_edge lo hi N HN 0) by lia.
    change (inject_Z (Z.of_nat 0)) with 0%Q. lra. }
  split; [apply (linspace_last lo hi N HN)|].
  intros i Hi.
  rewrite (linspace_edge lo hi N HN i), (linspace_edge lo hi N HN (S i)) by lia.
  rewrite Nat2Z.inj_succ. unfold Z.succ. rewrite inject_Z_plus.
  change (inject_Z 1) with 1%Q.
  set (s := ((hi - lo) / inject_Z (Z.of_nat N))%Q) in *.
  split; lra.
Qed.

Lemma grid_edges_evenly_spaced_witness :
  valid_data line3 ∧ (1 ≤ 2)%nat
  ∧ GriSPy_init (H := axis1) line3 2 ∅ = Some (built line3 2 ∅)
  ∧ length (k_bins_ (built line3 2 ∅)) = dim_ (built line3 2 ∅)
  ∧ ∀ k, (k < dim_ (built line3 2 ∅))%nat →
      let lo := (Qlist_min (column line3 k) - epsilon)%Q in
      let hi := (Qlist_max (column line3 k) + epsilon)%Q in
      length (k_bins_ (built line3 2 ∅) !!! k) = (2 + 1)%nat
      ∧ ((k_bins_ (built line3 2 ∅) !!! k) !!! 0%nat == lo)%Q
      ∧ (k_bins_ (built line3 2 ∅) !!! k) !!! 2%nat = hi
      ∧ ∀ i, (i < 2)%nat →
          ((k_bins_ (built line3 2 ∅) !!! k) !!! i
           < (k_bins_ (built line3 2 ∅) !!! k) !!! S i)%Q
          ∧ ((k_bins_ (built line3 2 ∅) !!! k) !!! S i
             - (k_bins_ (built line3 2 ∅) !!! k) !!! i
             == (hi - lo) / inject_Z (Z.of_nat 2))%Q.
Proof.
  split; [exact line3_valid|]. split; [lia|]. split; [reflexivity|].
  apply (grid_edges_evenly_spaced (H := axis1) line3 2 ∅ (built line3 2 ∅));
    [exact line3_valid|lia|reflexivity].
Defined.

(** X3: every key of the grid is a cell of the grid, and no empty cell has
    a key: a key has one digit per axis, each from 0 to [N_cells - 1], and
    the list bound to it is not empty. *)
Theorem grid_keys_on_grid `{Numerics} (points : list (list Q))
    (N : nat) (pspec : gmap nat (option (Q * Q))) (g : GriSPy)
    (cell : list Z) (l : list nat) :
  valid_data points → (1 ≤ N)%nat → argsort_sorts_cells points N →
  GriSPy_init points N pspec = Some g →
  grid_ g !! cell = Some l →
  l ≠ [] ∧ length cell = dim_ g
  ∧ Forall (λ d, 0 ≤ d < Z.of_nat N)%Z cell.
Proof.
  intros Hvalid HN Hsort Hinit Hl.
  destruct (built_fields points N pspec g Hvalid HN Hsort Hinit)
    as (_ & _ & Hdim & _ & Hg & _).
  pose proof (Hg cell) as Hcell. rewrite Hl in Hcell.
  destruct Hcell as [Hne Hperm]. split; [done|].
  destruct l as [|i l]; [done|].
  assert (Hi : i ∈ i :: l) by (by left).
  pose proof (grid_holds_sound _ _ _ _ _ Hg Hl Hi) as Hd.
  pose proof (grid_digits_valid points N Hvalid HN
                (init_addressable points N pspec g Hinit)) as Hall.
  rewrite Forall_lookup in Hall. destruct (Hall i cell Hd) as [Hlen Hrange].
  by rewrite Hdim.
Qed.

Lemma grid_keys_on_grid_witness :
  valid_data line3 ∧ (1 ≤ 2)%nat ∧ argsort_sorts_cells (H := axis1) line3 2
  ∧ GriSPy_init (H := axis1) line3 2 ∅ = Some (built line3 2 ∅)
  ∧ grid_ (built line3 2 ∅) !! [1%Z] = Some [0%nat; 2%nat]
  ∧ [0%nat; 2%nat] ≠ [] ∧ length [1%Z] = dim_ (built line3 2 ∅)
  ∧ Forall (λ d, 0 ≤ d < Z.of_nat 2)%Z [1%Z].
Proof.
  split; [exact line3_valid|]. split; [lia|]. split; [exact line3_argsort|].
  split; [reflexivity|]. split; [by vm_compute|].
  apply (grid_keys_on_grid (H := axis1) line3 2 ∅ (built line3 2 ∅)
           [1%Z] [0%nat; 2%nat]);
    [exact line3_valid|lia|exact line3_argsort|reflexivity|by vm_compute].
Defined.

(** X4: a point listed under a cell key lies in that cell: on every axis
    its coordinate is at or above the edge numbered by the key's digit and
    strictly below the next edge. *)
Theorem grid_point_in_cell `{Numerics} (points : list (list Q))
    (N : nat) (pspec : gmap nat (option (Q * Q))) (g : GriSPy)
    (cell : list Z) (l : list nat) (j k : nat) :
  valid_data points → (1 ≤ N)%nat → argsort_sorts_cells points N →
  GriSPy_init points N pspec = Some g →
  grid_ g !! cell = Some l → j ∈ l → (k < dim_ g)%nat →
  ((k_bins_ g !!! k) !!! Z.to_nat (cell !!! k) <= (points !!! j) !!! k)%Q
  ∧ ((points !!! j) !!! k < (k_bins_ g !!! k) !!! S (Z.to_nat (cell !!! k)))%Q.
Proof.
  intros Hvalid HN Hsort Hinit Hl Hj Hk.
  destruct (built_fields points N pspec g Hvalid HN Hsort Hinit)
    as (_ & _ & Hdim & Hbins & Hg & _).
  pose proof (grid_holds_sound _ _ _ _ _ Hg Hl Hj) as Hd.
  assert (Hjn : (j < length points)%nat).
  { apply lookup_lt_Some in Hd. by rewrite grid_digits_length in Hd. }
  destruct (lookup_lt_is_Some_2 points j Hjn) as [p Hp].
  rewrite (grid_digits_lookup points N j p Hp) in Hd. injection Hd as Hcell.
  rewrite (list_lookup_total_correct _ _ _ Hp).
  destruct (built_point points N pspec g Hvalid HN Hsort Hinit j p k Hp Hk)
    as (d & Hpc & Hdd & Hr & Hlo & Hhi & _).
  rewrite Hbins, Hcell in Hpc. rewrite (list_lookup_total_correct _ _ _ Hpc).
  rewrite (built_bins points N pspec g Hvalid HN Hsort Hinit k Hk).
  set (lo := (Qlist_min (column points k) - epsilon)%Q) in *.
  set (hi := (Qlist_max (column points k) + epsilon)%Q) in *.
  assert (Hsp : (lo < hi)%Q) by apply (axis_spread points Hvalid k).
  assert (Hlo' : (lo <= p !!! k)%Q) by lra.
  assert (Hhi' : (p !!! k < hi)%Q) by lra.
  destruct (digitize1_bracket lo hi N Hsp HN (p !!! k)
              (init_addressable points N pspec g Hinit) Hlo' Hhi')
    as (_ & Hb1 & Hb2).
  rewrite <- Hdd in Hb1, Hb2.
  rewrite (linspace_edge lo hi N HN (Z.to_nat d)) by lia.
  rewrite (linspace_edge lo hi N HN (S (Z.to_nat d))) by lia.
  rewrite Nat2Z.inj_succ, Z2Nat.id by lia. unfold Z.succ.
  rewrite inject_Z_plus. change (inject_Z 1) with 1%Q.
  split; lra.
Qed.

Lemma grid_point_in_cell_witness :
  valid_data line3 ∧ (1 ≤ 2)%nat ∧ argsort_sorts_cells (H := axis1) line3 2
  ∧ GriSPy_init (H := axis1) line3 2 ∅ = Some (built line3 2 ∅)
  ∧ grid_ (built line3 2 ∅) !! [1%Z] = Some [0%nat; 2%nat]
  ∧ 2%nat ∈ [0%nat; 2%nat] ∧ (0 < dim_ (built line3 2 ∅))%nat
  ∧ ((k_bins_ (built line3 2 ∅) !!! 0%nat) !!! Z.to_nat ([1%Z] !!! 0%nat)
     <= (line3 !!! 2%nat) !!! 0%nat)%Q
  ∧ ((line3 !!! 2%nat) !!! 0%nat
     < (k_bins_ (built line3 2 ∅) !!! 0%nat)
         !!! S (Z.to_nat ([1%Z] !!! 0%nat)))%Q.
Proof.
  split; [exact line3_valid|]. split; [lia|]. split; [exact line3_argsort|].
  split; [reflexivity|]. split; [by vm_compute|].
  split; [by apply (bool_decide_unpack _)|]. split; [vm_compute; lia|].
  apply (grid_point_in_cell (H := axis1) line3 2 ∅ (built line3 2 ∅)
           [1%Z] [0%nat; 2%nat] 2 0);
    [exact line3_valid|lia|exact line3_argsort|reflexivity|by vm_compute
    |by apply (bool_decide_unpack _)|vm_compute; lia].
Defined.

(** X5: in the regime of one dictionary update per point (no more points
    than cells) the list of a cell holds the indices of the points of that
    cell in ascending order: exactly the positions whose row of digits is
    the key. *)
Theorem sparse_cells_ascending `{Numerics} (points : list (list Q))
    (N : nat) (pspec : gmap nat (option (Q * Q))) (g : GriSPy)
    (cell : list Z) (l : list nat) :
  (length points ≤ N ^ data_dim points)%nat →
  GriSPy_init points N pspec = Some g →
  grid_ g !! cell = Some l →
  StronglySorted lt l
  ∧ l = filter (λ j, point_cell points (k_bins_ g) <$> points !! j = Some cell)
               (seq 0 (length points)).
Proof.
  intros Hsparse Hinit Hl.
  destruct (init_fields points N pspec g Hinit) as (_ & _ & _ & Hbins & Hb).
  unfold _build_grid in Hb. case_decide; [|done]. case_decide; [lia|].
  injection Hb as Hgrid _. rewrite <- Hgrid in Hl.
  rewrite build_grid_sparse_lookup in Hl. case_decide; [done|].
  injection Hl as <-. unfold cell_members. split.
  - apply StronglySorted_filter, StronglySorted_seq.
  - rewrite Hbins. unfold build_k_digit. rewrite length_fmap.
    apply list_filter_iff. intros j. by rewrite list_lookup_fmap.
Qed.

Lemma sparse_cells_ascending_witness :
  (length [[0%Q]; [1%Q]; [0%Q]] ≤ 3 ^ data_dim [[0%Q]; [1%Q]; [0%Q]])%nat
  ∧ GriSPy_init (H := axis1) [[0%Q]; [1%Q]; [0%Q]] 3 ∅
    = Some (built [[0%Q]; [1%Q]; [0%Q]] 3 ∅)
  ∧ grid_ (built [[0%Q]; [1%Q]; [0%Q]] 3 ∅) !! [0%Z] = Some [0%nat; 2%nat]
  ∧ StronglySorted lt [0%nat; 2%nat]
  ∧ [0%nat; 2%nat]
    = filter (λ j, point_cell [[0%Q]; [1%Q]; [0%Q]]
                     (k_bins_ (built [[0%Q]; [1%Q]; [0%Q]] 3 ∅))
                   <$> [[0%Q]; [1%Q]; [0%Q]] !! j = Some [0%Z])
             (seq 0 (length [[0%Q]; [1%Q]; [0%Q]])).
Proof.
  split; [vm_compute; lia|]. split; [reflexivity|]. split; [by vm_compute|].
  apply (sparse_cells_ascending (H := axis1) [[0%Q]; [1%Q]; [0%Q]] 3 ∅
           (built [[0%Q]; [1%Q]; [0%Q]] 3 ∅) [0%Z] [0%nat; 2%nat]);
    [vm_compute; lia|reflexivity|by vm_compute].
Defined.

(** ** Candidate cells *)

Lemma clamp_cell_range `{Numerics} (g : GriSPy) (x : Z) :
  (1 ≤ N_cells g)%nat → (0 ≤ clamp_cell g x < Z.of_nat (N_cells g))%Z.
Proof. intros HN. unfold clamp_cell. repeat case_decide; lia. Qed.

(** X6: the cells [_get_neighbor_cells] returns are cells of the grid.  On
    an index with at least one cell per axis there is one list of cells per
    centre, no cell is listed twice for a centre, and every listed cell has
    one digit per axis, each from 0 to [N_cells - 1], however far outside
    the grid the centre or its radius reaches. *)
Theorem neighbor_cells_on_grid `{Numerics} (g : GriSPy)
    (centres : list (list Q)) (upper lower : list Q) (flag : bool) :
  (1 ≤ N_cells g)%nat →
  length (_get_neighbor_cells g centres upper lower flag) = length centres
  ∧ ∀ i cs, _get_neighbor_cells g centres upper lower flag !! i = Some cs →
      NoDup cs
      ∧ ∀ cell, cell ∈ cs →
          length cell = dim_ g
          ∧ Forall (λ d, 0 ≤ d < Z.of_nat (N_cells g))%Z cell.
Proof.
  intros HN. split; [apply neighbor_cells_length|].
  intros i cs Hcs. split; [by eapply neighbor_cells_NoDup|].
  intros cell Hcell. unfold _get_neighbor_cells in Hcs. case_match.
  - rewrite list_lookup_fmap in Hcs. destruct (centres !! i); [|done].
    injection Hcs as <-. by apply elem_of_nil in Hcell.
  - rewrite list_lookup_imap in Hcs. destruct (centres !! i) as [c|]; [|done].
    injection Hcs as <-.
    apply list_elem_of_filter in Hcell as [_ Hcell].
    apply meshgrid_rows_elem in Hcell.
    pose proof (Forall2_length _ _ _ Hcell) as Hlen.
    rewrite length_fmap, length_seq in Hlen. split; [done|].
    apply Forall_lookup. intros k d Hd.
    destruct (Forall2_lookup_l _ _ _ _ _ Hcell Hd) as (gk & Hgk & Hin).
    rewrite list_lookup_fmap in Hgk.
    destruct (seq 0 (dim_ g) !! k) as [k'|]; [|done].
    injection Hgk as <-. apply arangeZ_elem in Hin.
    pose proof (clamp_cell_range g
                  (digitize1 (c !!! k' - upper !!! i) (k_bins_ g !!! k')) HN).
    pose proof (clamp_cell_range g
                  (digitize1 (c !!! k' + upper !!! i) (k_bins_ g !!! k')) HN).
    unfold k_cell_min, k_cell_max in Hin. lia.
Qed.

Lemma neighbor_cells_on_grid_witness :
  (1 ≤ N_cells (built line3 2 ∅))%nat
  ∧ length (_get_neighbor_cells (H := axis1) (built line3 2 ∅) line3_centres
              [5%Q; 5%Q] [] false) = length line3_centres
  ∧ ∀ i cs,
      _get_neighbor_cells (H := axis1) (built line3 2 ∅) line3_centres
        [5%Q; 5%Q] [] false !! i = Some cs →
      NoDup cs
      ∧ ∀ cell, cell ∈ cs →
          length cell = dim_ (built line3 2 ∅)
          ∧ Forall (λ d, 0 ≤ d < Z.of_nat (N_cells (built line3 2 ∅)))%Z cell.
Proof.
  split; [vm_compute; lia|].
  apply (neighbor_cells_on_grid (H := axis1) (built line3 2 ∅) line3_centres
           [5%Q; 5%Q] [] false).
  vm_compute; lia.
Defined.

(** ** Periodic axes: the shifts of the mirrored centres *)

(** *** Rows of the tiled array *)

Lemma bind_replicate_lookup {A B} (f : A → B) (a : nat) (l : list A) (t : nat) :
  (0 < a)%nat →
  (l ≫= (λ j, replicate a (f j))) !! t = f <$> l !! (t `div` a)%nat.
Proof.
  intros Ha. revert t. induction l as [|x l IH]; intros t; [done|].
  rewrite bind_cons. destruct (decide (t < a)%nat) as [Hlt|Hge].
  - rewrite lookup_app_l by (by rewrite length_replicate).
    rewrite lookup_replicate_2 by done. by rewrite Nat.div_small.
  - rewrite lookup_app_r by (rewrite length_replicate; lia).
    rewrite length_replicate, IH.
    replace (t `div` a)%nat with (S ((t - a) `div` a)); [done|].
    replace t with ((t - a) + 1 * a)%nat at 2 by lia.
    rewrite Nat.div_add by lia. lia.
Qed.

Lemma tile_ravel_lookup (aux : list Q) (a b t : nat) :
  (0 < a)%nat → (t < a * (3 * b))%nat →
  tile_ravel aux a b !!! t = aux !!! ((t `div` a) `mod` 3)%nat.
Proof.
  intros Ha Ht. unfold tile_ravel. apply list_lookup_total_correct.
  rewrite (bind_replicate_lookup (λ j, aux !!! (j `mod` 3)%nat)) by done.
  rewrite lookup_seq_lt; [done|].
  by apply Nat.Div0.div_lt_upper_bound.
Qed.

Lemma pow3_pos (n : nat) : (0 < 3 ^ n)%nat.
Proof. induction n; simpl; lia. Qed.

Lemma pow3_split (dim k : nat) :
  (k < dim)%nat → (3 ^ dim = 3 ^ (dim - 1 - k) * (3 * 3 ^ k))%nat.
Proof.
  intros Hk. replace dim with ((dim - 1 - k) + S k)%nat at 1 by lia.
  by rewrite Nat.pow_add_r.
Qed.

(** The digits of the mirrored position are the complements. *)
Lemma digit_complement (dim k t : nat) :
  (k < dim)%nat → (t < 3 ^ dim)%nat →
  (((3 ^ dim - 1 - t) `div` 3 ^ (dim - 1 - k)) `mod` 3
   = 2 - (t `div` 3 ^ (dim - 1 - k)) `mod` 3)%nat
  ∧ ((t `div` 3 ^ (dim - 1 - k)) `mod` 3 < 3)%nat.
Proof.
  intros Hk Ht. rewrite (pow3_split dim k Hk) in *.
  pose proof (pow3_pos (dim - 1 - k)) as Ha. pose proof (pow3_pos k) as Hb.
  set (a := (3 ^ (dim - 1 - k))%nat) in *. set (b := (3 ^ k)%nat) in *.
  pose proof (Nat.div_mod_eq t a) as Hdm.
  pose proof (Nat.mod_upper_bound t a ltac:(lia)) as Hr.
  set (q := (t `div` a)%nat) in *. set (r := (t `mod` a)%nat) in *.
  assert (Hq : (q < 3 * b)%nat).
  { by apply Nat.Div0.div_lt_upper_bound. }
  clearbody a b q r.
  assert (Hdiv : ((a * (3 * b) - 1 - t) `div` a = 3 * b - 1 - q)%nat).
  { symmetry. apply (Nat.div_unique _ _ _ (a - 1 - r)); [lia|].
    remember (3 * b - 1 - q)%nat as q' eqn:Hq'.
    replace (3 * b)%nat with (q' + q + 1)%nat by lia.
    rewrite !Nat.mul_add_distr_l, Nat.mul_1_r.
    generalize dependent (a * q)%nat. generalize (a * q')%nat. lia. }
  rewrite Hdiv.
  pose proof (Nat.div_mod_eq q 3) as Hdm3.
  pose proof (Nat.mod_upper_bound q 3 ltac:(lia)) as Hr3.
  split; [|done].
  symmetry. apply (Nat.mod_unique _ _ (b - 1 - q `div` 3)); lia.
Qed.

Lemma from_digits_snoc (ds : list nat) (d : nat) :
  from_digits (ds ++ [d]) = (3 * from_digits ds + d)%nat.
Proof. unfold from_digits. by rewrite foldl_snoc. Qed.

Lemma from_digits_spec (ds : list nat) :
  Forall (λ d, d < 3)%nat ds →
  (from_digits ds < 3 ^ length ds)%nat
  ∧ ∀ k d, ds !! k = Some d →
      ((from_digits ds `div` 3 ^ (length ds - 1 - k)) `mod` 3)%nat = d.
Proof.
  induction ds as [|d0 ds IH] using rev_ind; intros Hall.
  { split; [unfold from_digits; simpl; lia|]. intros k d Hk. done. }
  apply Forall_app in Hall as [Hds [Hd0 _]%Forall_cons]. simpl in Hd0.
  destruct (IH Hds) as [Hlt Hdig]. rewrite from_digits_snoc, length_app.
  simpl length. split.
  { replace (length ds + 1)%nat with (S (length ds)) by lia.
    rewrite Nat.pow_succ_r'. lia. }
  intros k d Hk. destruct (decide (k < length ds)%nat) as [Hkl|Hkl].
  - rewrite lookup_app_l in Hk by done.
    replace (length ds + 1 - 1 - k)%nat with (S (length ds - 1 - k)) by lia.
    rewrite Nat.pow_succ_r', <- Nat.Div0.div_div.
    replace ((3 * from_digits ds + d0) `div` 3)%nat with (from_digits ds).
    + by apply Hdig.
    + apply (Nat.div_unique _ _ _ d0); lia.
  - rewrite lookup_app_r in Hk by lia.
    assert (k = length ds) as ->.
    { apply lookup_lt_Some in Hk. simpl in Hk. lia. }
    rewrite Nat.sub_diag in Hk. injection Hk as <-.
    replace (length ds + 1 - 1 - length ds)%nat with 0%nat by lia.
    rewrite Nat.pow_0_r, Nat.div_1_r.
    symmetry. apply (Nat.mod_unique _ _ (from_digits ds)); lia.
Qed.

(** *** Distinct rows *)

Lemma row_compare_refl (a : list Q) : row_compare a a = Eq.
Proof.
  induction a as [|x a IH]; simpl; [done|].
  by rewrite (proj1 (Qeq_alt x x) (Qeq_refl x)).
Qed.

Lemma row_compare_Eq (a b : list Q) :
  row_compare a b = Eq → Forall2 Qeq a b.
Proof.
  revert b. induction a as [|x a IH]; intros [|y b]; simpl; try done.
  destruct (x ?= y)%Q eqn:E; try done.
  intros Hab. constructor; [by apply Qeq_alt|by apply IH].
Qed.

Lemma unique_insert_elem (r e : list Q) (rows : list (list Q)) :
  e ∈ unique_insert r rows → e = r ∨ e ∈ rows.
Proof.
  induction rows as [|r' rows IH]; simpl.
  { intros ->%list_elem_of_singleton. by left. }
  destruct (row_compare r r').
  - by right.
  - intros [->|He]%elem_of_cons; [by left|by right].
  - intros [->|He]%elem_of_cons; [right; by left|].
    destruct (IH He) as [->|?]; [by left|right; by right].
Qed.

Lemma unique_insert_keeps (r x : list Q) (rows : list (list Q)) :
  x ∈ rows → x ∈ unique_insert r rows.
Proof.
  induction rows as [|r' rows IH]; simpl; [by intros ?%elem_of_nil|].
  destruct (row_compare r r').
  - done.
  - by right.
  - intros [->|Hx]%elem_of_cons; [by left|right; by apply IH].
Qed.

Lemma unique_insert_covers (r : list Q) (rows : list (list Q)) :
  ∃ e, e ∈ unique_insert r rows ∧ row_compare r e = Eq.
Proof.
  induction rows as [|r' rows IH]; simpl.
  { exists r. split; [by left|apply row_compare_refl]. }
  destruct (row_compare r r') eqn:E.
  - exists r'. split; [by left|done].
  - exists r. split; [by left|apply row_compare_refl].
  - destruct IH as (e & He & Hre). exists e. split; [by right|done].
Qed.

Lemma unique_rows_elem (e : list Q) (rows : list (list Q)) :
  e ∈ unique_rows rows → e ∈ rows.
Proof.
  unfold unique_rows. induction rows as [|r rows IH]; simpl; [done|].
  intros [->|He]%unique_insert_elem; [by left|right; by apply IH].
Qed.

Lemma unique_rows_covers (r : list Q) (rows : list (list Q)) :
  r ∈ rows → ∃ e, e ∈ unique_rows rows ∧ Forall2 Qeq r e.
Proof.
  unfold unique_rows. induction rows as [|r' rows IH]; simpl.
  { by intros ?%elem_of_nil. }
  intros [->|Hr]%elem_of_cons.
  - destruct (unique_insert_covers r' (foldr unique_insert [] rows))
      as (e & He & Hre).
    exists e. split; [done|by apply row_compare_Eq].
  - destruct (IH Hr) as (e & He & Hre). exists e. split; [|done].
    by apply unique_insert_keeps.
Qed.

Lemma set_periodicity_edges (dim : nat)
    (periodic : gmap nat (option (Q * Q))) :
  ps_flag (_set_periodicity dim periodic) = true →
  ps_edges (_set_periodicity dim periodic)
  = filter (λ r, existsb Qnonzero r)
      (unique_rows
         ((λ t, (λ k, edge_entry periodic k
                        ((t `div` 3 ^ (dim - 1 - k)) `mod` 3)%nat)
                <$> seq 0 dim) <$> seq 0 (3 ^ dim))).
Proof.
  unfold _set_periodicity. case_decide; [done|].
  destruct (existsb _ _); [|done]. intros _. cbn [ps_edges]. f_equal. f_equal.
  set (aux3 := λ k, match periodic !! k ≫= id with
                    | Some (lo, hi) => [lo; 0%Q; hi]
                    | None => [0%Q; 0%Q; 0%Q]
                    end).
  set (cols := (λ k, tile_ravel (aux3 k) (3 ^ (dim - 1 - k)) (3 ^ k))
               <$> seq 0 dim).
  set (edges0 := (λ t, (λ col : list Q, col !!! t) <$> cols)
                 <$> seq 0 (3 ^ dim)).
  assert (Hlen : length edges0 = (3 ^ dim)%nat).
  { unfold edges0. by rewrite length_fmap, length_seq. }
  match goal with |- _ = ?rhs =>
    change (zip_with (zip_with Qminus) edges0 (reverse edges0) = rhs) end.
  apply list_eq. intros t.
  rewrite lookup_zip_with, list_lookup_fmap.
  destruct (decide (t < 3 ^ dim)%nat) as [Ht|Ht].
  2:{ rewrite (proj2 (lookup_ge_None edges0 t)) by lia.
      rewrite (proj2 (lookup_ge_None (seq 0 (3 ^ dim)) t))
        by (rewrite length_seq; lia). done. }
  rewrite reverse_lookup by lia. rewrite Hlen.
  unfold edges0 at 1 2. rewrite !list_lookup_fmap.
  rewrite !lookup_seq_lt by lia. simpl.
  f_equal. unfold cols.
  rewrite zip_with_fmap_l, zip_with_fmap_r, zip_with_diag.
  rewrite <- list_fmap_compose.
  apply list_fmap_ext. intros k ? [-> Hk]%lookup_seq.
  change (0 + k)%nat with k. cbn [compose].
  pose proof (pow3_split dim k Hk) as Hsplit.
  rewrite !tile_ravel_lookup by (try apply pow3_pos; lia).
  destruct (digit_complement dim k t Hk Ht) as [Hcomp _].
  replace (3 ^ dim - S t)%nat with (3 ^ dim - 1 - t)%nat by lia.
  by rewrite Hcomp.
Qed.

Lemma edge_entry_digit (periodic : gmap nat (option (Q * Q))) (k d : nat) :
  (d < 3)%nat →
  (d = 0%nat ∧ (edge_entry periodic k d == - axis_period periodic k)%Q)
  ∨ (d = 1%nat ∧ (edge_entry periodic k d == 0)%Q)
  ∨ (d = 2%nat ∧ (edge_entry periodic k d == axis_period periodic k)%Q).
Proof.
  intros Hd. unfold edge_entry, axis_period.
  destruct (periodic !! k ≫= id) as [[lo hi]|];
    destruct d as [|[|[|d]]]; try lia; simpl.
  - left. split; [done|]. change ([lo; 0; hi] !!! 0%nat)%Q with lo.
    change ([lo; 0; hi] !!! 2%nat)%Q with hi. lra.
  - right. left. split; [done|]. change ([lo; 0; hi] !!! 1%nat)%Q with 0%Q.
    lra.
  - right. right. split; [done|]. change ([lo; 0; hi] !!! 0%nat)%Q with lo.
    change ([lo; 0; hi] !!! 2%nat)%Q with hi. lra.
  - left. split; [done|]. by vm_compute.
  - right. left. split; [done|]. by vm_compute.
  - right. right. split; [done|]. by vm_compute.
Qed.

Lemma Forall2_Qeq_lookup_total (e r : list Q) (k : nat) :
  Forall2 Qeq e r → (e !!! k == r !!! k)%Q.
Proof.
  intros Her. rewrite !list_lookup_total_alt.
  destruct (e !! k) as [x|] eqn:E.
  - destruct (Forall2_lookup_l _ _ _ _ _ Her E) as (y & -> & Hxy). done.
  - apply lookup_ge_None in E. rewrite (Forall2_length _ _ _ Her) in E.
    apply lookup_ge_None in E. by rewrite E.
Qed.

Lemma Qnonzero_true (x : Q) : Qnonzero x = true ↔ ¬ (x == 0)%Q.
Proof.
  unfold Qnonzero. rewrite negb_true_iff. split.
  - intros Hb Hx. apply Qeq_bool_iff in Hx. congruence.
  - intros Hx. destruct (Qeq_bool x 0) eqn:E; [|done].
    by apply Qeq_bool_iff in E.
Qed.

(** X7: the rows of [_periodic_edges] that [_set_periodicity] computes
    are, up to equality of rationals, exactly the vectors that are not zero
    everywhere and whose entry on each axis is zero, the period of the axis
    or minus the period (zero on an axis without periodicity). *)
Theorem periodic_edges_are_period_shifts (dim : nat)
    (periodic : gmap nat (option (Q * Q))) (r : list Q) :
  ps_flag (_set_periodicity dim periodic) = true →
  (∃ e, e ∈ ps_edges (_set_periodicity dim periodic) ∧ Forall2 Qeq e r)
  ↔ length r = dim
    ∧ (∀ k, (k < dim)%nat →
         (r !!! k == 0)%Q ∨ (r !!! k == axis_period periodic k)%Q
         ∨ (r !!! k == - axis_period periodic k)%Q)
    ∧ ∃ k, (k < dim)%nat ∧ ¬ (r !!! k == 0)%Q.
Proof.
  intros Hflag. rewrite (set_periodicity_edges dim periodic Hflag).
  set (digit := λ t k, ((t `div` 3 ^ (dim - 1 - k)) `mod` 3)%nat).
  set (row := λ t, (λ k, edge_entry periodic k (digit t k)) <$> seq 0 dim).
  change (λ t : nat, (λ k : nat, edge_entry periodic k
            ((t `div` 3 ^ (dim - 1 - k)) `mod` 3)%nat) <$> seq 0 dim)
    with row.
  assert (Hrow : ∀ t k, (k < dim)%nat →
            row t !!! k = edge_entry periodic k (digit t k)).
  { intros t k Hk. unfold row.
    rewrite (list_lookup_total_fmap (A := nat) _ (seq 0 dim) k)
      by (by rewrite length_seq).
    by rewrite lookup_total_seq_lt. }
  assert (Hrowlen : ∀ t, length (row t) = dim).
  { intros t. unfold row. by rewrite length_fmap, length_seq. }
  assert (Hdigit : ∀ t k, (digit t k < 3)%nat).
  { intros t k. apply Nat.mod_upper_bound. lia. }
  split.
  - intros (e & [Hnz He]%list_elem_of_filter & Her).
    apply unique_rows_elem, list_elem_of_fmap in He as (t & -> & _).
    pose proof (Forall2_length _ _ _ Her) as Hlen. rewrite Hrowlen in Hlen.
    split; [done|]. split.
    + intros k Hk.
      pose proof (Forall2_Qeq_lookup_total _ _ k Her) as Hk'.
      rewrite Hrow in Hk' by done. rewrite <- Hk'.
      destruct (edge_entry_digit periodic k (digit t k) (Hdigit t k))
        as [[_ ->]|[[_ ->]|[_ ->]]];
        [right; right|left|right; left]; reflexivity.
    + apply Is_true_true, existsb_exists in Hnz as (x & Hx & Hnz).
      apply list_elem_of_In, list_elem_of_lookup in Hx as [k Hk].
      exists k. assert (Hkd : (k < dim)%nat).
      { apply lookup_lt_Some in Hk. by rewrite Hrowlen in Hk. }
      split; [done|].
      pose proof (Forall2_Qeq_lookup_total _ _ k Her) as Hk'.
      rewrite (list_lookup_total_correct _ _ _ Hk) in Hk'.
      rewrite <- Hk'. by apply Qnonzero_true.
  - intros (Hlen & Hshape & k0 & Hk0 & Hnz).
    set (dsel := λ k, if Qeq_bool (r !!! k) 0 then 1%nat
                      else if Qeq_bool (r !!! k) (axis_period periodic k)
                           then 2%nat else 0%nat).
    set (ds := dsel <$> seq 0 dim).
    assert (Hds : Forall (λ d, d < 3)%nat ds).
    { apply Forall_fmap, Forall_forall. intros k _. simpl. unfold dsel.
      repeat case_match; lia. }
    destruct (from_digits_spec ds Hds) as [Ht Hdig].
    assert (Hdslen : length ds = dim).
    { unfold ds. by rewrite length_fmap, length_seq. }
    rewrite Hdslen in Ht, Hdig.
    set (t := from_digits ds) in *.
    assert (Hsel : ∀ k, (k < dim)%nat → digit t k = dsel k).
    { intros k Hk. apply Hdig. unfold ds.
      by rewrite list_lookup_fmap, lookup_seq_lt. }
    assert (Hrt : Forall2 Qeq (row t) r).
    { apply Forall2_same_length_lookup. split; [by rewrite Hrowlen|].
      intros k x y Hx Hy.
      assert (Hk : (k < dim)%nat).
      { apply lookup_lt_Some in Hy. lia. }
      rewrite <- (list_lookup_total_correct _ _ _ Hx).
      rewrite <- (list_lookup_total_correct _ _ _ Hy).
      rewrite Hrow, Hsel by done. unfold dsel.
      destruct (Qeq_bool (r !!! k) 0) eqn:E0.
      { apply Qeq_bool_iff in E0. rewrite E0.
        destruct (edge_entry_digit periodic k 1 ltac:(lia))
          as [[? _]|[[_ ->]|[? _]]]; done. }
      destruct (Qeq_bool (r !!! k) (axis_period periodic k)) eqn:E1.
      { apply Qeq_bool_iff in E1. rewrite E1.
        destruct (edge_entry_digit periodic k 2 ltac:(lia))
          as [[? _]|[[? _]|[_ ->]]]; done. }
      destruct (Hshape k Hk) as [Hz|[Hp|Hm]].
      - apply Qeq_bool_iff in Hz. congruence.
      - apply Qeq_bool_iff in Hp. congruence.
      - rewrite Hm.
        destruct (edge_entry_digit periodic k 0 ltac:(lia))
          as [[_ ->]|[[? _]|[? _]]]; done. }
    destruct (unique_rows_covers (row t) (row <$> seq 0 (3 ^ dim)))
      as (e & He & Hre).
    { apply list_elem_of_fmap. exists t. split; [done|].
      apply elem_of_seq. lia. }
    exists e. split.
    + apply list_elem_of_filter. split; [|done].
      apply Is_true_true, existsb_exists.
      assert (Her : Forall2 Qeq e r) by (etrans; [symmetry; exact Hre|done]).
      destruct (lookup_lt_is_Some_2 e k0) as [x Hx].
      { rewrite (Forall2_length _ _ _ Her). lia. }
      exists x. split.
      { apply list_elem_of_In. by eapply list_elem_of_lookup_2. }
      apply Qnonzero_true.
      pose proof (Forall2_Qeq_lookup_total _ _ k0 Her) as Hk'.
      rewrite (list_lookup_total_correct _ _ _ Hx) in Hk'. by rewrite Hk'.
    + etrans; [symmetry; exact Hre|done].
Qed.

Lemma periodic_edges_are_period_shifts_witness :
  ps_flag (_set_periodicity 2 wrap_domain) = true
  ∧ ((∃ e, e ∈ ps_edges (_set_periodicity 2 wrap_domain)
         ∧ Forall2 Qeq e [(-10)%Q; 0%Q])
     ↔ length [(-10)%Q; 0%Q] = 2%nat
       ∧ (∀ k, (k < 2)%nat →
            ([(-10)%Q; 0%Q] !!! k == 0)%Q
            ∨ ([(-10)%Q; 0%Q] !!! k == axis_period wrap_domain k)%Q
            ∨ ([(-10)%Q; 0%Q] !!! k == - axis_period wrap_domain k)%Q)
       ∧ ∃ k, (k < 2)%nat ∧ ¬ ([(-10)%Q; 0%Q] !!! k == 0)%Q).
Proof.
  split; [reflexivity|].
  apply (periodic_edges_are_period_shifts 2 wrap_domain [(-10)%Q; 0%Q]).
  reflexivity.
Defined.

(** ** Mirrored centres *)

Lemma foldl_invariant {A B} (P : A → Prop) (Q : B → Prop) (f : A → B → A)
    (l : list B) (a : A) :
  Forall Q l → P a → (∀ a x, Q x → P a → P (f a x)) → P (foldl f a l).
Proof.
  intros Hl Ha Hstep. revert a Ha.
  induction Hl as [|x l Hx _ IH]; intros a Ha; simpl; [done|].
  apply IH. by apply Hstep.
Qed.

Lemma imap_pair_elem {A} (l : list A) :
  Forall (λ ic : nat * A, l !! ic.1 = Some ic.2) (imap (λ i c, (i, c)) l).
Proof.
  apply Forall_lookup. intros i [j c] Hic.
  rewrite list_lookup_imap in Hic. destruct (l !! i) eqn:E; [|done].
  simpl in Hic. by injection Hic as <- <-.
Qed.

(** What the loop of [_mirror_universe] builds. *)
Lemma mirror_universe_spec (g : GriSPy)
    (centres : list (list Q)) (upper : list Q)
    (tc : list (list Q)) (ti : list nat) :
  _mirror_universe g centres upper = (tc, ti) →
  length tc = length ti
  ∧ ∀ t i, ti !! t = Some i →
      ∃ c m, centres !! i = Some c ∧ tc !! t = Some m
        ∧ m ∈ _mirror g c (upper !!! i)
        ∧ _near_boundary g centres upper !!! i = true.
Proof.
  unfold _mirror_universe.
  set (near := _near_boundary g centres upper).
  destruct (negb (existsb id near)).
  { intros [= <- <-]. split; [done|]. intros t i Ht. done. }
  intros Hfold.
  enough (length (tc, ti).1 = length (tc, ti).2
    ∧ ∀ t i, (tc, ti).2 !! t = Some i →
        ∃ c m, centres !! i = Some c ∧ (tc, ti).1 !! t = Some m
          ∧ m ∈ _mirror g c (upper !!! i) ∧ near !!! i = true) by done.
  rewrite <- Hfold.
  apply (foldl_invariant
    (λ acc : list (list Q) * list nat,
       length acc.1 = length acc.2
       ∧ ∀ t i, acc.2 !! t = Some i →
           ∃ c m, centres !! i = Some c ∧ acc.1 !! t = Some m
             ∧ m ∈ _mirror g c (upper !!! i) ∧ near !!! i = true)
    (λ ic : nat * list Q, centres !! ic.1 = Some ic.2)).
  - apply imap_pair_elem.
  - split; [done|]. intros t i Ht. done.
  - intros [acc1 acc2] [i c] Hc [Hlen Hacc]. simpl in *.
    destruct (near !!! i) eqn:Hnear; simpl; [|done].
    case_decide; simpl; [|done]. split.
    { by rewrite !length_app, length_replicate, Hlen. }
    intros t i' Ht.
    destruct (decide (t < length acc2)%nat) as [Hlt|Hge].
    + rewrite lookup_app_l in Ht by done.
      destruct (Hacc t i' Ht) as (c' & m & Hc' & Hm & Hin & Hn).
      exists c', m. split_and!; try done.
      rewrite lookup_app_l; [done|]. by eapply lookup_lt_Some.
    + rewrite lookup_app_r in Ht by lia.
      apply lookup_replicate in Ht as [-> Ht].
      destruct (lookup_lt_is_Some_2 (_mirror g c (upper !!! i))
                  (t - length acc2)) as [m Hm]; [done|].
      exists c, m. split_and!; try done.
      * rewrite lookup_app_r by lia. by rewrite Hlen.
      * by eapply list_elem_of_lookup_2.
Qed.

(** X8: [_mirror_universe] returns as many centres as indices; every
    index is the position of a centre of the batch that is flagged as near
    a periodic boundary, and the centre returned with it is one of the
    mirror images [_mirror] gives for that centre and its own radius. *)
Theorem mirror_universe_aligned (g : GriSPy)
    (centres : list (list Q)) (upper : list Q)
    (tc : list (list Q)) (ti : list nat) :
  _mirror_universe g centres upper = (tc, ti) →
  length tc = length ti
  ∧ ∀ t i, ti !! t = Some i →
      ∃ c m, centres !! i = Some c ∧ tc !! t = Some m
        ∧ m ∈ _mirror g c (upper !!! i)
        ∧ _near_boundary g centres upper !!! i = true.
Proof. apply mirror_universe_spec. Qed.

Lemma mirror_universe_aligned_witness :
  _mirror_universe (built wrap_points 20 wrap_domain)
    wrap_centres [(1 # 2)%Q] = ([[(101 # 10)%Q]], [0%nat])
  ∧ length [[(101 # 10)%Q]] = length [0%nat]
  ∧ ∀ t i, [0%nat] !! t = Some i →
      ∃ c m, wrap_centres !! i = Some c ∧ [[(101 # 10)%Q]] !! t = Some m
        ∧ m ∈ _mirror (built wrap_points 20 wrap_domain) c
                ([(1 # 2)%Q] !!! i)
        ∧ _near_boundary (built wrap_points 20 wrap_domain) wrap_centres
            [(1 # 2)%Q] !!! i = true.
Proof.
  split; [by vm_compute|].
  apply (mirror_universe_aligned
           (built wrap_points 20 wrap_domain) wrap_centres [(1 # 2)%Q]
           [[(101 # 10)%Q]] [0%nat]).
  by vm_compute.
Defined.

Lemma mirror_shift (g : GriSPy) (c : list Q) (u : Q) (m : list Q) :
  m ∈ _mirror g c u →
  ∃ e, e ∈ _periodic_edges g ∧ m = zip_with Qminus c e.
Proof.
  unfold _mirror. intros (t & Hm & _)%mask_select_elem.
  apply list_elem_of_lookup_2, list_elem_of_fmap in Hm as (e & -> & He). eauto.
Qed.

(** ** The queries, on every index *)

Lemma merge_terran_length `{Numerics} (g : GriSPy) centres upper
    (nb : list (list (Q * nat))) :
  length (merge_terran g centres upper nb) = length nb.
Proof.
  unfold merge_terran. destruct (periodic_flag_ g); [|done].
  destruct (_mirror_universe g centres upper) as [tc ti].
  generalize (zip ti (seq 0 (length tc))). intros its. revert nb.
  induction its as [|it its IH]; intros nb; simpl; [done|].
  by rewrite IH, length_insert.
Qed.

Lemma sublist_join {A} (l1 l2 : list (list A)) :
  l1 `sublist_of` l2 → mjoin l1 `sublist_of` mjoin l2.
Proof.
  induction 1; simpl; [done| |].
  - by apply sublist_app.
  - by apply sublist_inserts_l.
Qed.

Lemma lookup_total_sublist {A} (P : relation (list A)) (l1 l2 : list (list A)) i :
  P [] [] → Forall2 P l1 l2 → P (l1 !!! i) (l2 !!! i).
Proof.
  intros Hnil Hall. rewrite !list_lookup_total_alt.
  destruct (l1 !! i) as [x|] eqn:E1.
  - destruct (Forall2_lookup_l _ _ _ _ _ Hall E1) as (y & -> & Hxy). done.
  - apply lookup_ge_None in E1. rewrite (Forall2_length _ _ _ Hall) in E1.
    apply lookup_ge_None in E1. by rewrite E1.
Qed.

Lemma merge_terran_sublist `{Numerics} (g : GriSPy) centres upper
    (nb1 nb2 : list (list (Q * nat))) :
  Forall2 sublist nb1 nb2 →
  Forall2 sublist (merge_terran g centres upper nb1)
                  (merge_terran g centres upper nb2).
Proof.
  unfold merge_terran. destruct (periodic_flag_ g); [|done].
  destruct (_mirror_universe g centres upper) as [tc ti].
  generalize (zip ti (seq 0 (length tc))).
  generalize (_get_neighbor_distance g tc
                (_get_neighbor_cells g tc (gather upper ti) [] false)).
  intros tn its. revert nb1 nb2.
  induction its as [|it its IH]; intros nb1 nb2 Hnb; simpl; [done|].
  apply IH. apply Forall2_insert; [done|].
  apply sublist_app; [|done]. by apply lookup_total_sublist.
Qed.

Lemma neighbor_cells_shell_sublist `{Numerics} (g : GriSPy) centres upper lower :
  Forall2 sublist (_get_neighbor_cells g centres upper lower true)
                  (_get_neighbor_cells g centres upper [] false).
Proof.
  unfold _get_neighbor_cells. case_match.
  - apply Forall2_fmap, Forall_Forall2_diag, Forall_forall. done.
  - apply Forall2_same_length_lookup. split; [by rewrite !length_imap|].
    intros i cs1 cs2. rewrite !list_lookup_imap.
    destruct (centres !! i) as [c|]; [|done]. simpl. intros [= <-] [= <-].
    set (cells := meshgrid_rows _). clearbody cells.
    induction cells as [|cell cells IH]; [done|].
    rewrite !filter_cons. simpl.
    destruct (Qltb (metric_func c (cells_physical g cell))
                   (upper !!! i + cell_radii g)); simpl.
    + destruct (Qltb (lower !!! i - cell_radii g)
                     (metric_func c (cells_physical g cell))); simpl.
      * by constructor.
      * by constructor.
    + done.
Qed.

Lemma neighbor_distance_sublist `{Numerics} (g : GriSPy) centres
    (cells1 cells2 : list (list (list Z))) :
  Forall2 sublist cells1 cells2 →
  Forall2 sublist (_get_neighbor_distance g centres cells1)
                  (_get_neighbor_distance g centres cells2).
Proof.
  intros Hcells. apply Forall2_same_length_lookup.
  pose proof (Forall2_length _ _ _ Hcells) as Hlen.
  split.
  { unfold _get_neighbor_distance. rewrite !length_zip_with. lia. }
  intros i r1 r2 H1 H2.
  assert (is_Some (centres !! i)) as [c Hc].
  { apply lookup_lt_is_Some. apply lookup_lt_Some in H1.
    unfold _get_neighbor_distance in H1. rewrite length_zip_with in H1. lia. }
  assert (is_Some (cells1 !! i)) as [cs1 Hcs1].
  { apply lookup_lt_is_Some. apply lookup_lt_Some in H1.
    unfold _get_neighbor_distance in H1. rewrite length_zip_with in H1. lia. }
  destruct (Forall2_lookup_l _ _ _ _ _ Hcells Hcs1) as (cs2 & Hcs2 & Hsub).
  rewrite (neighbor_distance_lookup g centres cells1 i c cs1 Hc Hcs1) in H1.
  rewrite (neighbor_distance_lookup g centres cells2 i c cs2 Hc Hcs2) in H2.
  injection H1 as <-. injection H2 as <-.
  apply fmap_sublist, sublist_join, fmap_sublist. done.
Qed.

Lemma filter_sublist {A} (P : A → Prop) `{!∀ x, Decision (P x)}
    (l1 l2 : list A) :
  l1 `sublist_of` l2 → filter P l1 `sublist_of` filter P l2.
Proof.
  induction 1 as [|x l1 l2 _ IH|x l1 l2 _ IH]; [done| |].
  - rewrite !filter_cons. case_decide; [by constructor|done].
  - rewrite filter_cons. case_decide; [by constructor|done].
Qed.

(** *** Sorting by distance *)

Lemma argsort_insert_perm (keys : list Q) (i : nat) (p : list nat) :
  argsort_insert keys i p ≡ₚ i :: p.
Proof.
  induction p as [|j p IH]; simpl; [done|].
  destruct (Qle_bool _ _); [done|]. rewrite IH. apply Permutation_swap.
Qed.

Lemma argsort_insert_sorted (keys : list Q) (i : nat) (p : list nat) :
  StronglySorted (λ a b, keys !!! a <= keys !!! b)%Q p →
  StronglySorted (λ a b, keys !!! a <= keys !!! b)%Q (argsort_insert keys i p).
Proof.
  induction 1 as [|j p Hp IH Hj]; simpl; [by repeat constructor|].
  destruct (Qle_bool (keys !!! i) (keys !!! j)) eqn:E.
  - apply Qle_bool_iff in E. constructor; [by constructor|].
    constructor; [done|]. eapply Forall_impl; [exact Hj|].
    intros b Hb. simpl in *. by eapply Qle_trans.
  - constructor; [done|]. rewrite argsort_insert_perm.
    constructor; [|done]. simpl.
    destruct (Qlt_le_dec (keys !!! i) (keys !!! j)) as [Hlt|Hle]; [|done].
    apply Qlt_le_weak in Hlt. apply Qle_bool_iff in Hlt. congruence.
Qed.

Lemma stable_argsort_sorts (keys : list Q) :
  sorts_keys keys (stable_argsort keys).
Proof.
  unfold sorts_keys, stable_argsort. generalize (seq 0 (length keys)).
  intros l. split.
  - induction l as [|i l IH]; simpl; [done|].
    by rewrite argsort_insert_perm, IH.
  - unfold gather.
    apply (StronglySorted_fmap _ (λ a b, keys !!! a <= keys !!! b)%Q);
      [done|].
    induction l as [|i l IH]; simpl; [constructor|].
    by apply argsort_insert_sorted.
Qed.

Lemma sorts_keys_gather {A} `{!Inhabited A} (f : A → Q) (l : list A)
    (p : list nat) :
  sorts_keys (f <$> l) p →
  gather l p ≡ₚ l ∧ StronglySorted Qle (f <$> gather l p).
Proof.
  intros [Hperm Hsorted]. rewrite length_fmap in Hperm. split.
  - unfold gather. rewrite Hperm. clear.
    induction l as [|x l IH] using rev_ind; [done|].
    rewrite length_app. simpl. rewrite seq_app, fmap_app. simpl.
    rewrite list_lookup_total_middle by done.
    apply Permutation_app; [|done].
    rewrite <- IH at 2. apply reflexive_eq, list_fmap_ext.
    intros i j [-> Hj]%lookup_seq. by rewrite lookup_total_app_l.
  - rewrite <- gather_fmap; [done|].
    apply Forall_forall. intros i Hi. rewrite Hperm in Hi.
    apply elem_of_seq in Hi. lia.
Qed.

Lemma bubble_sorted_lookup `{Numerics} (g : GriSPy) centres b (sorted : bool) i :
  bubble_neighbors g centres b sorted !! i
  = sort_by_distance sorted <$> bubble_neighbors g centres b false !! i.
Proof.
  unfold bubble_neighbors. rewrite !list_lookup_imap.
  by destruct (merge_terran _ _ _ _ !! i).
Qed.

Lemma shell_sorted_lookup `{Numerics} (g : GriSPy) centres bl bu
    (sorted : bool) i :
  shell_neighbors g centres bl bu sorted !! i
  = sort_by_distance sorted <$> shell_neighbors g centres bl bu false !! i.
Proof.
  unfold shell_neighbors. rewrite !list_lookup_imap.
  by destruct (merge_terran _ _ _ _ !! i).
Qed.

(** X9: both queries answer every centre: the result of
    [bubble_neighbors] and of [shell_neighbors] has one entry per centre,
    on every index, with or without periodic axes, sorted or not. *)
Theorem queries_answer_every_centre `{Numerics} (g : GriSPy)
    (centres : list (list Q)) (bl bu : bound) (sorted : bool) :
  length (bubble_neighbors g centres bu sorted) = length centres
  ∧ length (shell_neighbors g centres bl bu sorted) = length centres.
Proof.
  unfold bubble_neighbors, shell_neighbors.
  rewrite !length_imap, !merge_terran_length.
  rewrite !neighbor_distance_length by apply neighbor_cells_length. done.
Qed.

(** X10: with [sorted=True], and a sorting routine that sorts, the result
    of each centre holds the same pairs as with [sorted=False], in
    ascending order of distance; for [bubble_neighbors] and for
    [shell_neighbors]. *)
Theorem sorted_results_ascending `{Numerics} (g : GriSPy)
    (centres : list (list Q)) (bl bu : bound) (i : nat) :
  (∀ keys, sorts_keys keys (argsort keys)) →
  (∀ res, bubble_neighbors g centres bu false !! i = Some res →
     ∃ res', bubble_neighbors g centres bu true !! i = Some res'
       ∧ res' ≡ₚ res ∧ StronglySorted Qle res'.*1)
  ∧ (∀ res, shell_neighbors g centres bl bu false !! i = Some res →
       ∃ res', shell_neighbors g centres bl bu true !! i = Some res'
         ∧ res' ≡ₚ res ∧ StronglySorted Qle res'.*1).
Proof.
  intros Hsort. split.
  - intros res Hres. rewrite bubble_sorted_lookup, Hres. simpl.
    eexists. split; [done|]. apply sorts_keys_gather, Hsort.
  - intros res Hres. rewrite shell_sorted_lookup, Hres. simpl.
    eexists. split; [done|]. apply sorts_keys_gather, Hsort.
Qed.

Lemma sorted_results_ascending_witness :
  (∀ keys, sorts_keys keys (argsort (Numerics := axis1) keys))
  ∧ (∀ res,
       bubble_neighbors (H := axis1) (built line3 2 ∅) line3_centres
         (Scalar 1%Q) false !! 0%nat = Some res →
       ∃ res',
         bubble_neighbors (H := axis1) (built line3 2 ∅) line3_centres
           (Scalar 1%Q) true !! 0%nat = Some res'
         ∧ res' ≡ₚ res ∧ StronglySorted Qle res'.*1)
  ∧ (∀ res,
       shell_neighbors (H := axis1) (built line3 2 ∅) line3_centres
         (Scalar 0%Q) (Scalar 1%Q) false !! 0%nat = Some res →
       ∃ res',
         shell_neighbors (H := axis1) (built line3 2 ∅) line3_centres
           (Scalar 0%Q) (Scalar 1%Q) true !! 0%nat = Some res'
         ∧ res' ≡ₚ res ∧ StronglySorted Qle res'.*1).
Proof.
  split; [exact stable_argsort_sorts|].
  apply (sorted_results_ascending (H := axis1) (built line3 2 ∅)
           line3_centres (Scalar 0%Q) (Scalar 1%Q) 0).
  exact stable_argsort_sorts.
Defined.

(** X11: on every index, periodic or not, what [shell_neighbors] returns
    for a centre is a subsequence of what [bubble_neighbors] returns for it
    with the same upper bound, and every distance returned is above the
    lower bound and not above the upper bound. *)
Theorem shell_within_bubble `{Numerics} (g : GriSPy)
    (centres : list (list Q)) (bl bu : bound) (i : nat)
    (res : list (Q * nat)) :
  shell_neighbors g centres bl bu false !! i = Some res →
  ∃ resb, bubble_neighbors g centres bu false !! i = Some resb
    ∧ res `sublist_of` resb
    ∧ ∀ d j, (d, j) ∈ res →
        (match_shape bl centres !!! i < d)%Q
        ∧ (d <= match_shape bu centres !!! i)%Q.
Proof.
  unfold shell_neighbors, bubble_neighbors. simpl.
  set (lower := match_shape bl centres). set (upper := match_shape bu centres).
  pose proof (merge_terran_sublist g centres upper _ _
                (neighbor_distance_sublist g centres _ _
                   (neighbor_cells_shell_sublist g centres upper lower)))
    as Hsub.
  rewrite !list_lookup_imap. intros Hres.
  destruct (merge_terran g centres upper
              (_get_neighbor_distance g centres
                 (_get_neighbor_cells g centres upper lower true)) !! i)
    as [nb1|] eqn:E1; [|done].
  destruct (Forall2_lookup_l _ _ _ _ _ Hsub E1) as (nb2 & -> & Hnb).
  simpl in *. injection Hres as <-. eexists. split; [done|]. split.
  - etrans; [apply sublist_filter|]. by apply filter_sublist.
  - intros d j [Hlo [Hhi _]%list_elem_of_filter]%list_elem_of_filter.
    simpl in *. split.
    + by apply Qltb_lt, Is_true_true.
    + by apply Qle_bool_iff, Is_true_true.
Qed.

Lemma shell_within_bubble_witness :
  ∃ res,
    shell_neighbors (H := axis1) (built wrap_points 20 wrap_domain)
      wrap_centres (Scalar (1 # 10)%Q) (Scalar (1 # 2)%Q) false !! 0%nat
    = Some res
    ∧ ∃ resb,
        bubble_neighbors (H := axis1) (built wrap_points 20 wrap_domain)
          wrap_centres (Scalar (1 # 2)%Q) false !! 0%nat = Some resb
        ∧ res `sublist_of` resb
        ∧ ∀ d j, (d, j) ∈ res →
            (match_shape (Scalar (1 # 10)%Q) wrap_centres !!! 0%nat < d)%Q
            ∧ (d <= match_shape (Scalar (1 # 2)%Q) wrap_centres !!! 0%nat)%Q.
Proof.
  eexists. split; [vm_compute; reflexivity|].
  apply (shell_within_bubble (H := axis1) (built wrap_points 20 wrap_domain)
           wrap_centres (Scalar (1 # 10)%Q) (Scalar (1 # 2)%Q) 0).
  vm_compute; reflexivity.
Defined.

(** ** The queries, centre by centre *)

(** X12: a batch is answered centre by centre.  On an index built over a
    valid data set without periodic axes, with a distance that is at least
    the offset along every axis, [bubble_neighbors] returns for a centre of
    a batch what it returns for that centre queried alone with its own
    radius, whether or not other centres of the batch are out of the
    field. *)
Theorem bubble_batch_independent `{Numerics} (points : list (list Q))
    (N : nat) (pspec : gmap nat (option (Q * Q))) (g : GriSPy)
    (centres : list (list Q)) (b : bound) (sorted : bool)
    (i : nat) (c : list Q) (r : Q) :
  valid_data points → (1 ≤ N)%nat → argsort_sorts_cells points N →
  GriSPy_init points N pspec = Some g →
  periodic_flag_ g = false →
  (∀ a b k, (k < dim_ g)%nat →
     (Qabs (a !!! k - b !!! k) <= metric_func a b)%Q) →
  centres !! i = Some c → match_shape b centres !! i = Some r →
  bubble_neighbors g centres b sorted !! i
  = bubble_neighbors g [c] (Scalar r) sorted !! 0%nat.
Proof.
  intros Hvalid HN Hsort Hinit Hflag Hcoord Hc Hr.
  rewrite (bubble_sorted_lookup g centres), (bubble_sorted_lookup g [c]).
  f_equal.
  destruct (decide (out_of_field g c r = true)) as [Hout|Hin].
  { rewrite (bubble_neighbors_out_of_field points N pspec g Hvalid HN Hsort
               Hinit centres b i c r Hflag Hcoord Hc Hr Hout).
    by rewrite (bubble_neighbors_out_of_field points N pspec g Hvalid HN Hsort
                  Hinit [c] (Scalar r) 0 c r Hflag Hcoord eq_refl eq_refl Hout). }
  apply not_true_is_false in Hin.
  destruct (bubble_neighbors_lookup g centres b i c Hflag Hc)
    as (cs & Hcs & ->).
  destruct (bubble_neighbors_lookup g [c] (Scalar r) 0 c Hflag eq_refl)
    as (cs' & Hcs' & ->).
  rewrite (list_lookup_total_correct _ _ _ Hr). simpl.
  enough (cs = cs') by congruence.
  unfold _get_neighbor_cells in Hcs, Hcs'. simpl in Hcs'.
  rewrite Hin in Hcs'. simpl in Hcs'. injection Hcs' as <-.
  destruct (forallb _ (zip centres (match_shape b centres))) eqn:Hall.
  { assert (zip centres (match_shape b centres) !! i = Some (c, r)) as Hz.
    { by rewrite lookup_zip_with, Hc, Hr. }
    pose proof (forallb_lookup _ _ _ _ Hall Hz) as Hout. simpl in Hout.
    congruence. }
  rewrite list_lookup_imap, Hc in Hcs. simpl in Hcs.
  rewrite (list_lookup_total_correct _ _ _ Hr) in Hcs. by injection Hcs as <-.
Qed.

Lemma bubble_batch_independent_witness :
  valid_data line3 ∧ (1 ≤ 2)%nat ∧ argsort_sorts_cells (H := axis1) line3 2
  ∧ GriSPy_init (H := axis1) line3 2 ∅ = Some (built line3 2 ∅)
  ∧ periodic_flag_ (built line3 2 ∅) = false
  ∧ (∀ a b k, (k < dim_ (built line3 2 ∅))%nat →
       (Qabs (a !!! k - b !!! k) <= metric_func (Numerics := axis1) a b)%Q)
  ∧ line3_centres !! 1%nat = Some [3%Q]
  ∧ match_shape (PerCentre [(1 # 3)%Q; 1%Q]) line3_centres !! 1%nat = Some 1%Q
  ∧ bubble_neighbors (H := axis1) (built line3 2 ∅) line3_centres
      (PerCentre [(1 # 3)%Q; 1%Q]) false !! 1%nat
    = bubble_neighbors (H := axis1) (built line3 2 ∅) [[3%Q]]
        (Scalar 1%Q) false !! 0%nat.
Proof.
  destruct (line3_built 2 ltac:(by right)) as (Hb2 & Hf2 & Hm2).
  split; [exact line3_valid|]. split; [lia|]. split; [exact line3_argsort|].
  split; [exact Hb2|]. split; [exact Hf2|]. split; [exact (proj1 Hm2)|].
  split; [reflexivity|]. split; [reflexivity|].
  apply (bubble_batch_independent (H := axis1) line3 2 ∅ (built line3 2 ∅)
           line3_centres (PerCentre [(1 # 3)%Q; 1%Q]) false 1 [3%Q] 1%Q);
    [exact line3_valid|lia|exact line3_argsort|exact Hb2|exact Hf2
    |exact (proj1 Hm2)|reflexivity|reflexivity].
Defined.

Lemma shell_bucket_sublist `{Numerics} (g : GriSPy) centres bl bu i res :
  shell_neighbors g centres bl bu false !! i = Some res →
  ∃ resb, bubble_neighbors g centres bu false !! i = Some resb
    ∧ res `sublist_of` resb.
Proof.
  unfold shell_neighbors, bubble_neighbors. simpl.
  set (lower := match_shape bl centres). set (upper := match_shape bu centres).
  pose proof (merge_terran_sublist g centres upper _ _
                (neighbor_distance_sublist g centres _ _
                   (neighbor_cells_shell_sublist g centres upper lower)))
    as Hsub.
  rewrite !list_lookup_imap. intros Hres.
  destruct (merge_terran g centres upper
              (_get_neighbor_distance g centres
                 (_get_neighbor_cells g centres upper lower true)) !! i)
    as [nb1|] eqn:E1; [|done].
  destruct (Forall2_lookup_l _ _ _ _ _ Hsub E1) as (nb2 & -> & Hnb).
  simpl in *. injection Hres as <-. eexists. split; [done|].
  etrans; [apply sublist_filter|]. by apply filter_sublist.
Qed.

(** X13: the same for [shell_neighbors]: a centre of a batch gets what
    it gets when queried alone with its own two bounds. *)
Theorem shell_batch_independent `{Numerics} (points : list (list Q))
    (N : nat) (pspec : gmap nat (option (Q * Q))) (g : GriSPy)
    (centres : list (list Q)) (bl bu : bound) (sorted : bool)
    (i : nat) (c : list Q) (lower upper : Q) :
  valid_data points → (1 ≤ N)%nat → argsort_sorts_cells points N →
  GriSPy_init points N pspec = Some g →
  periodic_flag_ g = false →
  (∀ a b k, (k < dim_ g)%nat →
     (Qabs (a !!! k - b !!! k) <= metric_func a b)%Q) →
  centres !! i = Some c →
  match_shape bl centres !! i = Some lower →
  match_shape bu centres !! i = Some upper →
  shell_neighbors g centres bl bu sorted !! i
  = shell_neighbors g [c] (Scalar lower) (Scalar upper) sorted !! 0%nat.
Proof.
  intros Hvalid HN Hsort Hinit Hflag Hcoord Hc Hl Hu.
  rewrite (shell_sorted_lookup g centres), (shell_sorted_lookup g [c]).
  f_equal.
  destruct (shell_neighbors_lookup g centres bl bu i c Hflag Hc)
    as (cs & Hcs & Hres).
  destruct (shell_neighbors_lookup g [c] (Scalar lower) (Scalar upper) 0 c
              Hflag eq_refl) as (cs' & Hcs' & Hres').
  destruct (decide (out_of_field g c upper = true)) as [Hout|Hin].
  { assert (Hempty : ∀ cen l u k res,
      cen !! k = Some c → match_shape u cen !! k = Some upper →
      shell_neighbors g cen l u false !! k = Some res → res = []).
    { intros cen l u k res Hk Huk Hs.
      destruct (shell_bucket_sublist g cen l u k res Hs) as (resb & Hb & Hsub).
      rewrite (bubble_neighbors_out_of_field points N pspec g Hvalid HN Hsort
                 Hinit cen u k c upper Hflag Hcoord Hk Huk Hout) in Hb.
      injection Hb as <-. by apply sublist_nil_r. }
    rewrite Hres, Hres'. f_equal.
    rewrite (Hempty centres bl bu i _ Hc Hu Hres).
    by rewrite (Hempty [c] (Scalar lower) (Scalar upper) 0%nat _ eq_refl
                  eq_refl Hres'). }
  apply not_true_is_false in Hin. rewrite Hres, Hres'.
  rewrite (list_lookup_total_correct _ _ _ Hl).
  rewrite (list_lookup_total_correct _ _ _ Hu). simpl.
  enough (cs = cs') by congruence.
  unfold _get_neighbor_cells in Hcs, Hcs'. simpl in Hcs'.
  rewrite Hin in Hcs'. simpl in Hcs'. injection Hcs' as <-.
  destruct (forallb _ (zip centres (match_shape bu centres))) eqn:Hall.
  { assert (zip centres (match_shape bu centres) !! i = Some (c, upper)) as Hz.
    { by rewrite lookup_zip_with, Hc, Hu. }
    pose proof (forallb_lookup _ _ _ _ Hall Hz) as Hout. simpl in Hout.
    congruence. }
  rewrite list_lookup_imap, Hc in Hcs. simpl in Hcs.
  rewrite (list_lookup_total_correct _ _ _ Hl) in Hcs.
  rewrite (list_lookup_total_correct _ _ _ Hu) in Hcs. by injection Hcs as <-.
Qed.

Lemma shell_batch_independent_witness :
  valid_data line3 ∧ (1 ≤ 2)%nat ∧ argsort_sorts_cells (H := axis1) line3 2
  ∧ GriSPy_init (H := axis1) line3 2 ∅ = Some (built line3 2 ∅)
  ∧ periodic_flag_ (built line3 2 ∅) = false
  ∧ (∀ a b k, (k < dim_ (built line3 2 ∅))%nat →
       (Qabs (a !!! k - b !!! k) <= metric_func (Numerics := axis1) a b)%Q)
  ∧ line3_centres !! 0%nat = Some [(1 # 4)%Q]
  ∧ match_shape (Scalar (1 # 10)%Q) line3_centres !! 0%nat = Some (1 # 10)%Q
  ∧ match_shape (PerCentre [(1 # 3)%Q; 1%Q]) line3_centres !! 0%nat
    = Some (1 # 3)%Q
  ∧ shell_neighbors (H := axis1) (built line3 2 ∅) line3_centres
      (Scalar (1 # 10)%Q) (PerCentre [(1 # 3)%Q; 1%Q]) false !! 0%nat
    = shell_neighbors (H := axis1) (built line3 2 ∅) [[(1 # 4)%Q]]
        (Scalar (1 # 10)%Q) (Scalar (1 # 3)%Q) false !! 0%nat.
Proof.
  destruct (line3_built 2 ltac:(by right)) as (Hb2 & Hf2 & Hm2).
  split; [exact line3_valid|]. split; [lia|]. split; [exact line3_argsort|].
  split; [exact Hb2|]. split; [exact Hf2|]. split; [exact (proj1 Hm2)|].
  split; [reflexivity|]. split; [reflexivity|]. split; [reflexivity|].
  apply (shell_batch_independent (H := axis1) line3 2 ∅ (built line3 2 ∅)
           line3_centres (Scalar (1 # 10)%Q) (PerCentre [(1 # 3)%Q; 1%Q])
           false 0 [(1 # 4)%Q] (1 # 10)%Q (1 # 3)%Q);
    [exact line3_valid|lia|exact line3_argsort|exact Hb2|exact Hf2
    |exact (proj1 Hm2)|reflexivity|reflexivity|reflexivity].
Defined.

(** X14: a larger radius loses no neighbour, up to the 64-bit range.  On
    an index built over a valid data set without periodic axes, with a
    distance that fits the grid, every pair [bubble_neighbors] returns
    for a radius is returned for every strictly larger radius for which
    centre plus radius, counted in cells from the first edge, stays below
    [2^63] on every axis. *)
Theorem bubble_grows_with_radius `{Numerics} (points : list (list Q))
    (N : nat) (pspec : gmap nat (option (Q * Q))) (g : GriSPy)
    (centres : list (list Q)) (i : nat) (c : list Q) (r1 r2 : Q) :
  valid_data points → (1 ≤ N)%nat → argsort_sorts_cells points N →
  GriSPy_init points N pspec = Some g →
  periodic_flag_ g = false → metric_fits g →
  centres !! i = Some c → (r1 < r2)%Q → reach_fits g c r2 →
  ∃ res1 res2,
    bubble_neighbors g centres (Scalar r1) false !! i = Some res1
    ∧ bubble_neighbors g centres (Scalar r2) false !! i = Some res2
    ∧ ∀ d j, (d, j) ∈ res1 → (d, j) ∈ res2.
Proof.
  intros Hvalid HN Hsort Hinit Hflag Hfits Hc Hlt Hreach.
  assert (Hr : ∀ r, match_shape (Scalar r) centres !! i = Some r).
  { intros r. simpl. apply lookup_replicate_2. by eapply lookup_lt_Some. }
  destruct (bubble_neighbors_spec points N pspec g Hvalid HN Hsort Hinit
              centres (Scalar r1) i c r1 Hflag Hfits Hc (Hr r1))
    as (res1 & Hres1 & _ & Hs1 & _).
  destruct (bubble_neighbors_spec points N pspec g Hvalid HN Hsort Hinit
              centres (Scalar r2) i c r2 Hflag Hfits Hc (Hr r2))
    as (res2 & Hres2 & _ & _ & _ & Hc2).
  exists res1, res2. split; [done|]. split; [done|].
  intros d j Hin. destruct (Hs1 d j Hin) as (Hj & -> & Hd).
  apply Hc2; [done|done|]. lra.
Qed.

Lemma bubble_grows_with_radius_witness :
  valid_data line3 ∧ (1 ≤ 2)%nat ∧ argsort_sorts_cells (H := axis1) line3 2
  ∧ GriSPy_init (H := axis1) line3 2 ∅ = Some (built line3 2 ∅)
  ∧ periodic_flag_ (built line3 2 ∅) = false
  ∧ metric_fits (H := axis1) (built line3 2 ∅)
  ∧ line3_centres !! 0%nat = Some [(1 # 4)%Q] ∧ (1 # 4 < 1 # 3)%Q
  ∧ reach_fits (built line3 2 ∅) [(1 # 4)%Q] (1 # 3)%Q
  ∧ ∃ res1 res2,
      bubble_neighbors (H := axis1) (built line3 2 ∅) line3_centres
        (Scalar (1 # 4)%Q) false !! 0%nat = Some res1
      ∧ bubble_neighbors (H := axis1) (built line3 2 ∅) line3_centres
          (Scalar (1 # 3)%Q) false !! 0%nat = Some res2
      ∧ ∀ d j, (d, j) ∈ res1 → (d, j) ∈ res2.
Proof.
  destruct (line3_built 2 ltac:(by right)) as (Hb2 & Hf2 & Hm2).
  split; [exact line3_valid|]. split; [lia|]. split; [exact line3_argsort|].
  split; [exact Hb2|]. split; [exact Hf2|]. split; [exact Hm2|].
  split; [reflexivity|]. split; [reflexivity|].
  split; [apply line3_reach; [by right|by vm_compute]|].
  apply (bubble_grows_with_radius (H := axis1) line3 2 ∅ (built line3 2 ∅)
           line3_centres 0 [(1 # 4)%Q] (1 # 4)%Q (1 # 3)%Q);
    [exact line3_valid|lia|exact line3_argsort|exact Hb2|exact Hf2|exact Hm2
    |reflexivity|reflexivity|apply line3_reach; [by right|by vm_compute]].
Defined.

(** ** The queries with periodic axes *)

Lemma zip_seq_elem {A} (l : list A) (n : nat) :
  Forall (λ it : A * nat, l !! it.2 = Some it.1) (zip l (seq 0 n)).
Proof.
  apply Forall_lookup. intros t [x t'] Hit.
  apply lookup_zip_with_Some in Hit as (x' & t'' & [= <- <-] & Hx & Ht).
  apply lookup_seq in Ht as [-> _]. done.
Qed.

Lemma merge_terran_elem `{Numerics} (g : GriSPy) centres upper
    (nb : list (list (Q * nat))) (i : nat) (x : Q * nat) :
  x ∈ merge_terran g centres upper nb !!! i →
  x ∈ nb !!! i
  ∨ ∃ t m, (_mirror_universe g centres upper).2 !! t = Some i
      ∧ (_mirror_universe g centres upper).1 !! t = Some m
      ∧ x ∈ _get_neighbor_distance g (_mirror_universe g centres upper).1
              (_get_neighbor_cells g (_mirror_universe g centres upper).1
                 (gather upper (_mirror_universe g centres upper).2) [] false)
            !!! t.
Proof.
  unfold merge_terran. destruct (periodic_flag_ g); [|by left].
  pose proof (mirror_universe_spec g centres upper) as Hal.
  destruct (_mirror_universe g centres upper) as [tc ti]. simpl.
  destruct (Hal tc ti eq_refl) as [Hlen Hal'].
  set (tn := _get_neighbor_distance g tc _). clearbody tn.
  revert i x.
  apply (foldl_invariant
    (λ nb' : list (list (Q * nat)),
       ∀ i x, x ∈ nb' !!! i →
         x ∈ nb !!! i
         ∨ ∃ t m, ti !! t = Some i ∧ tc !! t = Some m ∧ x ∈ tn !!! t)
    (λ it : nat * nat, ti !! it.2 = Some it.1)).
  - apply zip_seq_elem.
  - intros i x Hx. by left.
  - intros nb' [i' t] Hit IH i x Hx. simpl in *.
    destruct (decide (i' < length nb')%nat) as [Hlt|Hge].
    + destruct (decide (i = i')) as [->|Hne].
      * rewrite list_lookup_total_insert_eq in Hx by done.
        apply elem_of_app in Hx as [Hx|Hx]; [by apply IH|].
        right. destruct (Hal' t i' Hit) as (_ & m & _ & Hm & _). eauto.
      * rewrite list_lookup_total_insert_ne in Hx by done. by apply IH.
    + rewrite list_insert_ge in Hx by lia. by apply IH.
Qed.

(** X15: what a periodic index returns.  On an index built over a valid
    data set, with or without periodic axes, every pair [bubble_neighbors]
    returns for a centre holds the index of a data point and a distance not
    above the radius, and that distance is the distance to the point from
    the centre itself or from one of its mirror images: the centre minus a
    row of [_periodic_edges] that [_mirror] keeps. *)
Theorem periodic_neighbors_from_images `{Numerics} (points : list (list Q))
    (N : nat) (pspec : gmap nat (option (Q * Q))) (g : GriSPy)
    (centres : list (list Q)) (b : bound) (i : nat) (c : list Q) (r : Q)
    (res : list (Q * nat)) :
  valid_data points → (1 ≤ N)%nat → argsort_sorts_cells points N →
  GriSPy_init points N pspec = Some g →
  centres !! i = Some c → match_shape b centres !! i = Some r →
  bubble_neighbors g centres b false !! i = Some res →
  ∀ d j, (d, j) ∈ res →
    (j < length points)%nat ∧ (d <= r)%Q
    ∧ (d = metric_func c (points !!! j)
       ∨ ∃ e, e ∈ _periodic_edges g
           ∧ zip_with Qminus c e ∈ _mirror g c r
           ∧ d = metric_func (zip_with Qminus c e) (points !!! j)).
Proof.
  intros Hvalid HN Hsort Hinit Hc Hr Hres d j Hin.
  unfold bubble_neighbors in Hres. rewrite list_lookup_imap in Hres.
  set (upper := match_shape b centres) in *.
  destruct (merge_terran g centres upper _ !! i) as [nb|] eqn:Hnb; [|done].
  simpl in Hres. injection Hres as <-.
  rewrite (list_lookup_total_correct _ _ _ Hr) in Hin.
  apply list_elem_of_filter in Hin as [Hd Hin]. simpl in Hd.
  apply Is_true_true, Qle_bool_iff in Hd.
  rewrite <- (list_lookup_total_correct _ _ _ Hnb) in Hin.
  apply merge_terran_elem in Hin as [Hin|(t & m & Hti & Htc & Hin)].
  - destruct (neighbor_cells_lookup g centres upper [] false i c Hc)
      as [cs Hcs].
    rewrite (list_lookup_total_correct _ _ _
               (neighbor_distance_lookup g centres _ i c cs Hc Hcs)) in Hin.
    destruct (candidate_sound points N pspec g Hvalid HN Hsort Hinit
                c cs d j Hin) as [Hj ->].
    split_and!; [done|done|by left].
  - destruct (mirror_universe_spec g centres upper _ _
                (surjective_pairing _)) as [_ Hal].
    destruct (Hal t i Hti) as (c' & m' & Hc' & Hm' & Hmir & _).
    assert (c' = c) as -> by congruence.
    assert (m' = m) as -> by congruence.
    rewrite (list_lookup_total_correct _ _ _ Hr) in Hmir.
    destruct (neighbor_cells_lookup g (_mirror_universe g centres upper).1
                (gather upper (_mirror_universe g centres upper).2) [] false
                t m Htc) as [cs Hcs].
    rewrite (list_lookup_total_correct _ _ _
               (neighbor_distance_lookup g _ _ t m cs Htc Hcs)) in Hin.
    destruct (candidate_sound points N pspec g Hvalid HN Hsort Hinit
                m cs d j Hin) as [Hj ->].
    split_and!; [done|done|right].
    destruct (mirror_shift g c r m Hmir) as (e & He & ->). eauto.
Qed.

Lemma periodic_neighbors_from_images_witness :
  ∃ res,
    valid_data wrap_points ∧ (1 ≤ 20)%nat
    ∧ argsort_sorts_cells (H := axis1) wrap_points 20
    ∧ GriSPy_init (H := axis1) wrap_points 20 wrap_domain
      = Some (built wrap_points 20 wrap_domain)
    ∧ wrap_centres !! 0%nat = Some [(1 # 10)%Q]
    ∧ match_shape (Scalar (1 # 2)%Q) wrap_centres !! 0%nat = Some (1 # 2)%Q
    ∧ bubble_neighbors (H := axis1) (built wrap_points 20 wrap_domain)
        wrap_centres (Scalar (1 # 2)%Q) false !! 0%nat = Some res
    ∧ ∀ d j, (d, j) ∈ res →
        (j < length wrap_points)%nat ∧ (d <= 1 # 2)%Q
        ∧ (d = euclid1 [(1 # 10)%Q] (wrap_points !!! j)
           ∨ ∃ e, e ∈ _periodic_edges (built wrap_points 20 wrap_domain)
               ∧ zip_with Qminus [(1 # 10)%Q] e
                 ∈ _mirror (built wrap_points 20 wrap_domain)
                     [(1 # 10)%Q] (1 # 2)%Q
               ∧ d = euclid1 (zip_with Qminus [(1 # 10)%Q] e)
                       (wrap_points !!! j)).
Proof.
  assert (Hv : valid_data wrap_points).
  { split_and!; [done|vm_compute; lia|by repeat constructor]. }
  assert (Hs : argsort_sorts_cells (H := axis1) wrap_points 20).
  { intros compact Hc. apply stable_argsort_sorts. }
  eexists. split; [exact Hv|]. split; [lia|]. split; [exact Hs|].
  split; [by vm_compute|]. split; [reflexivity|]. split; [reflexivity|].
  split; [vm_compute; reflexivity|].
  apply (periodic_neighbors_from_images (H := axis1) wrap_points 20
           wrap_domain (built wrap_points 20 wrap_domain) wrap_centres
           (Scalar (1 # 2)%Q) 0 [(1 # 10)%Q] (1 # 2)%Q);
    [exact Hv|lia|exact Hs|by vm_compute|reflexivity|reflexivity
    |vm_compute; reflexivity].
Defined.

Lemma merge_terran_interior `{Numerics} (g : GriSPy) centres upper
    (nb : list (list (Q * nat))) (i : nat) :
  _near_boundary g centres upper !!! i = false →
  merge_terran g centres upper nb !! i = nb !! i.
Proof.
  intros Hnear. unfold merge_terran. destruct (periodic_flag_ g); [|done].
  pose proof (mirror_universe_spec g centres upper) as Hal.
  destruct (_mirror_universe g centres upper) as [tc ti].
  destruct (Hal tc ti eq_refl) as [_ Hal'].
  set (tn := _get_neighbor_distance g tc _). clearbody tn.
  apply (foldl_invariant
    (λ nb' : list (list (Q * nat)), nb' !! i = nb !! i)
    (λ it : nat * nat, ti !! it.2 = Some it.1)).
  - apply zip_seq_elem.
  - done.
  - intros nb' [i' t] Hit IH. simpl in *.
    destruct (Hal' t i' Hit) as (_ & _ & _ & _ & _ & Hn).
    rewrite list_lookup_insert_ne; [done|]. intros ->. congruence.
Qed.

(** X16: periodicity changes nothing for a centre away from the periodic
    boundaries.  For a centre that [_near_boundary] does not flag, both
    queries on the index built with periodic axes return what they return
    on the index built from the same points without periodicity. *)
Theorem interior_centre_ignores_periodicity `{Numerics}
    (points : list (list Q)) (N : nat) (pspec : gmap nat (option (Q * Q)))
    (g g0 : GriSPy) (centres : list (list Q)) (bl bu : bound) (sorted : bool)
    (i : nat) :
  GriSPy_init points N pspec = Some g →
  GriSPy_init points N ∅ = Some g0 →
  _near_boundary g centres (match_shape bu centres) !!! i = false →
  bubble_neighbors g centres bu sorted !! i
  = bubble_neighbors g0 centres bu sorted !! i
  ∧ shell_neighbors g centres bl bu sorted !! i
    = shell_neighbors g0 centres bl bu sorted !! i.
Proof.
  intros Hg Hg0 Hnear.
  unfold GriSPy_init in Hg, Hg0.
  destruct (_build_grid points N) as [[grid bins]|]; [|done].
  simpl in Hg, Hg0. injection Hg as <-. injection Hg0 as <-.
  unfold bubble_neighbors, shell_neighbors. rewrite !list_lookup_imap.
  repeat match goal with
  | |- context [merge_terran ?g' ?c ?u ?nb !! i] =>
      rewrite (merge_terran_interior g' c u nb i Hnear)
  end.
  unfold merge_terran. split; reflexivity.
Qed.

Lemma interior_centre_ignores_periodicity_witness :
  GriSPy_init (H := axis1) wrap_points 20 wrap_domain
    = Some (built wrap_points 20 wrap_domain)
  ∧ GriSPy_init (H := axis1) wrap_points 20 ∅ = Some (built wrap_points 20 ∅)
  ∧ _near_boundary (built wrap_points 20 wrap_domain) [[5%Q]]
      (match_shape (Scalar (1 # 2)%Q) [[5%Q]]) !!! 0%nat = false
  ∧ bubble_neighbors (H := axis1) (built wrap_points 20 wrap_domain)
      [[5%Q]] (Scalar (1 # 2)%Q) false !! 0%nat
    = bubble_neighbors (H := axis1) (built wrap_points 20 ∅)
        [[5%Q]] (Scalar (1 # 2)%Q) false !! 0%nat
  ∧ shell_neighbors (H := axis1) (built wrap_points 20 wrap_domain)
      [[5%Q]] (Scalar (1 # 10)%Q) (Scalar (1 # 2)%Q) false !! 0%nat
    = shell_neighbors (H := axis1) (built wrap_points 20 ∅)
        [[5%Q]] (Scalar (1 # 10)%Q) (Scalar (1 # 2)%Q) false !! 0%nat.
Proof.
  split; [by vm_compute|]. split; [by vm_compute|]. split; [by vm_compute|].
  apply (interior_centre_ignores_periodicity (H := axis1) wrap_points 20
           wrap_domain (built wrap_points 20 wrap_domain)
           (built wrap_points 20 ∅) [[5%Q]] (Scalar (1 # 10)%Q)
           (Scalar (1 # 2)%Q) false 0);
    by vm_compute.
Defined.

(** ** The expanding-shell search: what holds in spite of the index slip *)

Lemma py_take_nat {A} (k : nat) (a : list A) :
  py_take (Z.of_nat k) a = take k a.
Proof. unfold py_take. case_decide; [|lia]. by rewrite Nat2Z.id. Qed.

Lemma not_found_elem (found : list bool) (i : nat) :
  i ∈ not_found found ↔ found !! i = Some false.
Proof.
  unfold not_found. rewrite mask_select_elem. split.
  - intros (t & [-> _]%lookup_seq & Ht). rewrite list_lookup_fmap in Ht.
    simpl. by destruct (found !! t) as [[]|].
  - intros Hi. exists i. split.
    + apply lookup_seq. split; [done|]. by eapply lookup_lt_Some.
    + by rewrite list_lookup_fmap, Hi.
Qed.

Lemma nn_loop_invariant `{Numerics} (g : GriSPy) (P : nn_state → Prop)
    (centres : list (list Q)) (n fuel : nat) (st : nn_state) res :
  (∀ st, P st → forallb id (n_found st) = false →
     P (nn_round g centres n st)) →
  P st → nn_loop g fuel centres n st = Some res →
  ∃ st', P st' ∧ forallb id (n_found st') = true ∧ res = neighbors st'.
Proof.
  intros Hround. revert st.
  induction fuel as [|fuel IH]; intros st Hst; simpl;
    destruct (forallb id (n_found st)) eqn:Hall; try done.
  - intros [= <-]. eauto.
  - intros [= <-]. eauto.
  - apply IH. by apply Hround.
Qed.

Section Counting.
Context `{Numerics}.
Variable g : GriSPy.
Hypothesis Hlen : ∀ keys, length (argsort keys) = length keys.

Lemma nn_visit_counted (m n : nat) tmp st (ii : nat * nat) :
  (ii.2 < m)%nat → nn_counted m n st → nn_counted m n (nn_visit g n tmp st ii).
Proof.
  destruct ii as [i_tmp i]. simpl. intros Hi (Hf & Hnb & Hcount).
  unfold nn_visit. destruct (n_found st !!! i) eqn:Hfound; [done|].
  destruct (Hcount i Hi) as [Hle _].
  set (shell := tmp !!! i_tmp) in *.
  case_decide as Hn; unfold nn_counted; simpl.
  - split_and!; [by rewrite length_insert|by rewrite length_insert|].
    intros i' Hi'. destruct (decide (i' = i)) as [->|Hne].
    + rewrite !list_lookup_total_insert_eq by lia.
      rewrite length_app, gather_length.
      replace (Z.of_nat n - Z.of_nat (length (neighbors st !!! i)))%Z
        with (Z.of_nat (n - length (neighbors st !!! i))) by lia.
      rewrite py_take_nat, length_take, Hlen, length_fmap. lia.
    + rewrite !list_lookup_total_insert_ne by done. by apply Hcount.
  - split_and!; [done|by rewrite length_insert|].
    intros i' Hi'. destruct (decide (i' = i)) as [->|Hne].
    + rewrite list_lookup_total_insert_eq by lia.
      rewrite length_app, gather_length.
      rewrite py_take_nat, length_take, Hlen, length_fmap.
      split; [lia|]. congruence.
    + rewrite !list_lookup_total_insert_ne by done. by apply Hcount.
Qed.

Lemma nn_round_counted (m n : nat) centres st :
  nn_counted m n st → nn_counted m n (nn_round g centres n st).
Proof.
  intros Hst. unfold nn_round.
  apply (foldl_invariant (nn_counted m n) (λ ii : nat * nat, (ii.2 < m)%nat));
    [|done|].
  - apply Forall_lookup. intros t [i_tmp i] Hii.
    rewrite list_lookup_imap in Hii.
    destruct (not_found (n_found st) !! t) as [i'|] eqn:E; [|done].
    simpl in Hii. injection Hii as <- <-. simpl.
    apply list_elem_of_lookup_2, not_found_elem, lookup_lt_Some in E.
    destruct Hst as (Hf & _). lia.
  - intros st' ii Hii Hst'. by apply nn_visit_counted.
Qed.

Lemma nn_init_counted centres n :
  nn_counted (length centres) n (nn_init g centres n).
Proof.
  unfold nn_init, nn_counted. simpl. rewrite !length_replicate.
  split_and!; [done|done|]. intros i Hi.
  rewrite !lookup_total_replicate_2 by done. simpl. split; [lia|done].
Qed.
End Counting.
(** X17: whenever [nearest_neighbors] returns, it returns one entry per
    centre and exactly [n] pairs in each, for every batch of centres: the
    count is kept by centre index, so the slip in the update of the bounds
    does not touch it.  The sorting routine is only assumed to return as
    many positions as it gets keys. *)
Theorem nearest_neighbors_count `{Numerics} (g : GriSPy) (fuel : nat)
    (centres : list (list Q)) (n : nat) (res : list (list (Q * nat))) :
  (∀ keys, length (argsort keys) = length keys) →
  nearest_neighbors g fuel centres n = Some res →
  length res = length centres ∧ Forall (λ l, length l = n) res.
Proof.
  intros Hlen Hres. unfold nearest_neighbors in Hres.
  destruct (nn_loop_invariant g (nn_counted (length centres) n)
              centres n fuel (nn_init g centres n) res)
    as (st & (Hf & Hnb & Hcount) & Hall & ->);
    [|apply nn_init_counted|exact Hres|].
  { intros st Hst _. by apply nn_round_counted. }
  split; [done|]. apply Forall_lookup. intros i l Hl.
  assert (Hi : (i < length centres)%nat).
  { apply lookup_lt_Some in Hl. lia. }
  destruct (Hcount i Hi) as [_ Hn].
  rewrite (list_lookup_total_correct _ _ _ Hl) in Hn. apply Hn.
  destruct (lookup_lt_is_Some_2 (n_found st) i ltac:(lia)) as [b Hb].
  rewrite (list_lookup_total_correct _ _ _ Hb).
  by apply (forallb_lookup id _ _ _ Hall Hb).
Qed.

Lemma stable_argsort_length (keys : list Q) :
  length (stable_argsort keys) = length keys.
Proof.
  destruct (stable_argsort_sorts keys) as [Hperm _].
  by rewrite Hperm, length_seq.
Qed.

Lemma nearest_neighbors_count_witness :
  ∃ res,
    (∀ keys, length (argsort (Numerics := axis1) keys) = length keys)
    ∧ nearest_neighbors (H := axis1) far_index 3 near_batch 2 = Some res
    ∧ length res = length near_batch ∧ Forall (λ l, length l = 2%nat) res.
Proof.
  eexists. split; [exact stable_argsort_length|].
  split; [vm_compute; reflexivity|].
  apply (nearest_neighbors_count (H := axis1) far_index 3 near_batch 2);
    [exact stable_argsort_length|vm_compute; reflexivity].
Defined.

Lemma py_take_prefix {A} (z : Z) (a : list A) : ∃ k, py_take z a = take k a.
Proof. unfold py_take. case_decide; eauto. Qed.

Lemma Qlist_min_nonneg (l : list Q) :
  Forall (λ x, 0 < x)%Q l → (0 <= Qlist_min l)%Q.
Proof.
  destruct l as [|x l]; [done|]. simpl.
  intros [Hx Hl]%Forall_cons. apply Qlt_le_weak.
  induction Hl as [|y l Hy _ IH]; simpl; [done|].
  by apply Q.min_glb_lt.
Qed.

(** The pairs taken from one shell: a prefix of the shell in ascending
    order of distance. *)
Lemma sorted_prefix_facts `{Numerics} (sh : list (Q * nat)) (z : Z) :
  sorts_keys sh.*1 (argsort sh.*1) →
  StronglySorted Qle (gather sh (py_take z (argsort sh.*1))).*1
  ∧ (NoDup sh.*2 → NoDup (gather sh (py_take z (argsort sh.*1))).*2)
  ∧ ∀ x, x ∈ gather sh (py_take z (argsort sh.*1)) → x ∈ sh.
Proof.
  intros Hs. destruct (sorts_keys_gather fst sh _ Hs) as [Hperm Hsorted].
  destruct (py_take_prefix z (argsort sh.*1)) as [k ->].
  unfold gather in *. rewrite fmap_take.
  set (G := (λ i, sh !!! i) <$> argsort sh.*1) in *.
  split; [|split].
  - rewrite fmap_take. rewrite <- (take_drop k (G.*1)) in Hsorted.
    by apply StronglySorted_app_1_l in Hsorted.
  - intros Hnd. rewrite fmap_take.
    eapply sublist_NoDup; [|apply sublist_take]. by rewrite Hperm.
  - intros x Hx. rewrite <- Hperm.
    eapply elem_of_sublist; [exact Hx|apply sublist_take].
Qed.

Section SingleCentre.
Context `{Numerics}.
Variables (points : list (list Q)) (cells_per_axis : nat).
Variable pspec : gmap nat (option (Q * Q)).
Variable g : GriSPy.
Hypothesis Hvalid : valid_data points.
Hypothesis HN : (1 ≤ cells_per_axis)%nat.
Hypothesis Hargsort : ∀ keys, sorts_keys keys (argsort keys).
Hypothesis Hinit : GriSPy_init points cells_per_axis pspec = Some g.
Hypothesis Hflag : periodic_flag_ g = false.

Lemma sorts_all_cells : argsort_sorts_cells points cells_per_axis.
Proof. intros compact _. apply Hargsort. Qed.

Lemma cell_size_min_nonneg : (0 <= Qlist_min (cell_size g))%Q.
Proof.
  apply Qlist_min_nonneg, Forall_lookup. intros k s Hs.
  assert (Hk : (k < dim_ g)%nat).
  { apply lookup_lt_Some in Hs. unfold cell_size in Hs.
    rewrite length_fmap in Hs.
    destruct (init_fields points cells_per_axis pspec g Hinit)
      as (_ & _ & Hdim & Hbins & _).
    rewrite Hbins in Hs. unfold build_k_bins in Hs.
    rewrite length_fmap, length_seq in Hs. by rewrite Hdim. }
  pose proof (built_cell_size points cells_per_axis pspec g Hvalid HN
                sorts_all_cells Hinit k Hk) as Hsize.
  rewrite (list_lookup_total_correct _ _ _ Hs) in Hsize. rewrite Hsize.
  apply step_pos; [apply (axis_spread points Hvalid k)|done].
Qed.

(** One shell around a single centre. *)
Lemma single_shell_facts (c : list Q) (lo up : Q) :
  NoDup (shell_neighbors g [c] (PerCentre [lo]) (PerCentre [up]) false
           !!! 0%nat).*2
  ∧ ∀ d j,
      (d, j) ∈ shell_neighbors g [c] (PerCentre [lo]) (PerCentre [up]) false
               !!! 0%nat →
      (j < length points)%nat ∧ d = metric_func c (points !!! j)
      ∧ (lo < d)%Q ∧ (d <= up)%Q.
Proof.
  destruct (shell_neighbors_lookup g [c] (PerCentre [lo]) (PerCentre [up])
              0 c Hflag eq_refl) as (cs & Hcs & Hsh).
  rewrite (list_lookup_total_correct _ _ _ Hsh). simpl. split.
  - rewrite list_filter_filter.
    eapply (candidate_NoDup points cells_per_axis pspec g Hvalid HN
              sorts_all_cells Hinit).
    by eapply neighbor_cells_NoDup.
  - intros d j [Hlo [Hd Hin]%list_elem_of_filter]%list_elem_of_filter.
    simpl in Hd, Hlo.
    destruct (candidate_sound points cells_per_axis pspec g Hvalid HN
                sorts_all_cells Hinit c cs d j Hin) as [Hj ->].
    split_and!; [done|done| |].
    + by apply Qltb_lt, Is_true_true.
    + by apply Qle_bool_iff, Is_true_true.
Qed.

Lemma nn_round_single (c : list Q) (n : nat) (st : nn_state) :
  nn_counted 1 n st → nn_single_ok points c st →
  forallb id (n_found st) = false →
  nn_single_ok points c (nn_round g [c] n st).
Proof.
  intros (Hf & Hnb & _) (Hl & Hu & Hsorted & Hnd & Hsound & Hopen) Hall.
  destruct st as [found lower upper nbs]. simpl in *.
  destruct found as [|b [|]]; try done.
  destruct lower as [|lo [|]]; try done.
  destruct upper as [|up [|]]; try done.
  destruct nbs as [|nb [|]]; try done.
  destruct b; [done|]. clear Hall Hf Hnb Hl Hu.
  destruct (Hopen eq_refl) as [Hbelow Hgap]. clear Hopen.
  change ([nb] !!! 0%nat) with nb in *.
  change ([lo] !!! 0%nat) with lo in *.
  change ([up] !!! 0%nat) with up in *.
  unfold nn_round. simpl.
  change (not_found [false]) with [0%nat]. simpl.
  change (gather [c] [0%nat]) with [c].
  change (gather [lo] [0%nat]) with [lo].
  change (gather [up] [0%nat]) with [up].
  destruct (single_shell_facts c lo up) as [Hshnd Hsh].
  set (sh := shell_neighbors g [c] (PerCentre [lo]) (PerCentre [up]) false
             !!! 0%nat) in *.
  unfold nn_visit. simpl. fold sh.
  assert (Hnew : ∀ z,
    let chosen := gather sh (py_take z (argsort sh.*1)) in
    StronglySorted Qle (nb ++ chosen).*1
    ∧ NoDup (nb ++ chosen).*2
    ∧ (∀ d j, (d, j) ∈ nb ++ chosen →
         (j < length points)%nat ∧ d = metric_func c (points !!! j))
    ∧ (∀ d j, (d, j) ∈ nb ++ chosen → (d <= up)%Q)).
  { intros z chosen.
    destruct (sorted_prefix_facts sh z (Hargsort _))
      as (Hcs & Hcnd & Hcin). fold chosen in Hcs, Hcnd, Hcin.
    split_and!.
    - rewrite fmap_app. apply StronglySorted_app_2; [|done|done].
      intros d1 d2 ([d1' j1] & -> & H1)%list_elem_of_fmap
                   ([d2' j2] & -> & H2)%list_elem_of_fmap. simpl.
      pose proof (Hbelow _ _ H1).
      destruct (Hsh _ _ (Hcin _ H2)) as (_ & _ & ? & _). lra.
    - rewrite fmap_app. apply NoDup_app. split; [done|]. split; [|auto].
      intros j ([d1 j1] & -> & H1)%list_elem_of_fmap
               ([d2 j2] & Hj & H2)%list_elem_of_fmap. simpl in Hj. subst j2.
      pose proof (Hbelow _ _ H1).
      destruct (Hsound _ _ H1) as [_ ->].
      destruct (Hsh _ _ (Hcin _ H2)) as (_ & -> & ? & _). lra.
    - intros d j [Hin|Hin]%elem_of_app; [by apply Hsound|].
      destruct (Hsh _ _ (Hcin _ Hin)) as (? & ? & _). done.
    - intros d j [Hin|Hin]%elem_of_app.
      + destruct Hgap as [->|Hgap]; [by apply elem_of_nil in Hin|].
        pose proof (Hbelow _ _ Hin). lra.
      + by destruct (Hsh _ _ (Hcin _ Hin)) as (_ & _ & _ & ?). }
  case_decide; unfold nn_single_ok; simpl.
  - destruct (Hnew (Z.of_nat n - Z.of_nat (length nb))%Z)
      as (? & ? & ? & _).
    split_and!; try done.
  - destruct (Hnew (Z.of_nat (length sh))) as (? & ? & ? & ?).
    split_and!; try done. intros _. split; [done|]. right.
    pose proof cell_size_min_nonneg. lra.
Qed.
End SingleCentre.
(** X19: a query for a single centre is not touched by the index slip.
    On an index built over a valid data set without periodic axes, with a
    sorting routine that sorts, whenever [nearest_neighbors] returns for
    one centre it returns [n] pairs, each a data point with its distance to
    the centre, no point twice, in ascending order of distance. *)
Theorem nearest_neighbors_single_centre `{Numerics} (points : list (list Q))
    (N : nat) (pspec : gmap nat (option (Q * Q))) (g : GriSPy)
    (c : list Q) (n fuel : nat) (res : list (list (Q * nat))) :
  valid_data points → (1 ≤ N)%nat →
  (∀ keys, sorts_keys keys (argsort keys)) →
  GriSPy_init points N pspec = Some g → periodic_flag_ g = false →
  nearest_neighbors g fuel [c] n = Some res →
  ∃ l, res = [l] ∧ length l = n
    ∧ StronglySorted Qle l.*1 ∧ NoDup l.*2
    ∧ ∀ d j, (d, j) ∈ l →
        (j < length points)%nat ∧ d = metric_func c (points !!! j).
Proof.
  intros Hvalid HN Hargsort Hinit Hflag Hres.
  assert (Hlen : ∀ keys, length (argsort keys) = length keys).
  { intros keys. destruct (Hargsort keys) as [Hperm _].
    by rewrite Hperm, length_seq. }
  unfold nearest_neighbors in Hres.
  destruct (nn_loop_invariant g
              (λ st, nn_counted 1 n st ∧ nn_single_ok points c st)
              [c] n fuel (nn_init g [c] n) res)
    as (st & ((Hf & Hnb & Hcount) & (_ & _ & Hsorted & Hnd & Hsound & _))
           & Hall & ->); [| |exact Hres|].
  { intros st [Hc Hs] Hopen. split.
    - by apply nn_round_counted.
    - by apply (nn_round_single points N pspec g Hvalid HN Hargsort Hinit
                  Hflag). }
  { split; [apply (nn_init_counted g [c] n)|].
    unfold nn_single_ok, nn_init.
    cbn [lower_distance_tmp upper_distance_tmp neighbors n_found].
    change (replicate (length [c]) (@nil (Q * nat)) !!! 0%nat)
      with (@nil (Q * nat)).
    split; [done|]. split.
    { rewrite !length_fmap.
      by rewrite neighbor_distance_length by apply neighbor_cells_length. }
    split; [constructor|]. split; [constructor|]. split.
    - intros d j Hin. by apply elem_of_nil in Hin.
    - intros _. split; [|by left]. intros d j Hin.
      by apply elem_of_nil in Hin. }
  destruct (neighbors st) as [|l [|]] eqn:Hl; try done.
  simpl in *. exists l. split; [done|]. split; [|done].
  destruct (Hcount 0%nat ltac:(lia)) as [_ Hn].
  apply Hn. destruct (n_found st) as [|b [|]]; try done.
  simpl in Hall. by destruct b.
Qed.

Lemma far_points_valid : valid_data far_points.
Proof. split_and!; [done|vm_compute; lia|by repeat constructor]. Defined.

Lemma nearest_neighbors_single_centre_witness :
  ∃ res,
    valid_data far_points ∧ (1 ≤ 1)%nat
    ∧ (∀ keys, sorts_keys keys (argsort (Numerics := axis1) keys))
    ∧ GriSPy_init (H := axis1) far_points 1 ∅ = Some far_index
    ∧ periodic_flag_ far_index = false
    ∧ nearest_neighbors (H := axis1) far_index 5 [[1%Q]] 2 = Some res
    ∧ ∃ l, res = [l] ∧ length l = 2%nat
        ∧ StronglySorted Qle l.*1 ∧ NoDup l.*2
        ∧ ∀ d j, (d, j) ∈ l →
            (j < length far_points)%nat
            ∧ d = euclid1 [1%Q] (far_points !!! j).
Proof.
  eexists. split; [exact far_points_valid|]. split; [lia|].
  split; [exact stable_argsort_sorts|]. split; [by vm_compute|].
  split; [reflexivity|]. split; [vm_compute; reflexivity|].
  apply (nearest_neighbors_single_centre (H := axis1) far_points 1 ∅
           far_index [1%Q] 2 5);
    [exact far_points_valid|lia|exact stable_argsort_sorts|by vm_compute
    |reflexivity|vm_compute; reflexivity].
Defined.
